(** * camera-aligner: the linear-algebra kernel and the calibration pipeline

    A shallow embedding of [linear-algebra.js] (classes [Matrix] and
    [Vector]) and of the calibration functions of the main script
    ([getVanishingPoints], [getFocalLength], [getWorldTransform],
    [getLocation], [getEulerRotation], [calculate]), together with its
    picking functions, its conversions between UV coordinates and canvas
    pixels, the projection of a point, the matrix written out for
    Blender and the sensor form.

    JavaScript numbers are IEEE-754 binary64 values.  The code is embedded
    once, over an interface [JSNum] of the arithmetic it uses, and run at
    two instances:
    - [Float64]: Rocq's primitive binary64 floats, bit for bit the numbers
      the script computes with (no trigonometry is available there);
    - [Exact]: the reals extended with NaN and the two infinities, that is
      JavaScript arithmetic with rounding, overflow and the sign of zero
      idealised away; the trigonometric functions are those of the
      standard library of reals. *)

From Stdlib Require Import Floats.
From Stdlib Require Import List Arith ZArith Bool Lia.
From Stdlib Require Import Reals Lra.
From Stdlib Require RNsatz.
Import ListNotations.

(** ** Exceptions

    The only exception the embedded code can raise is the [TypeError] of a
    property access on [undefined] or [null] (and of [reduce] on an empty
    array). *)

Inductive exn (A : Type) : Type :=
| Ret (a : A)
| TypeError.

Arguments Ret {A} a.
Arguments TypeError {A}.

Definition bind {A B : Type} (c : exn A) (k : A -> exn B) : exn B :=
  match c with
  | Ret a => k a
  | TypeError => TypeError
  end.

Notation "x <- c ;; k" := (bind c (fun x => k))
  (at level 61, c at next level, right associativity).
Notation "' p <- c ;; k" := (bind c (fun x => let 'p := x in k))
  (at level 61, p pattern, c at next level, right associativity).

(** A [for] loop whose body may throw: the state is threaded through the
    indices in order. *)
Fixpoint forM {A S : Type} (body : S -> A -> exn S) (l : list A) (s : S) : exn S :=
  match l with
  | [] => Ret s
  | a :: l' => s' <- body s a ;; forM body l' s'
  end.

(** ** Numbers *)

Class JSNum : Type := {
  num : Type;
  (** an integer literal of the source text *)
  lit : Z -> num;
  add : num -> num -> num;
  sub : num -> num -> num;
  mul : num -> num -> num;
  div : num -> num -> num;
  (** unary minus *)
  neg : num -> num;
  (** [===] and [<] on two numbers *)
  strictEq : num -> num -> bool;
  lt : num -> num -> bool;
  NaN : num;
  (** [isNaN] on a number *)
  numIsNaN : num -> bool;
  (** [Math.sqrt], [Math.pow(x, 2)], [Math.max] of two numbers *)
  Math_sqrt : num -> num;
  Math_sq : num -> num;
  Math_max : num -> num -> num
}.

(** The part of [Math] that binary64 floats do not provide in Rocq. *)
Class JSMath (N : JSNum) : Type := {
  Math_sin : num -> num;
  Math_cos : num -> num;
  Math_atan : num -> num;
  Math_atan2 : num -> num -> num;
  Math_PI : num
}.

Section Kernel.

Context {N : JSNum}.

(** ** Values and arrays

    An array element is a number or [undefined]; reading past the end of
    an array (or a hole of [new Array(n)]) gives [undefined].  Every
    consumer in the source either does arithmetic on the element
    ([undefined] converts to NaN), compares it with [=== 0], passes it to
    [isNaN], or copies it, so a hole and a stored [undefined] behave
    alike and are not told apart.  ([map] leaves a hole where the model
    stores the NaN of the callback: both read as NaN afterwards.) *)

Inductive val : Type :=
| VNum (x : num)
| VUndef.

(** ToNumber *)
Definition toNum (v : val) : num :=
  match v with
  | VNum x => x
  | VUndef => NaN
  end.

(** [v === k] for a number [k] *)
Definition valStrictEq (v : val) (k : num) : bool :=
  match v with
  | VNum x => strictEq x k
  | VUndef => false
  end.

(** the global [isNaN(v)] *)
Definition isNaN (v : val) : bool := numIsNaN (toNum v).

(** ToBoolean of a number: false for NaN and for zero of either sign. *)
Definition truthy (x : num) : bool :=
  negb (numIsNaN x) && negb (strictEq x (lit 0)).

Definition array := list val.

(** [a[i]] *)
Definition arr_get (a : array) (i : nat) : val := nth i a VUndef.

(** [a[i] = v]: in range it overwrites; at or past the end the array grows
    to length [i + 1], the skipped positions reading as [undefined]. *)
Fixpoint arr_set (a : array) (i : nat) (v : val) : array :=
  match i, a with
  | O, [] => [v]
  | O, _ :: a' => v :: a'
  | S i', [] => VUndef :: arr_set [] i' v
  | S i', x :: a' => x :: arr_set a' i' v
  end.

(** ** Matrix

    A [Matrix] object has one field, [matrix], an array of rows. *)

Definition Matrix := list array.

(** [M.matrix[i]] as the receiver of a further property access: a missing
    row is [undefined], and the access throws. *)
Definition row_get (M : Matrix) (i : nat) : exn array :=
  match nth_error M i with
  | Some r => Ret r
  | None => TypeError
  end.

(** [M.matrix[i] = r] for an existing row [i]. *)
Fixpoint row_set (M : Matrix) (i : nat) (r : array) : Matrix :=
  match i, M with
  | _, [] => []
  | O, _ :: M' => r :: M'
  | S i', x :: M' => x :: row_set M' i' r
  end.

(** [M.matrix[i][j]] *)
Definition entry (M : Matrix) (i j : nat) : exn val :=
  r <- row_get M i ;; Ret (arr_get r j).

(** [M.matrix[i][j] = v] *)
Definition entry_set (M : Matrix) (i j : nat) (v : val) : exn Matrix :=
  r <- row_get M i ;; Ret (row_set M i (arr_set r j v)).

(** [Matrix.fromSize(width, height, value)] *)
Definition fromSize (width height : nat) (value : num) : Matrix :=
  repeat (repeat (VNum value) width) height.

(** [Matrix.identity(size)] *)
Definition identity (size : nat) : exn Matrix :=
  forM (fun M i => entry_set M i i (VNum (lit 1))) (seq 0 size)
       (fromSize size size (lit 0)).

(** [get m()] *)
Definition m (M : Matrix) : nat := length M.

(** [get n()]: [this.matrix[0].length] throws on a matrix without rows. *)
Definition n (M : Matrix) : exn nat :=
  r <- row_get M 0 ;; Ret (length r).

(** [get transpose()] *)
Definition transpose (M : Matrix) : exn Matrix :=
  let n' := m M in
  m' <- n M ;;
  forM (fun newMatrix y =>
          row <- forM (fun row x => e <- entry M x y ;; Ret (row ++ [e]))
                      (seq 0 n') [] ;;
          Ret (newMatrix ++ [row]))
       (seq 0 m') [].

(** [transformVector(vector)].  [this.n] is read in the condition of the
    inner loop only, hence once the result has an element, that is on a
    matrix with a row, where it does not throw; it is read here once for
    each round of the outer loop. *)
Definition transformVector (M : Matrix) (vector : array) : exn array :=
  let result := repeat (VNum (lit 0)) (m M) in
  forM (fun result i =>
          w <- n M ;;
          forM (fun result j =>
                  e <- entry M i j ;;
                  Ret (arr_set result i
                         (VNum (add (toNum (arr_get result i))
                                    (mul (toNum e) (toNum (arr_get vector j)))))))
               (seq 0 (Nat.min (length vector) w)) result)
       (seq 0 (length result)) result.

(** [Matrix.multiplication(matrix1, matrix2)] *)
Definition multiplication (matrix1 matrix2 : Matrix) : exn Matrix :=
  let m := length matrix1 in
  n <- n matrix2 ;;
  let result := fromSize n m (lit 0) in
  forM (fun result i =>
          let vector := repeat VUndef n in
          vector <- forM (fun vector j =>
                            e <- entry matrix2 j i ;;
                            Ret (arr_set vector j e))
                         (seq 0 m) vector ;;
          vector <- transformVector matrix1 vector ;;
          forM (fun result j => entry_set result j i (arr_get vector j))
               (seq 0 m) result)
       (seq 0 n) result.

(** [get copy()] *)
Definition copy (M : Matrix) : Matrix := map (fun row => row) M.

(** [multiplyRow(row, scalar)] *)
Definition multiplyRow (M : Matrix) (row : nat) (scalar : num) : exn Matrix :=
  r <- row_get M row ;;
  Ret (row_set M row (map (fun x => VNum (mul (toNum x) scalar)) r)).

(** [multiplyAndAdd(from, to, scalar)].  The callback reads
    [this.matrix[to][i]], which throws for a missing row [to] as soon as
    row [from] has an element.  (With an empty row [from] and a missing
    row [to] the source would grow the matrix by an empty row; no caller
    reaches that, and it is [TypeError] here as well.) *)
Definition multiplyAndAdd (M : Matrix) (from to : nat) (scalar : num) : exn Matrix :=
  rf <- row_get M from ;;
  rt <- row_get M to ;;
  Ret (row_set M to
         (map (fun '(val, i) => VNum (add (mul (toNum val) scalar) (toNum (arr_get rt i))))
              (combine rf (seq 0 (length rf))))).

(** [swap(rowIndex1, rowIndex2)]: the first [this.n] elements of the two
    rows are exchanged in place, one index at a time.  With
    [rowIndex1 = rowIndex2] both names denote one array. *)
Definition swap (M : Matrix) (rowIndex1 rowIndex2 : nat) : exn Matrix :=
  w <- n M ;;
  if w =? 0 then Ret M else
  row1 <- row_get M rowIndex1 ;;
  row2 <- row_get M rowIndex2 ;;
  if rowIndex1 =? rowIndex2 then
    Ret (row_set M rowIndex1
           (fold_left (fun row i => arr_set (arr_set row i (arr_get row i)) i (arr_get row i))
                      (seq 0 w) row1))
  else
    let '(row1, row2) :=
      fold_left (fun '(row1, row2) i =>
                   let temp := arr_get row1 i in
                   (arr_set row1 i (arr_get row2 i), arr_set row2 i temp))
                (seq 0 w) (row1, row2) in
    Ret (row_set (row_set M rowIndex1 row1) rowIndex2 row2).

(** The pivot search of [inverse]: the first [i] of the list with
    [old.matrix[i][i] !== 0] is swapped with row [col] in both matrices,
    and the search stops there ([break]). *)
Fixpoint pivotSearch (cands : list nat) (col : nat) (st : Matrix * Matrix)
  : exn (Matrix * Matrix) :=
  match cands with
  | [] => Ret st
  | i :: cands' =>
      let '(old, newMatrix) := st in
      d <- entry old i i ;;
      if negb (valStrictEq d (lit 0)) then
        old <- swap old i col ;;
        newMatrix <- swap newMatrix i col ;;
        Ret (old, newMatrix)
      else pivotSearch cands' col st
  end.

(** One round of the first loop of [inverse] ("bottom left corner zeros"). *)
Definition forwardStep (cols rows : nat) (st : Matrix * Matrix) (col : nat)
  : exn (Matrix * Matrix) :=
  let '(old, newMatrix) := st in
  d <- entry old col col ;;
  '(old, newMatrix) <-
    (if valStrictEq d (lit 0)
     then pivotSearch (seq col (cols - col)) col (old, newMatrix)
     else Ret (old, newMatrix)) ;;
  value <- entry old col col ;;
  old <- multiplyRow old col (div (lit 1) (toNum value)) ;;
  newMatrix <- multiplyRow newMatrix col (div (lit 1) (toNum value)) ;;
  forM (fun '(old, newMatrix) row =>
          rowValue <- entry old row col ;;
          old <- multiplyAndAdd old col row (neg (toNum rowValue)) ;;
          newMatrix <- multiplyAndAdd newMatrix col row (neg (toNum rowValue)) ;;
          Ret (old, newMatrix))
       (seq (col + 1) (rows - (col + 1))) (old, newMatrix).

(** One round of the second loop ("top right corner zeros"): [row] runs
    from [col - 1] down to [0]. *)
Definition backwardStep (st : Matrix * Matrix) (col : nat) : exn (Matrix * Matrix) :=
  forM (fun '(old, newMatrix) row =>
          rowValue <- entry old row col ;;
          old <- multiplyAndAdd old col row (neg (toNum rowValue)) ;;
          newMatrix <- multiplyAndAdd newMatrix col row (neg (toNum rowValue)) ;;
          Ret (old, newMatrix))
       (rev (seq 0 col)) st.

(** [get inverse()]: [None] is the [null] of the source. *)
Definition inverse (M : Matrix) : exn (option Matrix) :=
  cols <- n M ;;
  let rows := m M in
  if negb (cols =? rows) then Ret None else
  let old := copy M in
  newMatrix <- identity cols ;;
  st <- forM (forwardStep cols rows) (seq 0 cols) (old, newMatrix) ;;
  '(_, newMatrix) <- forM backwardStep (rev (seq 0 cols)) st ;;
  Ret (Some newMatrix).

(** [x.inverse] used as an object: [null] throws at the next access. *)
Definition inverseObj (M : Matrix) : exn Matrix :=
  r <- inverse M ;;
  match r with
  | Some M' => Ret M'
  | None => TypeError
  end.

(** ** Vector *)

(** [Vector.addition(vector1, vector2)] *)
Definition addition (vector1 vector2 : array) : array :=
  let length := Nat.max (length vector1) (length vector2) in
  fold_left (fun result i =>
               let term1 := arr_get vector1 i in
               let term2 := arr_get vector2 i in
               let term1 := if isNaN term1 then VNum (lit 0) else term1 in
               let term2 := if isNaN term2 then VNum (lit 0) else term2 in
               result ++ [VNum (add (toNum term1) (toNum term2))])
            (seq 0 length) [].

(** [Vector.subtraction(vector1, vector2)] *)
Definition subtraction (vector1 vector2 : array) : array :=
  let length := Nat.max (length vector1) (length vector2) in
  fold_left (fun result i =>
               let term1 := arr_get vector1 i in
               let term2 := arr_get vector2 i in
               let term1 := if isNaN term1 then VNum (lit 0) else term1 in
               let term2 := if isNaN term2 then VNum (lit 0) else term2 in
               result ++ [VNum (sub (toNum term1) (toNum term2))])
            (seq 0 length) [].

(** [Vector.scalarMultiplication(vector, scalar)] *)
Definition scalarMultiplication (vector : array) (scalar : num) : array :=
  map (fun x => VNum (mul (toNum x) scalar)) vector.

(** [reduce((prev, curr) => prev + curr)] without an initial value: the
    first element starts the sum, and an empty array throws. *)
Definition reduceSum (a : list num) : exn num :=
  match a with
  | [] => TypeError
  | x :: a' => Ret (fold_left add a' x)
  end.

(** [Vector.normalize(vector)] *)
Definition normalize (vector : array) : exn array :=
  s <- reduceSum (map (fun x => Math_sq (toNum x)) vector) ;;
  let c := div (lit 1) (Math_sqrt s) in
  Ret (map (fun x => VNum (mul (toNum x) c)) vector).

(** [Vector.crossProduct(vector1, vector2)] *)
Definition crossProduct (vector1 vector2 : array) : array :=
  fold_left (fun newVector i =>
               let newVector :=
                 newVector ++ [VNum (mul (toNum (arr_get vector1 ((i + 1) mod 3)))
                                         (toNum (arr_get vector2 ((i + 2) mod 3))))] in
               arr_set newVector i
                 (VNum (sub (toNum (arr_get newVector i))
                            (mul (toNum (arr_get vector1 ((i + 2) mod 3)))
                                 (toNum (arr_get vector2 ((i + 1) mod 3)))))))
            (seq 0 3) [].

(** ** Corners and vanishing points *)

Record Corner : Type := mkCorner {
  uvCenter : array;
  point1 : array;
  point2 : array
}.

(** [pointFromIndex(index)] *)
Definition pointFromIndex (c : Corner) (index : nat) : array :=
  if index =? 0 then point1 c else point2 c.

(** One round of the loop of [getVanishingPoints]: the vanishing point
    of the edge family [i]. *)
Definition vanishingPoint (corners : Corner * Corner) (i : nat) : exn array :=
  let o1 := uvCenter (fst corners) in
  let o2 := uvCenter (snd corners) in
  let p1 := subtraction o1 (pointFromIndex (fst corners) i) in
  let p2 := subtraction o2 (pointFromIndex (snd corners) i) in
  let m := [ [arr_get p1 0; VNum (neg (toNum (arr_get p2 0)))];
             [arr_get p1 1; VNum (neg (toNum (arr_get p2 1)))] ] in
  let v := [ VNum (sub (toNum (arr_get o2 0)) (toNum (arr_get o1 0)));
             VNum (sub (toNum (arr_get o2 1)) (toNum (arr_get o1 1))) ] in
  inv <- inverseObj m ;;
  c <- transformVector inv v ;;
  Ret (addition o1 (scalarMultiplication p1 (toNum (arr_get c 0)))).

(** [getVanishingPoints()]; the global [corners] always holds two
    corners. *)
Definition getVanishingPoints (corners : Corner * Corner) : exn (list array) :=
  forM (fun vanishingPoints i =>
          vp <- vanishingPoint corners i ;;
          Ret (vanishingPoints ++ [vp]))
       (seq 0 2) [].

(** [getFocalLength()], as a function of the two fields of [calcResults]
    it reads. *)
Definition getFocalLength (v : list array) (sensorLength : num) : exn num :=
  v00 <- entry v 0 0 ;;
  v10 <- entry v 1 0 ;;
  v01 <- entry v 0 1 ;;
  v11 <- entry v 1 1 ;;
  Ret (mul (div (Math_sqrt (sub (mul (neg (toNum v00)) (toNum v10))
                                (mul (toNum v01) (toNum v11))))
                (lit 2))
           sensorLength).

End Kernel.

(** ** Rotations, pose and the top-level computation

    These need [Math.sin], [Math.cos], [Math.atan], [Math.atan2] and
    [Math.PI]. *)

Section Pipeline.

Context {N : JSNum} {T : JSMath N}.

(** [Matrix.rotation3D(axis, radians)]; [axis] is an index.  For an index
    that names no row the first assignment throws. *)
Definition rotation3D (axis : nat) (radians : num) : exn Matrix :=
  let m := fromSize 3 3 (lit 0) in
  let s := Math_sin radians in
  let c := Math_cos radians in
  m <- entry_set m axis axis (VNum (lit 1)) ;;
  m <- entry_set m ((axis + 1) mod 3) ((axis + 1) mod 3) (VNum c) ;;
  m <- entry_set m ((axis + 2) mod 3) ((axis + 2) mod 3) (VNum c) ;;
  m <- entry_set m ((axis + 2) mod 3) ((axis + 1) mod 3) (VNum s) ;;
  m <- entry_set m ((axis + 1) mod 3) ((axis + 2) mod 3) (VNum (neg s)) ;;
  Ret m.

(** The value of an axis selector: a sign character followed by an axis
    letter, as the [axes] table and [Number(axis[0] + "1")] of
    [getWorldTransform] read it. *)
Inductive Sign : Type := Plus | Minus.
Inductive Letter : Type := LX | LY | LZ.

Record AxisLabel : Type := mkAxis {
  axSign : Sign;
  axLetter : Letter
}.

(** [Number(axis[0] + "1")] *)
Definition signNumber (a : AxisLabel) : num :=
  match axSign a with
  | Plus => lit 1
  | Minus => neg (lit 1)
  end.

(** [axes[axis[1]]] *)
Definition axes (a : AxisLabel) : nat :=
  match axLetter a with
  | LX => 0
  | LY => 1
  | LZ => 2
  end.

(** [axis1[1] !== axis2[1]] *)
Definition letterDiffers (a b : AxisLabel) : bool :=
  negb (axes a =? axes b).

(** The bag [calcResults].  It is created once, when the script loads,
    and [calculate] only assigns to its fields ([window.calcResults = {}]
    sets a property of [window], not the script's [let] binding), so a
    field that a run does not assign keeps the value of an earlier run.
    The two strings for the Blender console are not modelled. *)
Record CalcResults : Type := mkCalcResults {
  vanishingPoints : option (list array);
  sensorLength : option num;
  focalLength : option num;
  fov : option num;
  worldTransform : option Matrix;
  location : option array;
  eulerRotation : option array
}.

(** The bag at load time: [{}]. *)
Definition emptyResults : CalcResults :=
  mkCalcResults None None None None None None None.

(** What [calculate] reads besides [calcResults]: the globals [corners]
    and [origin], and the form fields, the numeric ones after their
    conversion to a number. *)
Record Inputs : Type := mkInputs {
  corners : Corner * Corner;
  origin : array;
  axis1 : AxisLabel;
  axis2 : AxisLabel;
  sensorWidth : num;
  sensorHeight : num;
  distanceToOrigin : num
}.

(** The search of [getWorldTransform] for the first empty row, which is
    replaced by a cross product ([break] ends the loop). *)
Fixpoint completeAxes (cands : list nat) (vectors : Matrix) : exn Matrix :=
  match cands with
  | [] => Ret vectors
  | i :: cands' =>
      vi <- row_get vectors i ;;
      if length vi =? 0 then
        a <- row_get vectors ((i + 1) mod 3) ;;
        b <- row_get vectors ((i + 2) mod 3) ;;
        Ret (row_set vectors i (crossProduct a b))
      else completeAxes cands' vectors
  end.

(** [getWorldTransform()], as a function of the fields it reads. *)
Definition getWorldTransform (axis1 axis2 : AxisLabel)
    (focalLength sensorLength : num) (vanishingPoints : list array) : exn Matrix :=
  let distance := mul (div focalLength sensorLength) (lit 2) in
  vp1 <- row_get vanishingPoints 0 ;;
  vp2 <- row_get vanishingPoints 1 ;;
  let vectors : Matrix := [ []; []; [] ] in
  vector1 <- normalize [arr_get vp1 0; arr_get vp1 1; VNum (neg distance)] ;;
  vector2 <- normalize [arr_get vp2 0; arr_get vp2 1; VNum (neg distance)] ;;
  let vector1 := scalarMultiplication vector1 (signNumber axis1) in
  let vector2 := scalarMultiplication vector2 (signNumber axis2) in
  let vectors := row_set vectors (axes axis1) vector1 in
  let vectors := row_set vectors (axes axis2) vector2 in
  vectors <- completeAxes (seq 0 3) vectors ;;
  transpose vectors.

(** [projectPointLocalInverse(uv, distance)] *)
Definition projectPointLocalInverse (focalLength sensorLength : num)
    (uv : array) (distance : num) : array :=
  let c := mul (div (div sensorLength focalLength) (lit 2)) distance in
  let v := scalarMultiplication uv c in
  [arr_get v 0; arr_get v 1; VNum (neg distance)].

(** [getLocation()] *)
Definition getLocation (origin : array) (distance focalLength sensorLength : num)
    (worldTransform : Matrix) : exn array :=
  v <- normalize (projectPointLocalInverse focalLength sensorLength origin (lit 1)) ;;
  let point := scalarMultiplication v distance in
  m <- inverseObj worldTransform ;;
  r <- transformVector m point ;;
  Ret (scalarMultiplication r (neg (lit 1))).

(** The two candidate lists of [getEulerRotation]. *)
Definition eulerGammas (m : Matrix) : exn (list num) :=
  m10 <- entry m 1 0 ;;
  m00 <- entry m 0 0 ;;
  let gamma0 := Math_atan (div (toNum m10) (toNum m00)) in
  Ret [gamma0; add gamma0 Math_PI].

Definition eulerBetas (m : Matrix) : exn (list num) :=
  m20 <- entry m 2 0 ;;
  let beta0 := neg (Math_sin (toNum m20)) in
  Ret [beta0; sub Math_PI beta0].

(** The sum of the squares of the entrywise differences of [combined]
    and [m], row by row. *)
Definition squaredError (combined m : Matrix) : exn num :=
  forM (fun error '(row, i) =>
          forM (fun error '(element, j) =>
                  mij <- entry m i j ;;
                  Ret (add error (Math_sq (sub (toNum element) (toNum mij)))))
               (combine row (seq 0 (length row))) error)
       (combine combined (seq 0 (length combined))) (lit 0).

Record Candidate : Type := mkCandidate {
  angles : array;
  error : num
}.

(** One candidate of [getEulerRotation], for a [gamma] and a [beta]. *)
Definition eulerCandidate (inv : Matrix) (gammaMat : Matrix) (gamma beta : num)
  : exn Candidate :=
  betaMat <- rotation3D 1 beta ;;
  betaInv <- inverseObj betaMat ;;
  gammaInv <- inverseObj gammaMat ;;
  inner <- multiplication gammaInv inv ;;
  mat <- multiplication betaInv inner ;;
  mat21 <- entry mat 2 1 ;;
  mat11 <- entry mat 1 1 ;;
  let alpha := Math_atan2 (toNum mat21) (toNum mat11) in
  alphaMat <- rotation3D 0 alpha ;;
  ba <- multiplication betaMat alphaMat ;;
  combined <- multiplication gammaMat ba ;;
  error <- squaredError combined inv ;;
  Ret (mkCandidate [VNum alpha; VNum beta; VNum gamma] error).

(** [angles.reduce((prev, curr) => prev.error < curr.error ? prev : curr)] *)
Definition reduceBest (l : list Candidate) : exn Candidate :=
  match l with
  | [] => TypeError
  | c :: l' =>
      Ret (fold_left (fun prev curr => if lt (error prev) (error curr) then prev else curr)
                     l' c)
  end.

(** [getEulerRotation()] *)
Definition getEulerRotation (worldTransform : Matrix) : exn array :=
  inv <- inverseObj worldTransform ;;
  gammas <- eulerGammas inv ;;
  betas <- eulerBetas inv ;;
  cands <- forM (fun cands gamma =>
                   gammaMat <- rotation3D 2 gamma ;;
                   forM (fun cands beta =>
                           c <- eulerCandidate inv gammaMat gamma beta ;;
                           Ret (cands ++ [c]))
                        betas cands)
                gammas [] ;;
  best <- reduceBest cands ;;
  Ret (angles best).

(** The field-of-view expression of [calculate]. *)
Definition fovDegrees (sensorLength focalLength : num) : num :=
  mul (div (mul (lit 2) (Math_atan (div (div sensorLength (lit 2)) focalLength)))
           Math_PI)
      (lit 180).

(** The test of the [if] of [calculate]. *)
Definition poseGate (focalLength : num) (axis1 axis2 : AxisLabel) : bool :=
  truthy focalLength && letterDiffers axis1 axis2.

(** [calculate()]: the new bag and the [hidden] flag of the results
    panel. *)
Definition calculate (inp : Inputs) (calcResults : CalcResults)
  : exn (CalcResults * bool) :=
  let hidden := true in
  vps <- getVanishingPoints (corners inp) ;;
  let sl := Math_max (sensorWidth inp) (sensorHeight inp) in
  f <- getFocalLength vps sl ;;
  let fv := fovDegrees sl f in
  if poseGate f (axis1 inp) (axis2 inp) then
    let hidden := false in
    wt <- getWorldTransform (axis1 inp) (axis2 inp) f sl vps ;;
    loc <- getLocation (origin inp) (distanceToOrigin inp) f sl wt ;;
    eul <- getEulerRotation wt ;;
    let eul := map (fun x => VNum (mul (div (toNum x) Math_PI) (lit 180))) eul in
    Ret (mkCalcResults (Some vps) (Some sl) (Some f) (Some fv)
                       (Some wt) (Some loc) (Some eul), hidden)
  else
    Ret (mkCalcResults (Some vps) (Some sl) (Some f) (Some fv)
                       (worldTransform calcResults) (location calcResults)
                       (eulerRotation calcResults), hidden).

End Pipeline.

(** ** Picking, the viewport, projection and the sensor form *)

Section Interface.

Context {N : JSNum} {T : JSMath N}.

(** [distanceToPoint(point1, point2)]: the loop runs over the length of
    the first point. *)
Definition distanceToPoint (point1 point2 : array) : num :=
  Math_sqrt
    (fold_left (fun total i =>
                  add total (Math_sq (sub (toNum (arr_get point1 i))
                                          (toNum (arr_get point2 i)))))
               (seq 0 (length point1)) (lit 0)).

(** The objects [{point: x, dist: ...}] of [closestPoint]. *)
Record Ranked : Type := mkRanked {
  point : array;
  dist : num
}.

(** [closestPoint(point, points)]: [reduce] without an initial value
    throws on an empty array; [prev.dist > curr.dist] is
    [curr.dist < prev.dist]. *)
Definition closestPoint (pt : array) (points : list array) : exn array :=
  match map (fun x => mkRanked x (distanceToPoint x pt)) points with
  | [] => TypeError
  | r :: rs =>
      Ret (point (fold_left (fun prev curr => if lt (dist curr) (dist prev) then curr else prev)
                            rs r))
  end.

(** What the coordinate conversions read: the natural size of the image,
    the size of the canvas, and the globals [zoomRatio] and
    [imageOffset]. *)
Record View : Type := mkView {
  naturalWidth : num;
  naturalHeight : num;
  canvasWidth : num;
  canvasHeight : num;
  zoomRatio : num;
  imageOffset : array
}.

(** [imgCanvasSize()] *)
Definition imgCanvasSize (vw : View) : array :=
  let coefficient :=
    div (Math_max (div (naturalWidth vw) (canvasWidth vw))
                  (div (naturalHeight vw) (canvasHeight vw)))
        (zoomRatio vw) in
  [VNum (div (naturalWidth vw) coefficient); VNum (div (naturalHeight vw) coefficient)].

(** [Math.max(...imgCanvasSize())] *)
Definition maxImgCanvasSize (vw : View) : num :=
  let size := imgCanvasSize vw in
  Math_max (toNum (arr_get size 0)) (toNum (arr_get size 1)).

(** [pixelsToUVRelative(x, y)] *)
Definition pixelsToUVRelative (vw : View) (x y : num) : array :=
  let coefficient := div (lit 2) (maxImgCanvasSize vw) in
  [VNum (mul x coefficient); VNum (mul (mul y coefficient) (neg (lit 1)))].

(** [pixelsToUVAbsolute(x, y)] *)
Definition pixelsToUVAbsolute (vw : View) (x y : num) : array :=
  let p := pixelsToUVRelative vw (sub x (div (canvasWidth vw) (lit 2)))
                                 (sub y (div (canvasHeight vw) (lit 2))) in
  let u := sub (toNum (arr_get p 0)) (toNum (arr_get (imageOffset vw) 0)) in
  let v := sub (toNum (arr_get p 1)) (toNum (arr_get (imageOffset vw) 1)) in
  [VNum u; VNum v].

(** [UVToPixelsRelative(u, v)] *)
Definition UVToPixelsRelative (vw : View) (u v : num) : array :=
  let coefficient := div (maxImgCanvasSize vw) (lit 2) in
  [VNum (mul u coefficient); VNum (mul (mul v coefficient) (neg (lit 1)))].

(** [UVToPixelsAbsolute(u, v)] *)
Definition UVToPixelsAbsolute (vw : View) (u v : num) : array :=
  let p := UVToPixelsRelative vw (add u (toNum (arr_get (imageOffset vw) 0)))
                                 (add v (toNum (arr_get (imageOffset vw) 1))) in
  let x := add (toNum (arr_get p 0)) (div (canvasWidth vw) (lit 2)) in
  let y := add (toNum (arr_get p 1)) (div (canvasHeight vw) (lit 2)) in
  [VNum x; VNum y].

(** [moveImage(event)] of the [mousedown] listener, for a grabbed point
    [start] and the position of the pointer: the new view (the call of
    [draw] that follows is not modelled). *)
Definition moveImage (vw : View) (start : array) (offsetX offsetY : num) : View :=
  let newPoint := pixelsToUVAbsolute vw offsetX offsetY in
  let off := imageOffset vw in
  let off := arr_set off 0
               (VNum (add (toNum (arr_get off 0))
                          (sub (toNum (arr_get newPoint 0)) (toNum (arr_get start 0))))) in
  let off := arr_set off 1
               (VNum (add (toNum (arr_get off 1))
                          (sub (toNum (arr_get newPoint 1)) (toNum (arr_get start 1))))) in
  mkView (naturalWidth vw) (naturalHeight vw) (canvasWidth vw) (canvasHeight vw)
         (zoomRatio vw) off.

(** [projectPointLocal(vector)], as a function of the two fields of
    [calcResults] it reads. *)
Definition projectPointLocal (focalLength sensorLength : num) (vector : array) : array :=
  let c := div (mul (div (neg focalLength) sensorLength) (lit 2))
               (toNum (arr_get vector 2)) in
  let v := scalarMultiplication vector c in
  [arr_get v 0; arr_get v 1].

(** The matrix that [getBlender4x4Matrix()] builds and then writes out
    with [JSON.stringify] (the text is not modelled): [push] appends a
    row. *)
Definition blenderMatrix (worldTransform : Matrix) (location : array) : exn Matrix :=
  inv <- inverseObj worldTransform ;;
  m <- transpose inv ;;
  let m := m ++ [location] in
  m <- transpose m ;;
  Ret (m ++ [[VNum (lit 0); VNum (lit 0); VNum (lit 0); VNum (lit 1)]]).

(** [updateSensorSize(deciding)]: [None] is the default [null].  The two
    form fields hold numbers (a number written to a field reads back as
    the same number); the new form and the result of the call of
    [calculate] that ends the function are returned. *)
Definition updateSensorSize (deciding : option nat) (vw : View) (inp : Inputs)
    (calcResults : CalcResults) : exn (Inputs * (CalcResults * bool)) :=
  let sensorWidth' := sensorWidth inp in
  let sensorHeight' := sensorHeight inp in
  let aspectRatio := div (naturalWidth vw) (naturalHeight vw) in
  let '(sw, sh) :=
    match deciding with
    | None =>
        let deciding := if lt (lit 1) aspectRatio then 0 else 1 in
        let longest := Math_max sensorHeight' sensorWidth' in
        if deciding =? 0 then (longest, div longest aspectRatio)
        else (mul longest aspectRatio, longest)
    | Some deciding =>
        if deciding =? 0 then (sensorWidth', div sensorWidth' aspectRatio)
        else (mul sensorHeight' aspectRatio, sensorHeight')
    end in
  let inp' := mkInputs (corners inp) (origin inp) (axis1 inp) (axis2 inp)
                       sw sh (distanceToOrigin inp) in
  r <- calculate inp' calcResults ;;
  Ret (inp', r).

End Interface.

(** ** The binary64 instance

    [Math.max] returns NaN when an argument is NaN and prefers [+0] to
    [-0]; [Math.pow(x, 2)] is the rounded square. *)

Module Float64.

Definition ofZ (z : Z) : PrimFloat.float :=
  match z with
  | Zneg p => PrimFloat.opp (PrimFloat.of_uint63 (Uint63.of_Z (Zpos p)))
  | _ => PrimFloat.of_uint63 (Uint63.of_Z z)
  end.

Definition fmax (a b : PrimFloat.float) : PrimFloat.float :=
  if PrimFloat.is_nan a || PrimFloat.is_nan b then PrimFloat.nan
  else if PrimFloat.ltb a b then b
  else if PrimFloat.ltb b a then a
  else if PrimFloat.is_zero a then PrimFloat.add a b
  else a.

#[export] Instance float64 : JSNum := {|
  num := PrimFloat.float;
  lit := ofZ;
  add := PrimFloat.add;
  sub := PrimFloat.sub;
  mul := PrimFloat.mul;
  div := PrimFloat.div;
  neg := PrimFloat.opp;
  strictEq := PrimFloat.eqb;
  lt := PrimFloat.ltb;
  NaN := PrimFloat.nan;
  numIsNaN := PrimFloat.is_nan;
  Math_sqrt := PrimFloat.sqrt;
  Math_sq := fun x => PrimFloat.mul x x;
  Math_max := fmax
|}.

End Float64.

(** ** The exact instance

    A number is a real, NaN or an infinity.  The operations follow
    IEEE-754 on the special values; on two reals they are the exact
    operations.  Zero has no sign here: a nonzero real divided by zero
    gives the infinity of the dividend's sign, as for [+0]. *)

Module Exact.

Local Open Scope R_scope.

Inductive xreal : Type :=
| Fin (r : R)
| PInf
| NInf
| XNaN.

(** the infinity of the sign of [r], NaN for zero *)
Definition infOfSign (r : R) : xreal :=
  if Req_dec_T r 0 then XNaN
  else if Rlt_dec 0 r then PInf else NInf.

Definition xneg (a : xreal) : xreal :=
  match a with
  | Fin r => Fin (- r)
  | PInf => NInf
  | NInf => PInf
  | XNaN => XNaN
  end.

Definition xadd (a b : xreal) : xreal :=
  match a, b with
  | Fin x, Fin y => Fin (x + y)
  | XNaN, _ | _, XNaN => XNaN
  | PInf, NInf | NInf, PInf => XNaN
  | PInf, _ | _, PInf => PInf
  | NInf, _ | _, NInf => NInf
  end.

Definition xsub (a b : xreal) : xreal := xadd a (xneg b).

Definition xmul (a b : xreal) : xreal :=
  match a, b with
  | Fin x, Fin y => Fin (x * y)
  | XNaN, _ | _, XNaN => XNaN
  | Fin x, PInf | PInf, Fin x => infOfSign x
  | Fin x, NInf | NInf, Fin x => xneg (infOfSign x)
  | PInf, PInf | NInf, NInf => PInf
  | PInf, NInf | NInf, PInf => NInf
  end.

Definition xdiv (a b : xreal) : xreal :=
  match a, b with
  | Fin x, Fin y => if Req_dec_T y 0 then infOfSign x else Fin (x / y)
  | XNaN, _ | _, XNaN => XNaN
  | Fin _, PInf | Fin _, NInf => Fin 0
  | PInf, Fin y => if Rlt_dec y 0 then NInf else PInf
  | NInf, Fin y => if Rlt_dec y 0 then PInf else NInf
  | _, _ => XNaN
  end.

Definition xeq (a b : xreal) : bool :=
  match a, b with
  | Fin x, Fin y => if Req_dec_T x y then true else false
  | PInf, PInf | NInf, NInf => true
  | _, _ => false
  end.

Definition xlt (a b : xreal) : bool :=
  match a, b with
  | Fin x, Fin y => if Rlt_dec x y then true else false
  | Fin _, PInf | NInf, Fin _ | NInf, PInf => true
  | _, _ => false
  end.

Definition xisNaN (a : xreal) : bool :=
  match a with
  | XNaN => true
  | _ => false
  end.

Definition xsqrt (a : xreal) : xreal :=
  match a with
  | Fin x => if Rlt_dec x 0 then XNaN else Fin (R_sqrt.sqrt x)
  | PInf => PInf
  | _ => XNaN
  end.

Definition xsq (a : xreal) : xreal :=
  match a with
  | Fin x => Fin (x * x)
  | XNaN => XNaN
  | _ => PInf
  end.

Definition xmax (a b : xreal) : xreal :=
  match a, b with
  | Fin x, Fin y => Fin (Rmax x y)
  | XNaN, _ | _, XNaN => XNaN
  | PInf, _ | _, PInf => PInf
  | NInf, c | c, NInf => c
  end.

Definition xsin (a : xreal) : xreal :=
  match a with
  | Fin x => Fin (sin x)
  | _ => XNaN
  end.

Definition xcos (a : xreal) : xreal :=
  match a with
  | Fin x => Fin (cos x)
  | _ => XNaN
  end.

Definition xatan (a : xreal) : xreal :=
  match a with
  | Fin x => Fin (atan x)
  | PInf => Fin (PI / 2)
  | NInf => Fin (- (PI / 2))
  | XNaN => XNaN
  end.

(** [Math.atan2(y, x)]; a zero argument counts as [+0]. *)
Definition xatan2 (y x : xreal) : xreal :=
  match y, x with
  | XNaN, _ | _, XNaN => XNaN
  | Fin b, Fin a =>
      if Rlt_dec 0 a then Fin (atan (b / a))
      else if Rlt_dec a 0 then
        (if Rlt_dec b 0 then Fin (atan (b / a) - PI) else Fin (atan (b / a) + PI))
      else if Rlt_dec 0 b then Fin (PI / 2)
      else if Rlt_dec b 0 then Fin (- (PI / 2))
      else Fin 0
  | Fin b, PInf => Fin 0
  | Fin b, NInf => if Rlt_dec b 0 then Fin (- PI) else Fin PI
  | PInf, Fin _ => Fin (PI / 2)
  | NInf, Fin _ => Fin (- (PI / 2))
  | PInf, PInf => Fin (PI / 4)
  | NInf, PInf => Fin (- (PI / 4))
  | PInf, NInf => Fin (3 * PI / 4)
  | NInf, NInf => Fin (- (3 * PI / 4))
  end.

#[export] Instance exact : JSNum := {|
  num := xreal;
  lit := fun z => Fin (IZR z);
  add := xadd;
  sub := xsub;
  mul := xmul;
  div := xdiv;
  neg := xneg;
  strictEq := xeq;
  lt := xlt;
  NaN := XNaN;
  numIsNaN := xisNaN;
  Math_sqrt := xsqrt;
  Math_sq := xsq;
  Math_max := xmax
|}.

#[export] Instance exactMath : JSMath exact := {|
  Math_sin := xsin;
  Math_cos := xcos;
  Math_atan := xatan;
  Math_atan2 := xatan2;
  Math_PI := Fin PI
|}.

End Exact.


(** * Definitions used in the statements *)

Section StatementDefs.

Context {N : JSNum}.

(** The sum of the products [row[j] * vector[j]] for [j < k], added from
    the left to the literal [0]. *)
Definition dotPrefix (row vector : array) (k : nat) : num :=
  fold_left (fun acc j => add acc (mul (toNum (arr_get row j)) (toNum (arr_get vector j))))
            (seq 0 k) (lit 0).

(** The width of a matrix: the length of its first row. *)
Definition width (M : Matrix) : nat := length (hd [] M).

(** The sum of the products [row[j] * vector[j]] for [j < k], for a row
    and a vector of numbers. *)
Definition sumProducts (row vector : list num) (k : nat) : num :=
  fold_left (fun acc j => add acc (mul (nth j row NaN) (nth j vector NaN)))
            (seq 0 k) (lit 0).

(** [rows] rows, each of length [cols] *)
Definition shape (rows cols : nat) (M : Matrix) : Prop :=
  length M = rows /\ Forall (fun row => length row = cols) M.

(** What the two loops of [inverse] keep: the working copy has [k] rows
    and the accumulated matrix is [k] by [k]. *)
Definition inverseInv (k : nat) (st : Matrix * Matrix) : Prop :=
  length (fst st) = k /\ shape k k (snd st).

(** The determinant of a three-by-three matrix, by expansion along the
    first row. *)
Definition det3 (M : Matrix) : num :=
  let e i j := toNum (arr_get (nth i M []) j) in
  add (sub (mul (e 0 0) (sub (mul (e 1 1) (e 2 2)) (mul (e 1 2) (e 2 1))))
           (mul (e 0 1) (sub (mul (e 1 0) (e 2 2)) (mul (e 1 2) (e 2 0)))))
      (mul (e 0 2) (sub (mul (e 1 0) (e 2 1)) (mul (e 1 1) (e 2 0)))).

(** The column [j] of a matrix of numbers. *)
Definition column (B : list (list num)) (j : nat) : list num :=
  map (fun row => nth j row NaN) B.

End StatementDefs.

(** Inputs of the runs in exact arithmetic. *)

Section ExactInputs.

Import Exact.
Local Open Scope R_scope.

(** a real number as an array element *)
Definition xn (r : R) : @val exact := VNum (Fin r : @num exact).

(** Two corners whose edge families meet at (1, 0) and at (0, 1). *)
Definition orthogonalCorners : Corner * Corner :=
  (mkCorner [xn (-1); xn (-1)] [xn (-3); xn (-2)] [xn (-2); xn (-3)],
   mkCorner [xn 1; xn (-1)] [xn 1; xn (-2)] [xn 2; xn (-3)]).

Definition orthogonalInput : Inputs :=
  mkInputs orthogonalCorners [xn 0; xn 0] (mkAxis Plus LX) (mkAxis Plus LY)
           (Fin 36) (Fin 24) (Fin 10).

(** Two corners whose edge families meet at (-1, 0) and at (1, 0). *)
Definition unitCorners : Corner * Corner :=
  (mkCorner [xn 0; xn 1] [xn (-1); xn 0] [xn (-1); xn 2],
   mkCorner [xn 0; xn (-1)] [xn (-1); xn 0] [xn (-1); xn (-2)]).

Definition unitInput : Inputs :=
  mkInputs unitCorners [xn 0; xn 0] (mkAxis Plus LX) (mkAxis Plus LY)
           (Fin 36) (Fin 24) (Fin 10).



(** Two corners whose first edge family is a vertical and a horizontal
    edge, on the lines x = 0 and y = 1, which meet at (0, 1); the second
    family meets at (2, 0). *)
Definition crossCorners : Corner * Corner :=
  (mkCorner [xn 0; xn 0] [xn 0; xn (-1)] [xn (-2); xn 0],
   mkCorner [xn 1; xn 1] [xn 0; xn 1] [xn 0; xn 2]).

(** a number that is not a real: NaN or an infinity *)
Definition nonFinite (x : xreal) : Prop :=
  match x with
  | Fin _ => False
  | _ => True
  end.

(** the real [o], or an infinity *)
Definition anchorOrInfinite (o : R) (x : xreal) : Prop :=
  x = Fin o \/ x = PInf \/ x = NInf.

End ExactInputs.

(** Reals and vectors of reals, for the statements on the [Vector]
    methods, the picking functions and the viewport. *)

Section ExactVectors.

Import Exact.
Local Open Scope R_scope.

(** an array element that is a real, or NaN for [None] *)
Definition xo (o : option R) : @val exact :=
  match o with
  | Some r => xn r
  | None => VNum (XNaN : @num exact)
  end.

(** the real an optional real counts as in a sum: 0 for [None] *)
Definition orZero (o : option R) : R :=
  match o with
  | Some r => r
  | None => 0
  end.

(** the real of a finite number *)
Definition realOf (x : xreal) : R :=
  match x with
  | Fin r => r
  | _ => 0
  end.

(** the sum of the squares of the components *)
Definition sumSquares (v : list R) : R :=
  fold_right (fun x acc => x * x + acc) 0 v.

(** the scalar product of two triples *)
Definition dot3 (a0 a1 a2 b0 b1 b2 : R) : R := a0 * b0 + a1 * b1 + a2 * b2.

(** a view with real sizes, zoom ratio and offset *)
Definition realView (nw nh cw ch z ox oy : R) : View :=
  mkView (Fin nw) (Fin nh) (Fin cw) (Fin ch) (Fin z) [xn ox; xn oy].

End ExactVectors.

(** Tactics for a run in exact arithmetic on real constants. *)

(** Decide one comparison of two real constants met during a run. *)
Ltac xside := repeat split; lra.

Ltac xrefute H :=
  first [ lra
        | field_simplify in H; [lra | xside ..]
        | apply H; lra
        | apply H; field; xside ].

Ltac xcase :=
  match goal with
  | |- context [Req_dec_T ?a ?b] =>
      let H := fresh in
      destruct (Req_dec_T a b) as [H|H];
      [ try (exfalso; xrefute H) | try (exfalso; xrefute H) ]
  | |- context [Rlt_dec ?a ?b] =>
      let H := fresh in
      destruct (Rlt_dec a b) as [H|H];
      [ try (exfalso; xrefute H)
      | try (exfalso; apply H; first [lra | field_simplify; [lra | xside ..]]) ]
  end.

Ltac xeval := cbn; repeat (first [progress unfold Exact.infOfSign | xcase]; cbn).

Ltac xfinish :=
  repeat match goal with
         | |- @eq R _ _ => first [ reflexivity | lra | field; xside | fail 2 ]
         | |- _ => reflexivity
         | |- _ => progress f_equal
         end.

(** The same for comparisons of real expressions with variables; [tac]
    closes the branch that contradicts the hypotheses. *)
Ltac scase tac :=
  match goal with
  | |- context [Req_dec_T ?a ?b] =>
      let H := fresh in
      destruct (Req_dec_T a b) as [H|H];
      [ try (exfalso; tac H) | try (exfalso; tac H) ]
  | |- context [Rlt_dec ?a ?b] =>
      let H := fresh in
      destruct (Rlt_dec a b) as [H|H];
      [ try (exfalso; tac H) | try (exfalso; tac H) ]
  end.

(** The case analysis of a symbolic two-by-two system. *)
Ltac solve_cases tac :=
  unfold inverseObj, xn; cbn;
  repeat (first [progress unfold Exact.infOfSign | scase tac]; cbn);
  try (eexists; eexists; split; [reflexivity | exact I]).

(** Polynomial identities in [s] and [c] under [s ^ 2 = 1 - c ^ 2]: the
    powers of [s] are reduced first. *)
Ltac reduce_sine s c Es :=
  repeat match goal with
         | |- context [(s ^ 2)%R] => rewrite Es
         | |- context [(s ^ 3)%R] =>
             replace (s ^ 3)%R with (s * (1 - c ^ 2))%R by (rewrite <- Es; ring)
         | |- context [(s ^ 4)%R] =>
             replace (s ^ 4)%R with ((1 - c ^ 2) ^ 2)%R by (rewrite <- Es; ring)
         | |- context [(s ^ 5)%R] =>
             replace (s ^ 5)%R with (s * (1 - c ^ 2) ^ 2)%R by (rewrite <- Es; ring)
         | |- context [(s ^ 6)%R] =>
             replace (s ^ 6)%R with ((1 - c ^ 2) ^ 3)%R by (rewrite <- Es; ring)
         end.

(** * Properties *)

(** ** Arrays, rows and loops *)

Section KernelFacts.

Context {N : JSNum}.

(** A loop whose body preserves an invariant and does not throw under it
    ends, in a state that satisfies the invariant. *)
Lemma forM_invariant {A S : Type} (P : S -> Prop) (Q : A -> Prop)
    (body : S -> A -> exn S) (l : list A) (s : S) :
  (forall s a, P s -> Q a -> exists s', body s a = Ret s' /\ P s') ->
  Forall Q l -> P s ->
  exists s', forM body l s = Ret s' /\ P s'.
Proof.
  intros Hb Hl; revert s; induction Hl as [|a l Ha Hl IH]; intros s Hs; simpl.
  - exists s; auto.
  - destruct (Hb s a Hs Ha) as (s1 & E1 & P1); rewrite E1; simpl; auto.
Qed.

Lemma seq_Forall_lt (a k : nat) : Forall (fun i => a <= i < a + k) (seq a k).
Proof.
  apply Forall_forall; intros i Hi; apply in_seq in Hi; lia.
Qed.

Lemma arr_get_set_same (a : array) (i : nat) (v : val) :
  arr_get (arr_set a i v) i = v.
Proof.
  unfold arr_get; revert a; induction i as [|i IH]; intros [|x a]; simpl; auto.
Qed.

Lemma arr_set_set (a : array) (i : nat) (v w : val) :
  arr_set (arr_set a i v) i w = arr_set a i w.
Proof.
  revert a; induction i as [|i IH]; intros [|x a]; simpl; auto; f_equal; auto.
Qed.

Lemma arr_set_get (a : array) (i : nat) :
  i < length a -> arr_set a i (arr_get a i) = a.
Proof.
  unfold arr_get; revert a; induction i as [|i IH]; intros [|x a]; simpl;
    intros H; try lia; auto.
  f_equal; apply IH; lia.
Qed.

Lemma arr_set_length (a : array) (i : nat) (v : val) :
  i < length a -> length (arr_set a i v) = length a.
Proof.
  revert a; induction i as [|i IH]; intros [|x a]; simpl; intros H; try lia; auto.
  f_equal; apply IH; lia.
Qed.

Lemma row_get_Some (M : Matrix) (i : nat) :
  i < length M -> exists r, row_get M i = Ret r /\ nth_error M i = Some r.
Proof.
  intros H; unfold row_get.
  destruct (nth_error M i) as [r|] eqn:E; [eauto|].
  apply nth_error_None in E; lia.
Qed.

Lemma row_set_length (M : Matrix) (i : nat) (r : array) :
  length (row_set M i r) = length M.
Proof.
  revert M; induction i as [|i IH]; intros [|x M]; simpl; auto.
Qed.

Lemma row_set_Forall (P : array -> Prop) (M : Matrix) (i : nat) (r : array) :
  Forall P M -> P r -> Forall P (row_set M i r).
Proof.
  intros HM Hr; revert i; induction HM as [|x M Hx HM IH]; intros [|i]; simpl; auto.
Qed.

End KernelFacts.

(** ** [transformVector] *)

Section TransformVector.

Context {N : JSNum}.

Lemma n_width (M : Matrix) : M <> [] -> n M = Ret (width M).
Proof.
  destruct M as [|r M]; [congruence | reflexivity].
Qed.

Lemma arr_set_middle (a b : array) (x v : val) :
  arr_set (a ++ x :: b) (length a) v = a ++ v :: b.
Proof.
  induction a as [|y a IH]; simpl; [reflexivity | f_equal; exact IH].
Qed.

Lemma arr_get_middle (a b : array) (x : val) :
  arr_get (a ++ x :: b) (length a) = x.
Proof.
  unfold arr_get; induction a as [|y a IH]; simpl; auto.
Qed.

Lemma firstn_snoc {A : Type} (l : list A) (i : nat) (x : A) :
  nth_error l i = Some x -> firstn (S i) l = firstn i l ++ [x].
Proof.
  revert l; induction i as [|i IH]; intros [|y l]; simpl; try discriminate.
  - intros [= ->]; reflexivity.
  - intros H; f_equal; apply IH; exact H.
Qed.

Lemma transformVector_inner (M : Matrix) (vector : array) (i : nat) (row : array) :
  nth_error M i = Some row ->
  forall (l : list nat) (result : array) (acc : num),
    arr_get result i = VNum acc -> i < length result ->
    forM (fun result j =>
            e <- entry M i j ;;
            Ret (arr_set result i
                   (VNum (add (toNum (arr_get result i))
                              (mul (toNum e) (toNum (arr_get vector j)))))))
         l result
    = Ret (arr_set result i
             (VNum (fold_left
                      (fun acc j => add acc (mul (toNum (arr_get row j))
                                                 (toNum (arr_get vector j))))
                      l acc))).
Proof.
  intros Hrow; induction l as [|j l IH]; intros result acc Hacc Hi; cbn [forM fold_left].
  - rewrite <- Hacc, arr_set_get; auto.
  - unfold entry at 1, row_get; rewrite Hrow; cbn [bind].
    rewrite IH with (acc := add acc (mul (toNum (arr_get row j)) (toNum (arr_get vector j)))).
    + rewrite arr_set_set; reflexivity.
    + rewrite arr_get_set_same, Hacc; reflexivity.
    + rewrite arr_set_length; auto.
Qed.

Lemma transformVector_outer (M : Matrix) (vector : array) (k : nat) :
  forall i, i + k = length M ->
  forM (fun result i =>
          w <- n M ;;
          forM (fun result j =>
                  e <- entry M i j ;;
                  Ret (arr_set result i
                         (VNum (add (toNum (arr_get result i))
                                    (mul (toNum e) (toNum (arr_get vector j)))))))
               (seq 0 (Nat.min (length vector) w)) result)
       (seq i k)
       (map (fun row => VNum (dotPrefix row vector (Nat.min (length vector) (width M))))
            (firstn i M) ++ repeat (VNum (lit 0)) k)
  = Ret (map (fun row => VNum (dotPrefix row vector (Nat.min (length vector) (width M)))) M).
Proof.
  induction k as [|k IH]; intros i Hik; simpl.
  - rewrite app_nil_r, firstn_all2 by lia; reflexivity.
  - assert (Hne : M <> []) by (destruct M; simpl in *; [lia | congruence]).
    rewrite (n_width M Hne); cbn [forM bind].
    destruct (nth_error M i) as [row|] eqn:Hrow;
      [| apply nth_error_None in Hrow; lia].
    set (done := map _ (firstn i M)).
    assert (Hlen : length done = i).
    { unfold done; rewrite length_map, length_firstn; lia. }
    rewrite (transformVector_inner M vector i row Hrow) with (acc := lit 0).
    + cbn [bind].
      match goal with
      | |- context [arr_set (done ++ ?x :: ?b) i ?v] =>
          pose proof (arr_set_middle done b x v) as E; rewrite Hlen in E; rewrite E
      end.
      specialize (IH (S i) ltac:(lia)).
      rewrite (firstn_snoc _ _ _ Hrow), map_app in IH; simpl in IH.
      rewrite <- app_assoc in IH; simpl in IH.
      rewrite (n_width M Hne) in IH; cbn [bind] in IH. exact IH.
    + pose proof (arr_get_middle done (repeat (VNum (lit 0)) k) (VNum (lit 0))) as E.
      rewrite Hlen in E; exact E.
    + rewrite length_app; simpl; lia.
Qed.

(** [transformVector] never throws, whatever the shapes: every row gives
    one component, the sum over the indices below the shorter of the
    vector's length and the matrix's width. *)
Lemma transformVector_general (M : Matrix) (vector : array) :
  transformVector M vector
  = Ret (map (fun row => VNum (dotPrefix row vector (Nat.min (length vector) (width M)))) M).
Proof.
  unfold transformVector, m; rewrite repeat_length.
  exact (transformVector_outer M vector (length M) 0 eq_refl).
Qed.

End TransformVector.

(** ** Shapes: [inverse] returns a matrix on every square matrix *)

Section Shapes.

Context {N : JSNum}.

Lemma fold_left_invariant {A S : Type} (P : S -> Prop) (Q : A -> Prop)
    (f : S -> A -> S) (l : list A) (s : S) :
  (forall s a, P s -> Q a -> P (f s a)) -> Forall Q l -> P s -> P (fold_left f l s).
Proof.
  intros Hf Hl; revert s; induction Hl as [|a l Ha Hl IH]; intros s Hs; simpl; auto.
Qed.

Lemma nth_error_Forall {A : Type} (P : A -> Prop) (l : list A) (i : nat) (x : A) :
  Forall P l -> nth_error l i = Some x -> P x.
Proof.
  intros H E; apply nth_error_In in E; rewrite Forall_forall in H; auto.
Qed.

Lemma fromSize_shape (width height : nat) (value : num) :
  shape height width (fromSize width height value).
Proof.
  unfold shape, fromSize; split; [apply repeat_length|].
  apply Forall_forall; intros r Hr; apply repeat_spec in Hr; subst.
  apply repeat_length.
Qed.

Lemma entry_ok (M : Matrix) (i j : nat) :
  i < length M -> exists v, entry M i j = Ret v.
Proof.
  intros H; unfold entry; destruct (row_get_Some M i H) as (r & E & _).
  rewrite E; simpl; eauto.
Qed.

Lemma entry_set_ok (M : Matrix) (i j : nat) (v : val) :
  i < length M ->
  exists M', entry_set M i j v = Ret M' /\ length M' = length M /\
             forall c, j < c -> Forall (fun row => length row = c) M ->
                       Forall (fun row => length row = c) M'.
Proof.
  intros H; unfold entry_set; destruct (row_get_Some M i H) as (r & E & E').
  rewrite E; simpl; eexists; split; [reflexivity|]; split; [apply row_set_length|].
  intros c Hj HM; apply row_set_Forall; auto.
  rewrite arr_set_length; [exact (nth_error_Forall _ _ _ _ HM E')|].
  rewrite (nth_error_Forall _ _ _ _ HM E'); exact Hj.
Qed.

Lemma identity_ok (size : nat) :
  exists I, identity size = Ret I /\ shape size size I.
Proof.
  unfold identity.
  apply forM_invariant with (Q := fun i => 0 <= i < 0 + size).
  - intros M i [HL HF] Hi.
    destruct (entry_set_ok M i i (VNum (lit 1)) ltac:(lia)) as (M' & E & L & F).
    exists M'; split; [exact E|]; split; [lia | apply F; [lia | exact HF]].
  - apply seq_Forall_lt.
  - apply fromSize_shape.
Qed.

Lemma multiplyRow_ok (M : Matrix) (row : nat) (scalar : num) :
  row < length M ->
  exists M', multiplyRow M row scalar = Ret M' /\ length M' = length M /\
             forall c, Forall (fun r => length r = c) M ->
                       Forall (fun r => length r = c) M'.
Proof.
  intros H; unfold multiplyRow; destruct (row_get_Some M row H) as (r & E & E').
  rewrite E; simpl; eexists; split; [reflexivity|]; split; [apply row_set_length|].
  intros c HM; apply row_set_Forall; auto.
  rewrite length_map; exact (nth_error_Forall _ _ _ _ HM E').
Qed.

Lemma multiplyAndAdd_ok (M : Matrix) (from to : nat) (scalar : num) :
  from < length M -> to < length M ->
  exists M', multiplyAndAdd M from to scalar = Ret M' /\ length M' = length M /\
             forall c, Forall (fun r => length r = c) M ->
                       Forall (fun r => length r = c) M'.
Proof.
  intros Hf Ht; unfold multiplyAndAdd.
  destruct (row_get_Some M from Hf) as (rf & Ef & Ef').
  destruct (row_get_Some M to Ht) as (rt & Et & Et').
  rewrite Ef, Et; simpl; eexists; split; [reflexivity|]; split; [apply row_set_length|].
  intros c HM; apply row_set_Forall; auto.
  rewrite length_map, length_combine, length_seq, Nat.min_id.
  exact (nth_error_Forall _ _ _ _ HM Ef').
Qed.

Lemma n_ok (M : Matrix) : 0 < length M -> exists w, n M = Ret w.
Proof.
  destruct M as [|r M]; simpl; [lia | intros _; eexists; reflexivity].
Qed.

Lemma n_Forall (M : Matrix) (w c : nat) :
  n M = Ret w -> Forall (fun r => length r = c) M -> w = c.
Proof.
  destruct M as [|r M]; [discriminate|].
  unfold n; simpl; intros [= <-] H; inversion H; auto.
Qed.

Lemma swap_ok (M : Matrix) (rowIndex1 rowIndex2 : nat) :
  rowIndex1 < length M -> rowIndex2 < length M ->
  exists M', swap M rowIndex1 rowIndex2 = Ret M' /\ length M' = length M /\
             forall c, Forall (fun r => length r = c) M ->
                       Forall (fun r => length r = c) M'.
Proof.
  intros H1 H2; unfold swap.
  destruct (n_ok M ltac:(lia)) as (w & Ew); rewrite Ew; cbn [bind].
  destruct (w =? 0); [exists M; auto|].
  destruct (row_get_Some M rowIndex1 H1) as (r1 & E1 & E1').
  destruct (row_get_Some M rowIndex2 H2) as (r2 & E2 & E2').
  rewrite E1, E2; cbn [bind].
  destruct (rowIndex1 =? rowIndex2).
  - eexists; split; [reflexivity|]; split; [apply row_set_length|].
    intros c HM; apply row_set_Forall; auto.
    pose proof (n_Forall M w c Ew HM); subst w.
    apply fold_left_invariant with (P := fun r : array => length r = c)
                                   (Q := fun i => 0 <= i < 0 + c).
    + intros s a Hs Ha; rewrite !arr_set_length; auto; try lia.
      rewrite arr_set_length; lia.
    + apply seq_Forall_lt.
    + exact (nth_error_Forall _ _ _ _ HM E1').
  - destruct (fold_left _ (seq 0 w) (r1, r2)) as [r1' r2'] eqn:EF.
    eexists; split; [reflexivity|]; split; [rewrite !row_set_length; reflexivity|].
    intros c HM.
    pose proof (n_Forall M w c Ew HM); subst w.
    assert (HP : length r1' = c /\ length r2' = c).
    { change (length (fst (r1', r2')) = c /\ length (snd (r1', r2')) = c).
      rewrite <- EF.
      apply fold_left_invariant
        with (P := fun p : array * array => length (fst p) = c /\ length (snd p) = c)
             (Q := fun i => 0 <= i < 0 + c).
      - intros [a b] i [Ha Hb] Hi; simpl in *.
        rewrite !arr_set_length; auto; lia.
      - apply seq_Forall_lt.
      - simpl; split;
          [exact (nth_error_Forall _ _ _ _ HM E1') | exact (nth_error_Forall _ _ _ _ HM E2')]. }
    destruct HP; apply row_set_Forall; auto; apply row_set_Forall; auto.
Qed.

End Shapes.

Section InverseTotal.

Context {N : JSNum}.

Lemma pivotSearch_ok (k col : nat) (cands : list nat) (st : Matrix * Matrix) :
  col < k -> Forall (fun i => i < k) cands -> inverseInv k st ->
  exists st', pivotSearch cands col st = Ret st' /\ inverseInv k st'.
Proof.
  intros Hcol Hc; revert st; induction Hc as [|i cands Hi Hc IH];
    intros [old new] [HO [HL HF]]; simpl in *.
  - exists (old, new); repeat split; auto.
  - destruct (entry_ok old i i ltac:(lia)) as (d & Ed); rewrite Ed; cbn [bind].
    destruct (negb (valStrictEq d (lit 0))).
    + destruct (swap_ok old i col ltac:(lia) ltac:(lia)) as (old' & E1 & L1 & _).
      destruct (swap_ok new i col ltac:(lia) ltac:(lia)) as (new' & E2 & L2 & F2).
      rewrite E1; cbn [bind]; rewrite E2; cbn [bind].
      exists (old', new'); repeat split; simpl; auto; lia.
    + apply IH; repeat split; auto.
Qed.

Lemma eliminate_ok (k col : nat) (rows : list nat) (st : Matrix * Matrix) :
  col < k -> Forall (fun i => i < k) rows -> inverseInv k st ->
  exists st',
    forM (fun '(old, newMatrix) row =>
            rowValue <- entry old row col ;;
            old <- multiplyAndAdd old col row (neg (toNum rowValue)) ;;
            newMatrix <- multiplyAndAdd newMatrix col row (neg (toNum rowValue)) ;;
            Ret (old, newMatrix))
         rows st = Ret st' /\ inverseInv k st'.
Proof.
  intros Hcol Hr Hst.
  apply forM_invariant with (P := inverseInv k) (Q := fun i => i < k); auto.
  clear st Hst; intros [old new] row [HO [HL HF]] Hrow; simpl in *.
  destruct (entry_ok old row col ltac:(lia)) as (d & Ed); rewrite Ed; cbn [bind].
  destruct (multiplyAndAdd_ok old col row (neg (toNum d)) ltac:(lia) ltac:(lia))
    as (old' & E1 & L1 & _).
  destruct (multiplyAndAdd_ok new col row (neg (toNum d)) ltac:(lia) ltac:(lia))
    as (new' & E2 & L2 & F2).
  rewrite E1; cbn [bind]; rewrite E2; cbn [bind].
  exists (old', new'); repeat split; simpl; auto; lia.
Qed.

Lemma forwardStep_ok (k col : nat) (st : Matrix * Matrix) :
  col < k -> inverseInv k st ->
  exists st', forwardStep k k st col = Ret st' /\ inverseInv k st'.
Proof.
  intros Hcol Hst; unfold forwardStep.
  destruct st as [old new]; pose proof Hst as [HO [HL HF]]; simpl in HO, HL, HF.
  destruct (entry_ok old col col ltac:(lia)) as (d & Ed); rewrite Ed; cbn [bind].
  assert (Hs : exists st', (if valStrictEq d (lit 0)
                            then pivotSearch (seq col (k - col)) col (old, new)
                            else Ret (old, new)) = Ret st' /\ inverseInv k st').
  { destruct (valStrictEq d (lit 0)); [| eauto].
    apply pivotSearch_ok; auto.
    eapply Forall_impl; [| apply seq_Forall_lt]; simpl; intros; lia. }
  destruct Hs as ([old1 new1] & E1 & [HO1 [HL1 HF1]]); simpl in HO1, HL1, HF1.
  rewrite E1; cbn [bind].
  destruct (entry_ok old1 col col ltac:(lia)) as (value & Ev); rewrite Ev; cbn [bind].
  destruct (multiplyRow_ok old1 col (div (lit 1) (toNum value)) ltac:(lia))
    as (old2 & E2 & L2 & _).
  destruct (multiplyRow_ok new1 col (div (lit 1) (toNum value)) ltac:(lia))
    as (new2 & E3 & L3 & F3).
  rewrite E2; cbn [bind]; rewrite E3; cbn [bind].
  apply eliminate_ok; auto.
  - eapply Forall_impl; [| apply seq_Forall_lt]; simpl; intros; lia.
  - repeat split; simpl; auto; lia.
Qed.

Lemma backwardStep_ok (k col : nat) (st : Matrix * Matrix) :
  col < k -> inverseInv k st ->
  exists st', backwardStep st col = Ret st' /\ inverseInv k st'.
Proof.
  intros Hcol Hst; unfold backwardStep; apply eliminate_ok; auto.
  apply Forall_rev.
  eapply Forall_impl; [| apply seq_Forall_lt]; simpl; intros; lia.
Qed.

(** On a matrix with as many rows as its first row has elements,
    [inverse] returns a matrix of that size, whatever the entries. *)
Lemma inverse_ok (M : Matrix) (k : nat) :
  n M = Ret k -> m M = k ->
  exists M', inverse M = Ret (Some M') /\ shape k k M'.
Proof.
  intros Hn Hm; unfold inverse; rewrite Hn; cbn [bind]; rewrite Hm, Nat.eqb_refl.
  cbn [negb].
  destruct (identity_ok k) as (I & EI & HI); rewrite EI; cbn [bind].
  assert (H0 : inverseInv k (copy M, I)).
  { split; simpl; auto. unfold copy; rewrite length_map; exact Hm. }
  destruct (forM_invariant (inverseInv k) (fun i => i < k) (forwardStep k k)
              (seq 0 k) (copy M, I)) as (st1 & E1 & H1); auto.
  { intros s a Hs Ha; apply forwardStep_ok; auto. }
  { eapply Forall_impl; [| apply seq_Forall_lt]; simpl; intros; lia. }
  rewrite E1; cbn [bind].
  destruct (forM_invariant (inverseInv k) (fun i => i < k) backwardStep
              (rev (seq 0 k)) st1) as ([old2 new2] & E2 & H2); auto.
  { intros s a Hs Ha; apply backwardStep_ok; auto. }
  { apply Forall_rev.
    eapply Forall_impl; [| apply seq_Forall_lt]; simpl; intros; lia. }
  rewrite E2; cbn [bind].
  exists new2; split; [reflexivity | apply H2].
Qed.

(** C1 (as amended).  [inverse] returns [null] exactly on a matrix that
    is not square, that is when its first row has a length other than
    the number of rows; on every square matrix, singular or not, it
    returns a matrix. *)
Theorem inverse_null_iff_not_square (M : Matrix) (cols : nat) :
  n M = Ret cols ->
  (inverse M = Ret None <-> cols <> m M) /\
  (cols = m M -> exists M', inverse M = Ret (Some M') /\ shape cols cols M').
Proof.
  intros Hn; split; [split|].
  - intros H E; destruct (inverse_ok M cols Hn (eq_sym E)) as (M' & E' & _).
    congruence.
  - intros H; unfold inverse; rewrite Hn; cbn [bind].
    apply Nat.eqb_neq in H; rewrite H; reflexivity.
  - intros E; apply inverse_ok; auto.
Qed.

(** A matrix without rows has no first row: reading its width throws. *)
Lemma inverse_empty : inverse [] = TypeError.
Proof. reflexivity. Qed.

End InverseTotal.

(** ** Runs in binary64 arithmetic *)

Section Float64Runs.

Import Float64.
Local Open Scope float_scope.

(** C1, counterexample.  The one-by-one zero matrix is singular, and its
    only column has no nonzero entry; [inverse] returns the matrix
    [[Infinity]], not [null]. *)
Lemma inverse_singular_not_null :
  inverse (N := float64) [[VNum 0]] = Ret (Some [[VNum infinity]]) /\
  inverse (N := float64) [[VNum 0]] <> Ret None.
Proof.
  assert (E : inverse (N := float64) [[VNum 0]] = Ret (Some [[VNum infinity]]))
    by (vm_compute; reflexivity).
  split; [exact E | rewrite E; discriminate].
Qed.

(** C9, at the failing input.  A one-by-two matrix times a two-by-one
    matrix: the column of the right factor is read up to the height of
    the left factor only, so the product [a0*b0 + a1*b1] comes out as
    [a0*b0], in every arithmetic; for [[1, 2]] and [[3], [4]] in binary64
    the result is [[3]] and the sum of the two products is 11. *)
Theorem multiplication_row_by_column :
  (forall (N : JSNum) (a0 a1 b0 b1 : @num N),
     multiplication [[VNum a0; VNum a1]] [[VNum b0]; [VNum b1]]
     = Ret [[VNum (add (lit 0) (mul a0 b0))]]) /\
  multiplication (N := float64) [[VNum 1; VNum 2]] [[VNum 3]; [VNum 4]]
  = Ret [[VNum 3]] /\
  sumProducts (N := float64) [1; 2] [3; 4] 2 = 11 /\
  (3 =? 11) = false.
Proof.
  split; [intros; reflexivity|].
  split; [vm_compute; reflexivity|].
  split; vm_compute; reflexivity.
Qed.

(** With a left factor higher than the right factor the same loop reads
    a row that does not exist, and throws. *)
Lemma multiplication_column_by_row :
  multiplication (N := float64) [[VNum 1]; [VNum 2]] [[VNum 3; VNum 4]] = TypeError.
Proof. vm_compute; reflexivity. Qed.

(** C3, counterexample.  For the vanishing points (1, 0) and (1, 0) the
    radicand is -1; the result is NaN, not 0. *)
Lemma getFocalLength_negative_radicand :
  getFocalLength (N := float64) [[VNum 1; VNum 0]; [VNum 1; VNum 0]] 36 = Ret nan /\
  getFocalLength (N := float64) [[VNum 1; VNum 0]; [VNum 1; VNum 0]] 36 <> Ret 0.
Proof.
  assert (E : getFocalLength (N := float64) [[VNum 1; VNum 0]; [VNum 1; VNum 0]] 36
              = Ret nan) by (vm_compute; reflexivity).
  split; [exact E | rewrite E].
  intros H.
  apply (f_equal (fun r => match r with Ret x => is_nan x | TypeError => false end)) in H.
  vm_compute in H; discriminate.
Qed.

End Float64Runs.

(** ** Exact arithmetic: rotations, focal length, Euler candidates *)

Section ExactFacts.

Import Exact.
Local Open Scope R_scope.

Lemma sin_cos_square (t : R) : sin t * sin t + cos t * cos t = 1.
Proof. pose proof (sin2_cos2 t) as H; unfold Rsqr in H; exact H. Qed.

(** C8 (as amended).  For an axis index 0, 1 or 2 and a real angle, the
    matrix of [rotation3D] is orthonormal in exact arithmetic: its
    products with its transpose, on either side, are the identity, and
    its determinant is 1. *)
Theorem rotation3D_orthonormal (axis : nat) (theta : R) :
  (axis < 3)%nat ->
  exists M Mt : Matrix,
    rotation3D (N := exact) axis (Fin theta) = Ret M /\
    transpose M = Ret Mt /\
    multiplication M Mt = identity 3 /\
    multiplication Mt M = identity 3 /\
    det3 M = Fin 1.
Proof.
  intros H; pose proof (sin_cos_square theta) as E.
  destruct axis as [|[|[|axis]]]; [| | | lia];
    (eexists; eexists; split; [reflexivity|]; split; [reflexivity|]);
    cbn; repeat split; repeat f_equal; nra.
Qed.

(** At the angle pi / 3, whose sine is not zero. *)
Lemma rotation3D_orthonormal_witness :
  0 < sin (PI / 3) /\
  exists M Mt : Matrix,
    rotation3D (N := exact) 1 (Fin (PI / 3)) = Ret M /\
    transpose M = Ret Mt /\
    multiplication M Mt = identity 3 /\
    multiplication Mt M = identity 3 /\
    det3 M = Fin 1.
Proof.
  split.
  - apply sin_gt_0; pose proof PI_RGT_0; lra.
  - apply (rotation3D_orthonormal 1 (PI / 3)); lia.
Defined.

(** In exact arithmetic [getFocalLength] gives NaN for a negative
    radicand and the value of the clamped formula otherwise. *)
Lemma getFocalLength_exact (x0 y0 x1 y1 s : R) :
  getFocalLength (N := exact)
    [[VNum (Fin x0); VNum (Fin y0)]; [VNum (Fin x1); VNum (Fin y1)]] (Fin s)
  = Ret (if Rlt_dec (- (x0 * x1 + y0 * y1)) 0 then XNaN
         else Fin (R_sqrt.sqrt (Rmax 0 (- (x0 * x1 + y0 * y1))) / 2 * s)).
Proof.
  cbn.
  replace (- x0 * x1 + - (y0 * y1)) with (- (x0 * x1 + y0 * y1)) by ring.
  destruct (Rlt_dec (- (x0 * x1 + y0 * y1)) 0) as [Hneg|Hpos]; cbn.
  - reflexivity.
  - destruct (Req_dec_T 2 0) as [F|_]; [lra|].
    rewrite Rmax_right by lra; reflexivity.
Qed.

(** The first beta candidate is minus the sine of the entry, and the
    second is pi minus the first. *)
Lemma eulerBetas_sine (M : Matrix) (x : R) :
  entry (N := exact) M 2 0 = Ret (VNum (Fin x)) ->
  eulerBetas M = Ret [Fin (- sin x); Fin (PI + - - sin x)].
Proof.
  intros H; unfold eulerBetas; rewrite H; reflexivity.
Qed.

(** C4, at the failing input.  For the quarter turn about the y axis,
    whose entry [M[2][0]] is 1, the first candidate is [-sin 1], which is
    not [-asin 1]. *)
Theorem eulerBetas_quarter_turn :
  eulerBetas (N := exact)
    [ [VNum (Fin 0); VNum (Fin 0); VNum (Fin (-1))];
      [VNum (Fin 0); VNum (Fin 1); VNum (Fin 0)];
      [VNum (Fin 1); VNum (Fin 0); VNum (Fin 0)] ]
  = Ret [Fin (- sin 1); Fin (PI + - - sin 1)]
  /\ - sin 1 <> - asin 1.
Proof.
  split; [apply eulerBetas_sine; reflexivity|].
  rewrite asin_1; pose proof (SIN_bound 1); pose proof PI2_1; lra.
Qed.

End ExactFacts.

(** ** [rotation3D] in binary64 *)

Section Float64Rotation.

Import Float64.
Local Open Scope float_scope.

(** C8, counterexample.  In binary64 the sine and the cosine of 3 are
    rounded: [Math.sin(3)] is 0.1411200080598672 and [Math.cos(3)] is
    -0.9899924966004454, the doubles nearest to the two reals.  Primitive
    floats have no trigonometric functions, so the statement is about
    every binary64 trigonometry with these two values (there is one).
    The sum [c * c + s * s] is then 0.9999999999999999: for each axis
    the products of the matrix of [rotation3D] with its transpose are
    not the identity, and its determinant is not 1. *)
Lemma rotation3D_binary64_rounding :
  (exists T : JSMath float64,
     Math_sin 3 = 0.1411200080598672 /\ Math_cos 3 = -0.9899924966004454) /\
  (forall T : JSMath float64,
     Math_sin 3 = 0.1411200080598672 -> Math_cos 3 = -0.9899924966004454 ->
     forall axis : nat, (axis < 3)%nat ->
       exists M Mt : Matrix,
         rotation3D axis 3 = Ret M /\
         transpose M = Ret Mt /\
         multiplication M Mt <> identity 3 /\
         multiplication Mt M <> identity 3 /\
         det3 M = 0.9999999999999999 /\
         (0.9999999999999999 =? 1) = false).
Proof.
  split.
  - exists {| Math_sin := fun _ => (0.1411200080598672 : @num float64);
              Math_cos := fun _ => (-0.9899924966004454 : @num float64);
              Math_atan := fun _ => (nan : @num float64);
              Math_atan2 := fun _ _ => (nan : @num float64);
              Math_PI := (3.141592653589793 : @num float64) |}.
    split; reflexivity.
  - intros T Hs Hc axis Hax.
    assert (D : forall r : exn Matrix,
              r = identity 3 ->
              match r with
              | Ret [[VNum a; _; _]; [_; VNum b; _]; [_; _; VNum c]] =>
                  (a =? 1) && (b =? 1) && (c =? 1)
              | _ => false
              end = true) by (intros r ->; vm_compute; reflexivity).
    destruct axis as [|[|[|axis]]]; [| | | lia];
      unfold rotation3D; cbv zeta; rewrite Hs, Hc;
      (eexists; eexists; split; [vm_compute; reflexivity|];
       split; [vm_compute; reflexivity|]);
      (split; [intros H; apply D in H; vm_compute in H; discriminate|]);
      (split; [intros H; apply D in H; vm_compute in H; discriminate|]);
      split; vm_compute; reflexivity.
Qed.

End Float64Rotation.

(** ** The pose branch never throws *)

Section PoseTotal.

Context {N : JSNum} {T : JSMath N}.

Lemma shape_n (M : Matrix) (k c : nat) :
  0 < k -> shape k c M -> n M = Ret c.
Proof.
  intros Hk [HL HF]; destruct M as [|r M]; simpl in *; [lia|].
  inversion HF; subst; reflexivity.
Qed.

Lemma forM_snoc_ok {A B : Type} (f : A -> exn B) (P : B -> Prop) (l : list A) :
  (forall a, In a l -> exists b, f a = Ret b /\ P b) ->
  forall s, exists bs,
    forM (fun s a => b <- f a ;; Ret (s ++ [b])) l s = Ret (s ++ bs) /\
    length bs = length l /\ Forall P bs.
Proof.
  induction l as [|a l IH]; intros Hf s; simpl.
  - exists []; rewrite app_nil_r; auto.
  - destruct (Hf a (or_introl eq_refl)) as (b & Eb & Pb); rewrite Eb; cbn [bind].
    destruct (IH (fun a' Ha' => Hf a' (or_intror Ha')) (s ++ [b])) as (bs & E & L & F).
    exists (b :: bs); rewrite E, <- app_assoc; simpl; auto.
Qed.

Lemma transpose_ok (M : Matrix) (w : nat) :
  n M = Ret w ->
  exists Mt, transpose M = Ret Mt /\ shape w (length M) Mt.
Proof.
  intros Hn; unfold transpose; rewrite Hn; cbn [bind].
  destruct (forM_snoc_ok
              (fun y => forM (fun row x => e <- entry M x y ;; Ret (row ++ [e]))
                             (seq 0 (m M)) [])
              (fun row => length row = length M) (seq 0 w)) with (s := @nil array)
    as (rows & E & L & F).
  - intros y _.
    destruct (forM_snoc_ok (fun x => entry M x y) (fun _ => True) (seq 0 (m M)))
      with (s := @nil val) as (row & E & L & _).
    + intros x Hx; apply in_seq in Hx; unfold m in Hx.
      destruct (entry_ok M x y ltac:(lia)) as (v & Ev); eauto.
    + exists row; split; [exact E|]. rewrite length_seq in L; exact L.
  - exists rows; split; [exact E|]. rewrite length_seq in L; split; [exact L | exact F].
Qed.

Lemma transformVector_ok (M : Matrix) (vector : array) :
  exists r, transformVector M vector = Ret r /\ length r = length M.
Proof.
  rewrite transformVector_general; eexists; split; [reflexivity|].
  apply length_map.
Qed.

Lemma multiplication_ok (matrix1 matrix2 : Matrix) (w : nat) :
  n matrix2 = Ret w -> length matrix1 <= length matrix2 ->
  exists C, multiplication matrix1 matrix2 = Ret C /\ shape (length matrix1) w C.
Proof.
  intros Hn Hle; unfold multiplication; rewrite Hn; cbn [bind].
  apply forM_invariant with (Q := fun i => 0 <= i < 0 + w);
    [| apply seq_Forall_lt | apply fromSize_shape].
  intros result i [HL HF] Hi.
  destruct (forM_invariant (fun _ : array => True) (fun j => j < length matrix2)
              (fun vector j => e <- entry matrix2 j i ;; Ret (arr_set vector j e))
              (seq 0 (length matrix1)) (repeat VUndef w)) as (vector & Ev & _); auto.
  { intros s j _ Hj; destruct (entry_ok matrix2 j i Hj) as (e & Ee).
    rewrite Ee; cbn [bind]; eauto. }
  { eapply Forall_impl; [| apply seq_Forall_lt]; simpl; intros; lia. }
  rewrite Ev; cbn [bind].
  destruct (transformVector_ok matrix1 vector) as (vector' & Ev' & _).
  rewrite Ev'; cbn [bind].
  apply forM_invariant with (Q := fun j => 0 <= j < 0 + length matrix1);
    [| apply seq_Forall_lt | split; auto].
  intros res j [HL' HF'] Hj.
  destruct (entry_set_ok res j i (arr_get vector' j) ltac:(lia)) as (res' & E & L & F).
  exists res'; split; [exact E|]. split; [lia | apply F; [lia | exact HF']].
Qed.

Lemma rotation3D_ok (axis : nat) (radians : num) :
  axis < 3 -> exists M, rotation3D axis radians = Ret M /\ shape 3 3 M.
Proof.
  intros H; destruct axis as [|[|[|axis]]]; [| | | lia];
    (eexists; split; [reflexivity|]; split; [reflexivity|]; repeat constructor).
Qed.

Lemma inverseObj_ok (M : Matrix) (k : nat) :
  0 < k -> shape k k M -> exists M', inverseObj M = Ret M' /\ shape k k M'.
Proof.
  intros Hk HM; unfold inverseObj.
  destruct (inverse_ok M k (shape_n M k k Hk HM) (proj1 HM)) as (M' & E & S').
  rewrite E; cbn [bind]; eauto.
Qed.

Lemma shape_entry (M : Matrix) (r c i j : nat) :
  shape r c M -> i < r -> exists v, entry M i j = Ret v.
Proof.
  intros [HL _] Hi; apply entry_ok; lia.
Qed.

Lemma squaredError_ok (combined m : Matrix) :
  length combined <= length m -> exists e, squaredError combined m = Ret e.
Proof.
  intros Hle; unfold squaredError.
  destruct (forM_invariant (fun _ : num => True)
              (fun p : array * nat => snd p < length m)
              (fun error '(row, i) =>
                 forM (fun error '(element, j) =>
                         mij <- entry m i j ;;
                         Ret (add error (Math_sq (sub (toNum element) (toNum mij)))))
                      (combine row (seq 0 (length row))) error)
              (combine combined (seq 0 (length combined))) (lit 0)) as (e & E & _);
    auto; [| | eauto].
  - intros s [row i] _ Hi; simpl in Hi.
    destruct (forM_invariant (fun _ : num => True) (fun _ : val * nat => True)
                (fun error '(element, j) =>
                   mij <- entry m i j ;;
                   Ret (add error (Math_sq (sub (toNum element) (toNum mij)))))
                (combine row (seq 0 (length row))) s) as (e & E & _); auto.
    + intros s' [element j] _ _.
      destruct (entry_ok m i j Hi) as (v & Ev); rewrite Ev; cbn [bind]; eauto.
    + apply Forall_forall; auto.
    + eauto.
  - apply Forall_forall; intros [row i] Hin.
    apply in_combine_r in Hin; apply in_seq in Hin; simpl; lia.
Qed.

End PoseTotal.

Section CalculateTotal.

Context {N : JSNum} {T : JSMath N}.

Lemma vanishingPoint_ok (corners : Corner * Corner) (i : nat) :
  exists vp, vanishingPoint corners i = Ret vp.
Proof.
  unfold vanishingPoint.
  match goal with
  | |- context [inverseObj ?M] =>
      destruct (inverseObj_ok M 2 ltac:(lia)) as (inv & E & _);
      [split; [reflexivity | repeat constructor] | rewrite E]
  end.
  cbn [bind].
  match goal with
  | |- context [transformVector ?M ?v] =>
      destruct (transformVector_ok M v) as (c & Ec & _); rewrite Ec
  end.
  cbn [bind]; eauto.
Qed.

(** [getVanishingPoints] always returns two points. *)
Lemma getVanishingPoints_ok (corners : Corner * Corner) :
  exists vp0 vp1,
    vanishingPoint corners 0 = Ret vp0 /\ vanishingPoint corners 1 = Ret vp1 /\
    getVanishingPoints corners = Ret [vp0; vp1].
Proof.
  destruct (vanishingPoint_ok corners 0) as (vp0 & E0).
  destruct (vanishingPoint_ok corners 1) as (vp1 & E1).
  exists vp0, vp1; repeat split; auto.
  unfold getVanishingPoints; cbn [seq forM]; rewrite E0; cbn [bind]; rewrite E1.
  reflexivity.
Qed.

Lemma getFocalLength_ok (vp0 vp1 : array) (sl : num) :
  exists f, getFocalLength [vp0; vp1] sl = Ret f.
Proof.
  eexists; reflexivity.
Qed.

Lemma getWorldTransform_ok (a1 a2 : AxisLabel) (f sl : num) (vp0 vp1 : array) :
  letterDiffers a1 a2 = true ->
  exists wt, getWorldTransform a1 a2 f sl [vp0; vp1] = Ret wt /\ shape 3 3 wt.
Proof.
  destruct a1 as [s1 [| |]], a2 as [s2 [| |]]; cbn; intros H; try discriminate;
    (eexists; split; [reflexivity|]; split; [reflexivity | repeat constructor]).
Qed.

Lemma getLocation_ok (origin : array) (distance f sl : num) (wt : Matrix) :
  shape 3 3 wt -> exists loc, getLocation origin distance f sl wt = Ret loc.
Proof.
  intros Hwt; unfold getLocation, projectPointLocalInverse, normalize.
  cbn [map reduceSum bind].
  destruct (inverseObj_ok wt 3 ltac:(lia) Hwt) as (inv & E & _); rewrite E; cbn [bind].
  match goal with
  | |- context [transformVector ?M ?v] =>
      destruct (transformVector_ok M v) as (c & Ec & _); rewrite Ec
  end.
  cbn [bind]; eauto.
Qed.

Lemma multiplication_3x3 (A B : Matrix) :
  shape 3 3 A -> shape 3 3 B -> exists C, multiplication A B = Ret C /\ shape 3 3 C.
Proof.
  intros HA HB.
  destruct (multiplication_ok A B 3 (shape_n B 3 3 ltac:(lia) HB)) as (C & E & HC).
  - rewrite (proj1 HA), (proj1 HB); lia.
  - rewrite (proj1 HA) in HC; eauto.
Qed.

Lemma eulerCandidate_ok (inv gammaMat : Matrix) (gamma beta : num) :
  shape 3 3 inv -> shape 3 3 gammaMat ->
  exists c, eulerCandidate inv gammaMat gamma beta = Ret c.
Proof.
  intros Hinv Hg; unfold eulerCandidate.
  destruct (rotation3D_ok 1 beta ltac:(lia)) as (betaMat & E1 & Hb); rewrite E1; cbn [bind].
  destruct (inverseObj_ok betaMat 3 ltac:(lia) Hb) as (betaInv & E2 & Hbi).
  rewrite E2; cbn [bind].
  destruct (inverseObj_ok gammaMat 3 ltac:(lia) Hg) as (gammaInv & E3 & Hgi).
  rewrite E3; cbn [bind].
  destruct (multiplication_3x3 gammaInv inv Hgi Hinv) as (inner & E4 & Hin).
  rewrite E4; cbn [bind].
  destruct (multiplication_3x3 betaInv inner Hbi Hin) as (mat & E5 & Hmat).
  rewrite E5; cbn [bind].
  destruct (shape_entry mat 3 3 2 1 Hmat ltac:(lia)) as (mat21 & E6); rewrite E6; cbn [bind].
  destruct (shape_entry mat 3 3 1 1 Hmat ltac:(lia)) as (mat11 & E7); rewrite E7; cbn [bind].
  destruct (rotation3D_ok 0 (Math_atan2 (toNum mat21) (toNum mat11)) ltac:(lia))
    as (alphaMat & E8 & Ha); rewrite E8; cbn [bind].
  destruct (multiplication_3x3 betaMat alphaMat Hb Ha) as (ba & E9 & Hba).
  rewrite E9; cbn [bind].
  destruct (multiplication_3x3 gammaMat ba Hg Hba) as (combined & E10 & Hc).
  rewrite E10; cbn [bind].
  destruct (squaredError_ok combined inv) as (e & E11);
    [rewrite (proj1 Hc), (proj1 Hinv); lia|].
  rewrite E11; cbn [bind]; eauto.
Qed.

Lemma getEulerRotation_ok (wt : Matrix) :
  shape 3 3 wt -> exists eul, getEulerRotation wt = Ret eul.
Proof.
  intros Hwt; unfold getEulerRotation.
  destruct (inverseObj_ok wt 3 ltac:(lia) Hwt) as (inv & E & Hinv); rewrite E; cbn [bind].
  unfold eulerGammas, eulerBetas.
  destruct (shape_entry inv 3 3 1 0 Hinv ltac:(lia)) as (m10 & E1); rewrite E1; cbn [bind].
  destruct (shape_entry inv 3 3 0 0 Hinv ltac:(lia)) as (m00 & E2); rewrite E2; cbn [bind].
  destruct (shape_entry inv 3 3 2 0 Hinv ltac:(lia)) as (m20 & E3); rewrite E3; cbn [bind].
  cbn [forM].
  repeat
    match goal with
    | |- context [rotation3D 2 ?g] =>
        let gm := fresh "gammaMat" in
        let Eg := fresh "Eg" in
        let Hg := fresh "Hg" in
        destruct (rotation3D_ok 2 g ltac:(lia)) as (gm & Eg & Hg);
        rewrite Eg; cbn [bind]
    | |- context [eulerCandidate inv ?gm ?g ?b] =>
        let c := fresh "c" in
        let Ec := fresh "Ec" in
        match goal with
        | Hg : shape 3 3 gm |- _ =>
            destruct (eulerCandidate_ok inv gm g b Hinv Hg) as (c & Ec);
            rewrite Ec; cbn [bind]
        end
    end.
  cbn; eauto.
Qed.

(** What a run of [calculate] does: the two vanishing points, the sensor
    length, the focal length and the field of view are always stored;
    when the test passes, the panel is shown and the three pose fields
    are computed; otherwise the panel stays hidden and the pose fields of
    the bag are left as they were. *)
Lemma calculate_run (inp : Inputs) (calcResults : CalcResults) :
  exists vps f,
    getVanishingPoints (corners inp) = Ret vps /\
    getFocalLength vps (Math_max (sensorWidth inp) (sensorHeight inp)) = Ret f /\
    let sl := Math_max (sensorWidth inp) (sensorHeight inp) in
    if poseGate f (axis1 inp) (axis2 inp) then
      exists wt loc eul,
        calculate inp calcResults
        = Ret (mkCalcResults (Some vps) (Some sl) (Some f) (Some (fovDegrees sl f))
                             (Some wt) (Some loc) (Some eul), false)
    else
      calculate inp calcResults
      = Ret (mkCalcResults (Some vps) (Some sl) (Some f) (Some (fovDegrees sl f))
                           (worldTransform calcResults) (location calcResults)
                           (eulerRotation calcResults), true).
Proof.
  destruct (getVanishingPoints_ok (corners inp)) as (vp0 & vp1 & _ & _ & Ev).
  destruct (getFocalLength_ok vp0 vp1 (Math_max (sensorWidth inp) (sensorHeight inp)))
    as (f & Ef).
  exists [vp0; vp1], f; split; [exact Ev|]; split; [exact Ef|].
  unfold calculate; rewrite Ev; cbn [bind]; rewrite Ef; cbn [bind].
  cbv zeta.
  destruct (poseGate f (axis1 inp) (axis2 inp)) eqn:G; [| reflexivity].
  unfold poseGate in G; apply andb_prop in G; destruct G as [_ G].
  destruct (getWorldTransform_ok (axis1 inp) (axis2 inp) f
              (Math_max (sensorWidth inp) (sensorHeight inp)) vp0 vp1 G)
    as (wt & Ew & Hwt).
  rewrite Ew; cbn [bind].
  destruct (getLocation_ok (origin inp) (distanceToOrigin inp) f
              (Math_max (sensorWidth inp) (sensorHeight inp)) wt Hwt) as (loc & El).
  rewrite El; cbn [bind].
  destruct (getEulerRotation_ok wt Hwt) as (eul & Ee).
  rewrite Ee; cbn [bind].
  eauto.
Qed.

End CalculateTotal.

(** ** What [calculate] stores and shows *)

Section CalculateFacts.

Context {N : JSNum} {T : JSMath N}.

(** C5 (as amended).  A run of [calculate] shows the results panel and
    stores the three pose fields exactly when the focal length is truthy
    (neither NaN nor zero) and the two axis letters differ; otherwise the
    panel stays hidden and the pose fields of the bag are not assigned. *)
Theorem calculate_pose_iff_gate (inp : Inputs) (calcResults : CalcResults) :
  exists st' hidden f,
    calculate inp calcResults = Ret (st', hidden) /\
    focalLength st' = Some f /\
    hidden = negb (truthy f && letterDiffers (axis1 inp) (axis2 inp)) /\
    if truthy f && letterDiffers (axis1 inp) (axis2 inp) then
      exists wt loc eul,
        worldTransform st' = Some wt /\ location st' = Some loc /\
        eulerRotation st' = Some eul
    else
      worldTransform st' = worldTransform calcResults /\
      location st' = location calcResults /\
      eulerRotation st' = eulerRotation calcResults.
Proof.
  destruct (calculate_run inp calcResults) as (vps & f & _ & _ & H).
  cbv zeta in H; unfold poseGate in H.
  destruct (truthy f && letterDiffers (axis1 inp) (axis2 inp)) eqn:G.
  - destruct H as (wt & loc & eul & H).
    match type of H with _ = Ret (?r, _) => exists r, false, f end.
    rewrite G; simpl; split; [exact H|]; split; [reflexivity|]; split; [reflexivity|].
    exists wt, loc, eul; auto.
  - match type of H with _ = Ret (?r, _) => exists r, true, f end.
    rewrite G; simpl; split; [exact H|]; auto.
Qed.


End CalculateFacts.

(** ** Runs in exact arithmetic *)

Section ExactRuns.

Import Exact.
Local Open Scope R_scope.

Lemma orthogonal_vanishingPoints :
  getVanishingPoints orthogonalCorners = Ret [[xn 1; xn 0]; [xn 0; xn 1]].
Proof.
  unfold getVanishingPoints, vanishingPoint, inverseObj, orthogonalCorners, xn.
  xeval. xfinish.
Qed.

Lemma orthogonal_focalLength :
  getFocalLength [[xn 1; xn 0]; [xn 0; xn 1]] (Math_max (Fin 36) (Fin 24)) = Ret (Fin 0).
Proof.
  unfold getFocalLength, xn. xeval.
  replace (-(1) * 0 + - (0 * 1)) with 0 by lra.
  rewrite sqrt_0. xfinish.
Qed.

(** C5, counterexample.  The two families meet at (1, 0) and (0, 1), so
    the radicand is 0 and the focal length is the real number 0; the axes
    are x and y.  The panel stays hidden and no pose field is stored. *)
Lemma calculate_zero_focalLength :
  exists st',
    calculate orthogonalInput emptyResults = Ret (st', true) /\
    focalLength st' = Some (Fin 0) /\
    letterDiffers (axis1 orthogonalInput) (axis2 orthogonalInput) = true /\
    worldTransform st' = None /\ location st' = None /\ eulerRotation st' = None.
Proof.
  destruct (calculate_run orthogonalInput emptyResults) as (vps & f & Ev & Ef & H).
  cbv zeta in H; simpl corners in Ev; simpl sensorWidth in *; simpl sensorHeight in *.
  rewrite orthogonal_vanishingPoints in Ev; injection Ev as <-.
  rewrite orthogonal_focalLength in Ef; injection Ef as <-.
  assert (G : poseGate (Fin 0) (axis1 orthogonalInput) (axis2 orthogonalInput) = false).
  { unfold poseGate, truthy; cbn. destruct (Req_dec_T 0 0); [reflexivity | lra]. }
  rewrite G in H.
  eexists; split; [exact H|]; simpl; auto.
Qed.

Lemma unit_vanishingPoints :
  getVanishingPoints unitCorners = Ret [[xn (-1); xn 0]; [xn 1; xn 0]].
Proof.
  unfold getVanishingPoints, vanishingPoint, inverseObj, unitCorners, xn.
  xeval. xfinish.
Qed.

Lemma Rmax_36_24 : Rmax 36 24 = 36.
Proof. apply Rmax_left; lra. Qed.

Lemma unit_focalLength :
  getFocalLength [[xn (-1); xn 0]; [xn 1; xn 0]] (Math_max (Fin 36) (Fin 24))
  = Ret (Fin 18).
Proof.
  unfold getFocalLength, xn. xeval.
  replace (- -1 * 1 + - (0 * 0)) with 1 by lra.
  rewrite sqrt_1, Rmax_36_24. xfinish.
Qed.

Lemma fovDegrees_exact (s f : R) :
  0 < f ->
  fovDegrees (Fin s) (Fin f) = Fin (2 * atan (s / (2 * f)) / PI * 180).
Proof.
  intros Hf; pose proof PI_RGT_0 as HPI.
  unfold fovDegrees; cbn.
  destruct (Req_dec_T 2 0) as [F|_]; [lra|]; cbn.
  destruct (Req_dec_T f 0) as [F|_]; [lra|]; cbn.
  destruct (Req_dec_T PI 0) as [F|_]; [lra|]; cbn.
  do 5 f_equal; field; lra.
Qed.

(** The run on [unitInput]: focal length 18 for a sensor length 36, and a
    field of view of 90. *)
Lemma unit_run :
  exists st' hidden,
    calculate unitInput emptyResults = Ret (st', hidden) /\
    sensorLength st' = Some (Fin 36) /\
    focalLength st' = Some (Fin 18) /\
    fov st' = Some (Fin 90).
Proof.
  destruct (calculate_run unitInput emptyResults) as (vps & f & Ev & Ef & H).
  cbv zeta in H; simpl corners in Ev; simpl sensorWidth in *; simpl sensorHeight in *.
  rewrite unit_vanishingPoints in Ev; injection Ev as <-.
  rewrite unit_focalLength in Ef; injection Ef as <-.
  assert (F : fovDegrees (Math_max (Fin 36) (Fin 24)) (Fin 18) = Fin 90).
  { cbn [Math_max exact xmax]; rewrite Rmax_36_24, fovDegrees_exact by lra.
    replace (36 / (2 * 18)) with 1 by lra.
    rewrite atan_1; f_equal; pose proof PI_RGT_0; field; lra. }
  assert (S : Math_max (Fin 36) (Fin 24) = Fin 36).
  { cbn [Math_max exact xmax]; rewrite Rmax_36_24; reflexivity. }
  rewrite F, S in H.
  match type of H with if ?g then _ else _ => destruct g end.
  - destruct H as (wt & loc & eul & H); eexists; eexists; split; [exact H|]; simpl; auto.
  - eexists; eexists; split; [exact H|]; simpl; auto.
Qed.

(** C7 (as amended).  For a real positive focal length [f] and a real
    sensor length [s], the field of view stored by [calculate] is
    [2 atan (s / (2 f))] converted to degrees. *)
Theorem fov_in_degrees (inp : Inputs) (calcResults st' : CalcResults)
    (hidden : bool) (s f : R) :
  calculate inp calcResults = Ret (st', hidden) ->
  sensorLength st' = Some (Fin s) ->
  focalLength st' = Some (Fin f) ->
  0 < f ->
  fov st' = Some (Fin (2 * atan (s / (2 * f)) / PI * 180)).
Proof.
  intros Hc Hs Hf Hpos.
  destruct (calculate_run inp calcResults) as (vps & f' & _ & _ & H).
  cbv zeta in H.
  assert (E : sensorLength st' = Some (Math_max (sensorWidth inp) (sensorHeight inp)) /\
              focalLength st' = Some f' /\
              fov st' = Some (fovDegrees (Math_max (sensorWidth inp) (sensorHeight inp)) f')).
  { destruct (poseGate f' (axis1 inp) (axis2 inp)).
    - destruct H as (wt & loc & eul & H); rewrite H in Hc; injection Hc as <- _; auto.
    - rewrite H in Hc; injection Hc as <- _; auto. }
  destruct E as (E1 & E2 & E3).
  rewrite E1 in Hs; injection Hs as Hs.
  rewrite E2 in Hf; injection Hf as Hf.
  rewrite E3; f_equal; cbn [Math_max exact]; rewrite Hs, Hf.
  apply fovDegrees_exact; exact Hpos.
Qed.

Lemma fov_in_degrees_witness :
  exists st' hidden,
    calculate unitInput emptyResults = Ret (st', hidden) /\
    fov st' = Some (Fin (2 * atan (36 / (2 * 18)) / PI * 180)).
Proof.
  destruct unit_run as (st' & hidden & Hc & Hs & Hf & _).
  exists st', hidden; split; [exact Hc|].
  apply (fov_in_degrees unitInput emptyResults st' hidden 36 18 Hc Hs Hf); lra.
Defined.

(** C7, counterexample.  With focal length 18 and sensor length 36 the
    stored field of view is 90 (degrees), not [2 atan (36 / (2 * 18))],
    which is pi / 2. *)
Lemma fov_not_in_radians :
  exists st' hidden,
    calculate unitInput emptyResults = Ret (st', hidden) /\
    sensorLength st' = Some (Fin 36) /\
    focalLength st' = Some (Fin 18) /\
    fov st' = Some (Fin 90) /\
    Fin 90 <> Fin (2 * atan (36 / (2 * 18))).
Proof.
  destruct unit_run as (st' & hidden & Hc & Hs & Hf & Hv).
  exists st', hidden; repeat (split; [assumption|]).
  replace (36 / (2 * 18)) with 1 by lra; rewrite atan_1.
  intros [= E]; pose proof PI_4; lra.
Qed.





(** C2, at the failing input.  The directions of the first family of
    [crossCorners] are (0, 1) and (1, 0): they are not parallel, and the
    two lines meet at (0, 1).  Both diagonal entries of the system matrix
    are zero, the pivot search finds no row, and the solver returns the
    first anchor (0, 0), which is not on the second line. *)
Theorem vanishingPoint_zero_diagonal :
  subtraction (uvCenter (fst crossCorners)) (pointFromIndex (fst crossCorners) 0)
  = [xn 0; xn 1]
  /\ subtraction (uvCenter (snd crossCorners)) (pointFromIndex (snd crossCorners) 0)
     = [xn 1; xn 0]
  /\ getVanishingPoints crossCorners = Ret [[xn 0; xn 0]; [xn 2; xn 0]]
  /\ (forall s : R, (1 + s * 1, 1 + s * 0) <> (0, 0)).
Proof.
  unfold getVanishingPoints, vanishingPoint, inverseObj, crossCorners, xn.
  repeat split.
  - cbn; xfinish.
  - cbn; xfinish.
  - xeval. xfinish.
  - intros s [= _ E]; lra.
Qed.

End ExactRuns.

(** ** [transformVector] on a rectangular matrix of numbers *)

Section TransformVectorSum.

Context {N : JSNum}.

Lemma toNum_arr_get_map (l : list num) (j : nat) :
  toNum (arr_get (map VNum l) j) = nth j l NaN.
Proof.
  unfold arr_get; revert j; induction l as [|x l IH]; intros [|j]; simpl; auto.
Qed.

Lemma dotPrefix_numbers (row vector : list num) (k : nat) :
  dotPrefix (map VNum row) (map VNum vector) k = sumProducts row vector k.
Proof.
  unfold dotPrefix, sumProducts.
  generalize (lit 0); induction (seq 0 k) as [|j l IH]; intros acc; simpl; auto.
  rewrite !toNum_arr_get_map; apply IH.
Qed.

(** C10.  For a matrix of numbers with [m] rows of length [n] and a
    vector of numbers of any length, [transformVector] does not throw
    and returns [m] components, the [i]-th being the sum over
    [j < min (length vector) n] of [M[i][j] * vector[j]]. *)
Theorem transformVector_sum (M : list (list num)) (vector : list num) (n : nat) :
  Forall (fun row => length row = n) M ->
  exists r,
    transformVector (map (map VNum) M) (map VNum vector) = Ret r /\
    length r = length M /\
    forall i row, nth_error M i = Some row ->
      nth_error r i = Some (VNum (sumProducts row vector (Nat.min (length vector) n))).
Proof.
  intros HM; rewrite transformVector_general.
  eexists; split; [reflexivity|]; split; [rewrite !length_map; reflexivity|].
  intros i row Hi.
  rewrite map_map, nth_error_map, Hi; simpl.
  rewrite dotPrefix_numbers, length_map.
  replace (width (map (map VNum) M)) with n; [reflexivity|].
  destruct M as [|r0 M]; [destruct i; discriminate|].
  inversion HM; subst; unfold width; simpl; rewrite length_map; reflexivity.
Qed.

End TransformVectorSum.

Section Float64Witnesses.

Import Float64.
Local Open Scope float_scope.

Lemma transformVector_sum_witness :
  exists r,
    transformVector (N := float64)
      (map (map VNum) ([[1; 2]; [3; 4]] : list (list (@num float64))))
      (map VNum ([5] : list (@num float64)))
    = Ret r /\
    length r = 2%nat /\
    forall i row,
      nth_error ([[1; 2]; [3; 4]] : list (list (@num float64))) i = Some row ->
      nth_error r i
      = Some (VNum (sumProducts (N := float64) row ([5] : list (@num float64))
                                (Nat.min 1 2))).
Proof.
  apply (transformVector_sum (N := float64)
           ([[1; 2]; [3; 4]] : list (list (@num float64)))
           ([5] : list (@num float64)) 2).
  repeat constructor.
Defined.

Lemma inverse_null_iff_not_square_witness :
  (inverse (N := float64) [[VNum 1; VNum 2]] = Ret None <-> 2%nat <> 1%nat) /\
  (2%nat = 1%nat ->
   exists M', inverse (N := float64) [[VNum 1; VNum 2]] = Ret (Some M') /\ shape 2 2 M').
Proof.
  apply (inverse_null_iff_not_square (N := float64)
           [[VNum (N := float64) 1; VNum (N := float64) 2]] 2%nat).
  reflexivity.
Defined.

(** The same input in binary64 arithmetic: the first vanishing point
    comes out as the first anchor (0, 0), the second is the intersection
    (2, 0). *)
Lemma vanishingPoint_zero_diagonal_binary64 :
  getVanishingPoints (N := float64)
    (mkCorner [VNum 0; VNum 0] [VNum 0; VNum (-1)] [VNum (-2); VNum 0],
     mkCorner [VNum 1; VNum 1] [VNum 0; VNum 1] [VNum 0; VNum 2])
  = Ret [[VNum 0; VNum 0]; [VNum 2; VNum 0]].
Proof. vm_compute; reflexivity. Qed.

End Float64Witnesses.

(** ** The two-by-two system of the vanishing-point solver, exactly *)

Section ExactSolver.

Import Exact.
Local Open Scope R_scope.

Lemma bind_assoc {A B C : Type} (c : exn A) (f : A -> exn B) (g : B -> exn C) :
  bind (bind c f) g = bind c (fun a => bind (f a) g).
Proof. destruct c; reflexivity. Qed.

(** [m.inverse.transformVector(v)] solves the system when the first
    pivot is not zero ... *)
Lemma solve_regular (a b c d v0 v1 : R) :
  a <> 0 -> a * d - b * c <> 0 ->
  exists t s,
    (inv <- inverseObj [[xn a; xn b]; [xn c; xn d]] ;;
     transformVector inv [xn v0; xn v1]) = Ret [xn t; xn s] /\
    a * t + b * s = v0 /\ c * t + d * s = v1.
Proof.
  intros Ha Hdet.
  assert (Hp : b * (1 / a) * - c + d <> 0).
  { intros E; apply Hdet.
    replace (a * d - b * c) with ((b * (1 / a) * - c + d) * a) by (field; exact Ha).
    rewrite E; ring. }
  unfold inverseObj, xn; cbn.
  repeat (scase ltac:(fun H => first [ contradiction | lra ]); cbn).
  eexists; eexists; split; [reflexivity|];
    split; field; (split; [exact Ha | intros E; apply Hdet; lra]).
Qed.

(** ... and when it is zero while the other diagonal entry is not: the
    pivot search swaps the two rows. *)
Lemma solve_swapped (b c d v0 v1 : R) :
  d <> 0 -> b <> 0 -> c <> 0 ->
  exists t s,
    (inv <- inverseObj [[xn 0; xn b]; [xn c; xn d]] ;;
     transformVector inv [xn v0; xn v1]) = Ret [xn t; xn s] /\
    0 * t + b * s = v0 /\ c * t + d * s = v1.
Proof.
  intros Hd Hb Hc.
  unfold inverseObj, xn; cbn.
  repeat (scase ltac:(fun H => first [ contradiction | lra | nra ]); cbn).
  eexists; eexists; split; [reflexivity|]; split; field; auto.
Qed.

Lemma solve_nonsingular (a b c d v0 v1 : R) :
  a * d - b * c <> 0 -> a <> 0 \/ d <> 0 ->
  exists t s,
    (inv <- inverseObj [[xn a; xn b]; [xn c; xn d]] ;;
     transformVector inv [xn v0; xn v1]) = Ret [xn t; xn s] /\
    a * t + b * s = v0 /\ c * t + d * s = v1.
Proof.
  intros Hdet Hdiag.
  destruct (Req_dec_T a 0) as [Ea|Ha]; [| apply solve_regular; auto].
  subst a; destruct Hdiag as [F|Hd]; [congruence|].
  apply solve_swapped; auto; intros E; subst; apply Hdet; ring.
Qed.

(** When the two directions of a family are not parallel and the system
    matrix has a nonzero diagonal entry, the point returned for the
    family is on both rays, with the parameters that solve the system. *)
Lemma vanishingPoint_nonsingular (cA cB : Corner) (i : nat)
    (o1x o1y q1x q1y o2x o2y q2x q2y : R) :
  uvCenter cA = [xn o1x; xn o1y] -> pointFromIndex cA i = [xn q1x; xn q1y] ->
  uvCenter cB = [xn o2x; xn o2y] -> pointFromIndex cB i = [xn q2x; xn q2y] ->
  let p1x := o1x - q1x in
  let p1y := o1y - q1y in
  let p2x := o2x - q2x in
  let p2y := o2y - q2y in
  p1x * p2y - p1y * p2x <> 0 ->
  p1x <> 0 \/ p2y <> 0 ->
  exists t s,
    vanishingPoint (cA, cB) i = Ret [xn (o1x + p1x * t); xn (o1y + p1y * t)] /\
    o1x + p1x * t = o2x + p2x * s /\ o1y + p1y * t = o2y + p2y * s /\
    p1x * t + - p2x * s = o2x - o1x /\ p1y * t + - p2y * s = o2y - o1y.
Proof.
  intros HA HPA HB HPB p1x p1y p2x p2y Hdet Hdiag.
  destruct (solve_nonsingular (o1x + - q1x) (- (o2x + - q2x)) (o1y + - q1y)
              (- (o2y + - q2y)) (o2x + - o1x) (o2y + - o1y))
    as (t & s & E & E1 & E2).
  { unfold p1x, p1y, p2x, p2y in Hdet; intros F; apply Hdet; lra. }
  { unfold p1x, p2y in Hdiag; destruct Hdiag as [H|H]; [left | right];
      intros F; apply H; lra. }
  exists t, s; split; [| unfold p1x, p1y, p2x, p2y; repeat split; lra].
  unfold vanishingPoint; cbn [fst snd]; rewrite HA, HPA, HB, HPB.
  rewrite <- bind_assoc.
  match goal with
  | |- bind ?X _ = _ =>
      replace X with (@Ret array [xn t; xn s]) by (symmetry; exact E)
  end.
  unfold xn; cbn; unfold p1x, p1y; xfinish.
Qed.

(** With a singular matrix, or with a zero diagonal, the first component
    of [m.inverse.transformVector(v)] is NaN or an infinity. *)
Lemma solve_zero_diagonal (b c v0 v1 : R) :
  exists r0 r1,
    (inv <- inverseObj [[xn 0; xn b]; [xn c; xn 0]] ;;
     transformVector inv [xn v0; xn v1]) = Ret [VNum r0; VNum r1] /\ nonFinite r0.
Proof.
  solve_cases ltac:(fun H => first [ contradiction | lra ]).
Qed.

Lemma solve_singular_regular_pivot (a b c d v0 v1 : R) :
  a <> 0 -> a * d - b * c = 0 ->
  exists r0 r1,
    (inv <- inverseObj [[xn a; xn b]; [xn c; xn d]] ;;
     transformVector inv [xn v0; xn v1]) = Ret [VNum r0; VNum r1] /\ nonFinite r0.
Proof.
  intros Ha Hdet.
  assert (Hp : b * (1 / a) * - c + d = 0).
  { apply (Rmult_eq_reg_l a); [| exact Ha]. rewrite Rmult_0_r, <- Hdet. field; exact Ha. }
  solve_cases ltac:(fun H => first [ contradiction | lra ]).
Qed.

Lemma solve_singular_swapped (b c d v0 v1 : R) :
  d <> 0 -> b * c = 0 ->
  exists r0 r1,
    (inv <- inverseObj [[xn 0; xn b]; [xn c; xn d]] ;;
     transformVector inv [xn v0; xn v1]) = Ret [VNum r0; VNum r1] /\ nonFinite r0.
Proof.
  intros Hd Hbc.
  destruct (Req_dec_T c 0) as [Ec|Hc].
  - subst c; solve_cases ltac:(fun H => first [ contradiction | lra ]).
  - assert (Eb : b = 0)
      by (destruct (Rmult_integral _ _ Hbc); [assumption | contradiction]).
    subst b; solve_cases ltac:(fun H => first [ contradiction | lra | nra ]).
Qed.

Lemma solve_degenerate (a b c d v0 v1 : R) :
  a * d - b * c = 0 \/ (a = 0 /\ d = 0) ->
  exists r0 r1,
    (inv <- inverseObj [[xn a; xn b]; [xn c; xn d]] ;;
     transformVector inv [xn v0; xn v1]) = Ret [VNum r0; VNum r1] /\ nonFinite r0.
Proof.
  intros H.
  destruct (Req_dec_T a 0) as [Ea|Ha].
  - subst a; destruct (Req_dec_T d 0) as [Ed|Hd].
    + subst d; apply solve_zero_diagonal.
    + apply solve_singular_swapped; [exact Hd|].
      destruct H as [H|[_ H]]; [lra | contradiction].
  - apply solve_singular_regular_pivot; [exact Ha|].
    destruct H as [H|[H _]]; [exact H | contradiction].
Qed.

(** In exact arithmetic, the point returned for a family whose
    directions are parallel (or whose system matrix has a zero
    diagonal): each coordinate is the coordinate of the first anchor, or
    an infinity.  (In binary64 rounding can make it a finite point far
    from the anchor: [parallel_rounded_binary64].) *)
Lemma vanishingPoint_degenerate (cA cB : Corner) (i : nat)
    (o1x o1y q1x q1y o2x o2y q2x q2y : R) :
  uvCenter cA = [xn o1x; xn o1y] -> pointFromIndex cA i = [xn q1x; xn q1y] ->
  uvCenter cB = [xn o2x; xn o2y] -> pointFromIndex cB i = [xn q2x; xn q2y] ->
  let p1x := o1x - q1x in
  let p1y := o1y - q1y in
  let p2x := o2x - q2x in
  let p2y := o2y - q2y in
  p1x * p2y - p1y * p2x = 0 \/ (p1x = 0 /\ p2y = 0) ->
  exists X Y,
    vanishingPoint (cA, cB) i = Ret [VNum X; VNum Y] /\
    anchorOrInfinite o1x X /\ anchorOrInfinite o1y Y.
Proof.
  intros HA HPA HB HPB p1x p1y p2x p2y Hdeg.
  destruct (solve_degenerate (o1x + - q1x) (- (o2x + - q2x)) (o1y + - q1y)
              (- (o2y + - q2y)) (o2x + - o1x) (o2y + - o1y))
    as (r0 & r1 & E & Hr0).
  { unfold p1x, p1y, p2x, p2y in Hdeg; destruct Hdeg as [H|[H1 H2]];
      [left | right; split]; lra. }
  unfold vanishingPoint; cbn [fst snd]; rewrite HA, HPA, HB, HPB.
  rewrite <- bind_assoc.
  match goal with
  | |- context [bind ?X _] =>
      replace X with (@Ret array [VNum r0; VNum r1]) by (symmetry; exact E)
  end.
  unfold anchorOrInfinite, xn.
  destruct r0 as [x| | |]; [destruct Hr0 | | |]; cbn;
    repeat (first [progress unfold infOfSign | scase ltac:(fun H => fail)]; cbn);
    (eexists; eexists; split; [reflexivity|]);
    split; first [ left; f_equal; lra | right; left; reflexivity | right; right; reflexivity ].
Qed.

End ExactSolver.

(** ** The focal length in both arithmetics *)

Section FocalLengthBinary64.

Import Float64.
Local Open Scope float_scope.

Lemma sqrt_negative_nan (r : float) : (r <? 0) = true -> PrimFloat.sqrt r = nan.
Proof.
  intros H; rewrite ltb_spec in H.
  apply Prim2SF_inj; rewrite sqrt_spec.
  destruct (Prim2SF r) as [s|s| |s mm e]; try destruct s; vm_compute in H;
    try discriminate; reflexivity.
Qed.

Lemma nan_div (y : float) : nan / y = nan.
Proof.
  apply Prim2SF_inj; rewrite div_spec.
  destruct (Prim2SF y) as [s|s| |s mm e]; reflexivity.
Qed.

Lemma nan_mul (y : float) : nan * y = nan.
Proof.
  apply Prim2SF_inj; rewrite mul_spec.
  destruct (Prim2SF y) as [s|s| |s mm e]; reflexivity.
Qed.

(** In binary64 arithmetic a negative radicand gives NaN, whatever the
    sensor length. *)
Lemma getFocalLength_negative_binary64 (x0 y0 x1 y1 s : float) :
  (- x0 * x1 - y0 * y1 <? 0) = true ->
  getFocalLength (N := float64) [[VNum x0; VNum y0]; [VNum x1; VNum y1]] s = Ret nan.
Proof.
  intros H; unfold getFocalLength; cbn.
  rewrite (sqrt_negative_nan _ H), nan_div, nan_mul; reflexivity.
Qed.

(** C3 (as amended).  [getFocalLength] takes the square root of the
    radicand [-(x0*x1 + y0*y1)] as it is, without a clamp.  In exact
    arithmetic the result is NaN for a negative radicand and the value of
    the clamped formula otherwise; in binary64 arithmetic it is NaN for
    every negative radicand. *)
Theorem getFocalLength_unclamped :
  (forall x0 y0 x1 y1 s : R,
     getFocalLength (N := Exact.exact)
       [[xn x0; xn y0]; [xn x1; xn y1]] (Exact.Fin s)
     = Ret (if Rlt_dec (- (x0 * x1 + y0 * y1)) 0 then Exact.XNaN
            else Exact.Fin (R_sqrt.sqrt (Rmax 0 (- (x0 * x1 + y0 * y1))) / 2 * s)%R)) /\
  (forall x0 y0 x1 y1 s : float,
     (- x0 * x1 - y0 * y1 <? 0) = true ->
     getFocalLength (N := float64) [[VNum x0; VNum y0]; [VNum x1; VNum y1]] s = Ret nan).
Proof.
  split.
  - intros; apply getFocalLength_exact.
  - intros; apply getFocalLength_negative_binary64; assumption.
Qed.

End FocalLengthBinary64.

(** ** The runs above, in binary64 arithmetic *)

Section Float64Companions.

Import Float64.
Local Open Scope float_scope.

(** The inputs of the runs in exact arithmetic are small integers, and
    binary64 arithmetic gives the same vanishing points and focal
    lengths (the zero focal length with a minus sign). *)
Lemma orthogonal_run_binary64 :
  (vps <- getVanishingPoints (N := float64)
            (mkCorner [VNum (-1); VNum (-1)] [VNum (-3); VNum (-2)] [VNum (-2); VNum (-3)],
             mkCorner [VNum 1; VNum (-1)] [VNum 1; VNum (-2)] [VNum 2; VNum (-3)]) ;;
   f <- getFocalLength vps (Math_max (36 : @num float64) 24) ;;
   Ret (vps, f, truthy f))
  = Ret ([[VNum 1; VNum 0]; [VNum 0; VNum 1]], (-0), false).
Proof. vm_compute; reflexivity. Qed.

Lemma unit_run_binary64 :
  (vps <- getVanishingPoints (N := float64)
            (mkCorner [VNum 0; VNum 1] [VNum (-1); VNum 0] [VNum (-1); VNum 2],
             mkCorner [VNum 0; VNum (-1)] [VNum (-1); VNum 0] [VNum (-1); VNum (-2)]) ;;
   f <- getFocalLength vps (Math_max (36 : @num float64) 24) ;;
   Ret (vps, f, truthy f))
  = Ret ([[VNum (-1); VNum 0]; [VNum 1; VNum 0]], 18, true).
Proof. vm_compute; reflexivity. Qed.

Lemma parallel_run_binary64 :
  (vps <- getVanishingPoints (N := float64)
            (mkCorner [VNum (-1); VNum 1] [VNum (-2); VNum 1] [VNum (-3); VNum 2],
             mkCorner [VNum 0; VNum 2] [VNum (-1); VNum 2] [VNum (-1); VNum 4]) ;;
   f <- getFocalLength vps (Math_max (36 : @num float64) 24) ;;
   Ret (vps, f, truthy f))
  = Ret ([[VNum (-1); VNum 1]; [VNum 1; VNum 0]], 18, true).
Proof. vm_compute; reflexivity. Qed.

(** Exactly parallel directions in binary64: both edges of the first
    family have the direction (49, 1).  The pivot [49 * (1 / 49)] is
    rounded, the second pivot comes out tiny instead of zero, and the
    solver returns a finite point far from the anchor (0, 0), about
    (-4.4e17, -9.0e15); the focal length is NaN. *)
Lemma parallel_rounded_binary64 :
  subtraction (N := float64) [VNum 0; VNum 0] [VNum (-49); VNum (-1)]
  = subtraction [VNum 0; VNum 1] [VNum (-49); VNum 0] /\
  exists x y vp1,
    getVanishingPoints (N := float64)
      (mkCorner [VNum 0; VNum 0] [VNum (-49); VNum (-1)] [VNum (-1); VNum 2],
       mkCorner [VNum 0; VNum 1] [VNum (-49); VNum 0] [VNum 1; VNum 4])
    = Ret [[VNum x; VNum y]; vp1] /\
    is_finite x = true /\ is_finite y = true /\
    (x <? -4e17) = true /\ y = -9007199254740991.
Proof.
  split; [vm_compute; reflexivity|].
  do 3 eexists; split; [vm_compute; reflexivity|].
  repeat split; vm_compute; reflexivity.
Qed.

End Float64Companions.

(** ** [transformVector] in exact arithmetic: truncation and zero padding *)

Section ExactSum.

Import Exact.
Local Open Scope R_scope.

Lemma nth_map_Fin (l : list R) (j : nat) :
  (j < length l)%nat -> nth j (map Fin l) XNaN = Fin (nth j l 0).
Proof.
  revert j; induction l as [|x l IH]; intros [|j] H; simpl in *; try lia; auto.
  apply IH; lia.
Qed.

Lemma fold_products_Fin (rs vs : list R) (l : list nat) (acc : R) :
  (forall j, In j l -> (j < length rs)%nat /\ (j < length vs)%nat) ->
  fold_left (fun acc j => xadd acc (xmul (nth j (map Fin rs) XNaN)
                                         (nth j (map Fin vs) XNaN)))
            l (Fin acc)
  = Fin (fold_left (fun acc j => acc + nth j rs 0 * nth j vs 0) l acc).
Proof.
  revert acc; induction l as [|j l IH]; intros acc H; simpl; [reflexivity|].
  destruct (H j (or_introl eq_refl)) as [Hr Hv].
  rewrite !nth_map_Fin by assumption; simpl.
  apply IH; intros j' Hj'; apply H; right; exact Hj'.
Qed.

Lemma fold_products_zero_tail (rs vs : list R) (l : list nat) (acc : R) :
  (forall j, In j l -> (length vs <= j)%nat) ->
  fold_left (fun acc j => acc + nth j rs 0 * nth j vs 0) l acc = acc.
Proof.
  revert acc; induction l as [|j l IH]; intros acc H; simpl; [reflexivity|].
  rewrite (nth_overflow vs 0) by (apply H; left; reflexivity).
  rewrite IH by (intros j' Hj'; apply H; right; exact Hj'); ring.
Qed.

(** For a row of [n] reals and a vector of reals of any length, the
    component of [transformVector] is the sum over all [j < n] of
    [row[j] * v[j]] where [v[j]] reads as 0 past the end of the vector:
    a short vector is zero-extended and the tail of a long one is
    ignored. *)
Lemma sumProducts_zero_extended (rs vs : list R) :
  sumProducts (N := exact) (map Fin rs) (map Fin vs)
              (Nat.min (length vs) (length rs))
  = Fin (fold_left (fun acc j => acc + nth j rs 0 * nth j vs 0)
                   (seq 0 (length rs)) 0).
Proof.
  unfold sumProducts; cbn [lit exact add mul NaN].
  rewrite fold_products_Fin.
  - f_equal.
    replace (length rs) with
      (Nat.min (length vs) (length rs) + (length rs - Nat.min (length vs) (length rs)))%nat
      at 2 by lia.
    rewrite seq_app, fold_left_app; symmetry; apply fold_products_zero_tail.
    intros j Hj; apply in_seq in Hj; lia.
  - intros j Hj; apply in_seq in Hj; lia.
Qed.

End ExactSum.

(** ** The [inverse] getter on a quarter turn *)

Section QuarterTurn.

Import Exact Float64.

(** The quarter turn about the z axis has a zero diagonal in its first
    two rows.  The pivot search tests the diagonal entry of each row, not
    its entry in the pivot column, finds the third row, and the
    elimination divides by zero: the getter returns NaN entries, in
    exact and in binary64 arithmetic, where the transpose is the inverse
    of the matrix. *)
Lemma inverse_quarter_turn :
  inverse (N := Exact.exact)
    [[xn 0; xn (-1); xn 0]; [xn 1; xn 0; xn 0]; [xn 0; xn 0; xn 1]]
  = Ret (Some [[VNum (N := Exact.exact) Exact.XNaN; VNum (N := Exact.exact) Exact.XNaN; VNum (N := Exact.exact) Exact.XNaN];
               [VNum (N := Exact.exact) Exact.XNaN; VNum (N := Exact.exact) Exact.XNaN; VNum (N := Exact.exact) Exact.XNaN];
               [VNum (N := Exact.exact) Exact.XNaN; VNum (N := Exact.exact) Exact.XNaN; VNum (N := Exact.exact) Exact.XNaN]])
  /\ inverse (N := Float64.float64)
       [[VNum 0%float; VNum (-1)%float; VNum 0%float];
        [VNum 1%float; VNum 0%float; VNum 0%float];
        [VNum 0%float; VNum 0%float; VNum 1%float]]
     = Ret (Some [[VNum (N := Float64.float64) nan; VNum nan; VNum nan];
                  [VNum nan; VNum nan; VNum nan];
                  [VNum nan; VNum nan; VNum nan]]).
Proof.
  split; [| vm_compute; reflexivity].
  unfold xn; xeval; reflexivity.
Qed.

End QuarterTurn.

(** * Further properties of the kernel *)

(** ** [transpose] *)

Section TransposeFacts.

Context {N : JSNum}.

Lemma forM_snoc_map {A B : Type} (f : A -> exn B) (g : A -> B) (l : list A) :
  (forall a, In a l -> f a = Ret (g a)) ->
  forall s, forM (fun s a => b <- f a ;; Ret (s ++ [b])) l s = Ret (s ++ map g l).
Proof.
  induction l as [|a l IH]; intros Hf s; simpl.
  - rewrite app_nil_r; reflexivity.
  - rewrite (Hf a (or_introl eq_refl)); cbn [bind].
    rewrite IH by (intros a' Ha'; apply Hf; right; exact Ha').
    rewrite <- app_assoc; reflexivity.
Qed.

Lemma entry_nth (M : Matrix) (x y : nat) :
  x < length M -> entry M x y = Ret (arr_get (nth x M []) y).
Proof.
  intros H; unfold entry, row_get.
  rewrite (nth_error_nth' M [] H); reflexivity.
Qed.

(** The rows of the transpose are the columns of the matrix, as many as
    the first row is long; an element that a shorter row lacks reads as
    [undefined]. *)
Lemma transpose_columns (M : Matrix) (w : nat) :
  n M = Ret w ->
  transpose M = Ret (map (fun y => map (fun x => arr_get (nth x M []) y) (seq 0 (length M)))
                         (seq 0 w)).
Proof.
  intros Hn; unfold transpose, m; rewrite Hn; cbn [bind].
  rewrite (forM_snoc_map _
             (fun y => map (fun x => arr_get (nth x M []) y) (seq 0 (length M))));
    [reflexivity|].
  intros y _.
  rewrite (forM_snoc_map _ (fun x => arr_get (nth x M []) y)); [reflexivity|].
  intros x Hx; apply in_seq in Hx; apply entry_nth; lia.
Qed.

Lemma map_nth_seq {A : Type} (l : list A) (d : A) :
  map (fun i => nth i l d) (seq 0 (length l)) = l.
Proof.
  induction l as [|x l IH]; simpl; [reflexivity|].
  f_equal; rewrite <- seq_shift, map_map; exact IH.
Qed.

Lemma nth_map_seq {A : Type} (f : nat -> A) (k i : nat) (d : A) :
  i < k -> nth i (map f (seq 0 k)) d = f i.
Proof.
  intros H; rewrite (nth_indep _ d (f 0)) by (rewrite length_map, length_seq; exact H).
  rewrite (map_nth f (seq 0 k) 0 i), seq_nth by exact H; reflexivity.
Qed.

(** The core of the double transposition: transposing the transpose
    gives the matrix back. *)
Lemma transpose_twice (M Mt : Matrix) (rows cols : nat) :
  shape rows cols M -> 0 < rows -> 0 < cols ->
  transpose M = Ret Mt ->
  transpose Mt = Ret M.
Proof.
  intros [HL HF] Hr Hc E.
  assert (Hn : n M = Ret cols) by (apply (shape_n M rows cols); [exact Hr | split; auto]).
  rewrite (transpose_columns M cols Hn) in E; injection E as <-.
  assert (HS : shape cols rows
                 (map (fun y => map (fun x => arr_get (nth x M []) y) (seq 0 (length M)))
                      (seq 0 cols))).
  { split; [rewrite length_map, length_seq; reflexivity|].
    apply Forall_forall; intros r Hr'; apply in_map_iff in Hr'.
    destruct Hr' as (y & <- & _); rewrite length_map, length_seq; exact HL. }
  rewrite (transpose_columns _ rows) by (apply (shape_n _ cols rows); assumption).
  rewrite length_map, length_seq, <- HL.
  rewrite <- (map_nth_seq M []) at 2.
  apply f_equal, map_ext_in; intros y Hy; apply in_seq in Hy.
  assert (Hrow : length (nth y M []) = cols).
  { rewrite Forall_forall in HF; apply HF, nth_In; lia. }
  rewrite <- (map_nth_seq (nth y M []) VUndef), Hrow.
  apply map_ext_in; intros x Hx; apply in_seq in Hx.
  pose proof (@nth_map_seq array
                (fun y0 => map (fun x0 => arr_get (nth x0 M []) y0) (seq 0 (length M)))
                cols x [] ltac:(lia)) as E1.
  pose proof (@nth_map_seq val (fun x0 => arr_get (nth x0 M []) x) (length M) y VUndef
                ltac:(lia)) as E2.
  unfold arr_get at 1; unfold array in *.
  rewrite E1, E2; reflexivity.
Qed.

(** X1.  Transposing twice gives the matrix back, for a matrix with at
    least one row and one column whose rows have one length; the
    transpose has the transposed shape. *)
Theorem transpose_involutive (M Mt : Matrix) (rows cols : nat) :
  shape rows cols M -> 0 < rows -> 0 < cols ->
  transpose M = Ret Mt ->
  shape cols rows Mt /\ transpose Mt = Ret M.
Proof.
  intros HS Hr Hc E; split; [| exact (transpose_twice M Mt rows cols HS Hr Hc E)].
  destruct (transpose_ok M cols (shape_n M rows cols Hr HS)) as (Mt' & E' & HS').
  rewrite E in E'; injection E' as <-.
  rewrite (proj1 HS) in HS'; exact HS'.
Qed.

End TransposeFacts.

(** ** Entries after an assignment, and [identity] *)

Section EntryFacts.

Context {N : JSNum}.

(** A loop over consecutive indices with an invariant that depends on
    the index reached. *)
Lemma forM_seq_invariant {S : Type} (P : nat -> S -> Prop) (body : S -> nat -> exn S)
    (k : nat) :
  forall (a : nat) (s : S),
    P a s ->
    (forall i s, a <= i < a + k -> P i s -> exists s', body s i = Ret s' /\ P (Datatypes.S i) s') ->
    exists s', forM body (seq a k) s = Ret s' /\ P (a + k) s'.
Proof.
  induction k as [|k IH]; intros a s Hs Hb; simpl.
  - exists s; rewrite Nat.add_0_r; auto.
  - destruct (Hb a s ltac:(lia) Hs) as (s1 & E1 & P1); rewrite E1; cbn [bind].
    destruct (IH (Datatypes.S a) s1 P1) as (s2 & E2 & P2).
    + intros i s' Hi; apply Hb; lia.
    + exists s2; split; [exact E2|].
      replace (a + Datatypes.S k) with (Datatypes.S a + k) by lia; exact P2.
Qed.

Lemma arr_get_set_other (a : array) (i j : nat) (v : val) :
  i <> j -> arr_get (arr_set a i v) j = arr_get a j.
Proof.
  unfold arr_get; revert a j; induction i as [|i IH]; intros [|x a] [|j] H; simpl;
    try congruence; try reflexivity.
  - destruct j; reflexivity.
  - rewrite IH by congruence; destruct j; reflexivity.
  - apply IH; congruence.
Qed.

Lemma nth_error_row_set (M : Matrix) (i x : nat) (r : array) :
  i < length M ->
  nth_error (row_set M i r) x = if x =? i then Some r else nth_error M x.
Proof.
  revert M x; induction i as [|i IH]; intros [|y M] [|x] H; simpl in *; try lia; auto.
  apply IH; lia.
Qed.

(** Reading an entry after [M.matrix[i][j] = v]. *)
Lemma entry_entry_set (M M' : Matrix) (i j r c : nat) (v : val) :
  entry_set M i j v = Ret M' ->
  entry M' r c = if (r =? i) && (c =? j) then Ret v else entry M r c.
Proof.
  unfold entry_set, entry, row_get.
  destruct (nth_error M i) as [row|] eqn:Ei; cbn [bind]; [| discriminate].
  intros [= <-].
  assert (Hi : i < length M) by (apply nth_error_Some; congruence).
  rewrite (nth_error_row_set M i r _ Hi).
  destruct (r =? i) eqn:Eri; cbn [andb bind].
  - apply Nat.eqb_eq in Eri; subst r; rewrite Ei; cbn [bind].
    destruct (c =? j) eqn:Ecj.
    + apply Nat.eqb_eq in Ecj; subst c; rewrite arr_get_set_same; reflexivity.
    + apply Nat.eqb_neq in Ecj; rewrite arr_get_set_other by congruence; reflexivity.
  - reflexivity.
Qed.

Lemma nth_repeat_in {A : Type} (x d : A) (k i : nat) :
  i < k -> nth i (repeat x k) d = x.
Proof.
  revert i; induction k as [|k IH]; intros [|i] H; simpl; try lia; auto.
  apply IH; lia.
Qed.

Lemma fromSize_entry (width height : nat) (value : num) (r c : nat) :
  r < height -> c < width ->
  entry (fromSize width height value) r c = Ret (VNum value).
Proof.
  intros Hr Hc; rewrite entry_nth by (unfold fromSize; rewrite repeat_length; exact Hr).
  unfold fromSize, arr_get.
  rewrite (nth_repeat_in _ _ _ _ Hr), (nth_repeat_in _ _ _ _ Hc); reflexivity.
Qed.

(** The loop of [identity], with what it has written after its last
    round. *)
Lemma identity_loop (size : nat) :
  exists I,
    identity size = Ret I /\ shape size size I /\
    forall r c, r < size -> c < size ->
      entry I r c = Ret (VNum (if (r =? c) && (r <? 0 + size) then lit 1 else lit 0)).
Proof.
  unfold identity.
  apply (forM_seq_invariant
           (fun i M => shape size size M /\
                       forall r c, r < size -> c < size ->
                         entry M r c
                         = Ret (VNum (if (r =? c) && (r <? i) then lit 1 else lit 0)))
           (fun M i => entry_set M i i (VNum (lit 1))) size 0
           (fromSize size size (lit 0))).
  - split; [apply fromSize_shape|].
    intros r c Hr Hc; rewrite fromSize_entry by assumption.
    rewrite andb_false_r; reflexivity.
  - intros i M Hi [[HL HF] HE].
    destruct (entry_set_ok M i i (VNum (lit 1)) ltac:(lia)) as (M' & E & L & F).
    exists M'; split; [exact E|]; split; [split; [lia | apply F; [lia | exact HF]]|].
    intros r c Hr Hc; rewrite (entry_entry_set M M' i i r c _ E), (HE r c Hr Hc).
    repeat match goal with
           | |- context [?a =? ?b] => destruct (Nat.eqb_spec a b)
           | |- context [?a <? ?b] => destruct (Nat.ltb_spec a b)
           end; cbn [andb]; try reflexivity; lia.
Qed.

(** X2.  [Matrix.identity(size)] is the [size] by [size] matrix with [1]
    on the diagonal and [0] elsewhere. *)
Theorem identity_entries (size : nat) :
  exists I,
    identity size = Ret I /\ shape size size I /\
    forall r c, r < size -> c < size ->
      entry I r c = Ret (VNum (if r =? c then lit 1 else lit 0)).
Proof.
  destruct (identity_loop size) as (I & E & HS & HE).
  exists I; split; [exact E|]; split; [exact HS|].
  intros r c Hr Hc; rewrite (HE r c Hr Hc).
  replace (r <? 0 + size) with true by (symmetry; apply Nat.ltb_lt; lia).
  rewrite andb_true_r; reflexivity.
Qed.

End EntryFacts.

(** ** [multiplication] with a square left factor *)

Section MultiplicationFacts.

Context {N : JSNum}.

Lemma arr_set_length_max (a : array) (i : nat) (v : val) :
  length (arr_set a i v) = Nat.max (length a) (S i).
Proof.
  revert a; induction i as [|i IH]; intros [|x a]; simpl; auto.
  rewrite Nat.max_0_r; reflexivity.
Qed.

Lemma dotPrefix_ext (row v v' : array) (k : nat) :
  (forall j, j < k -> arr_get v j = arr_get v' j) ->
  dotPrefix row v k = dotPrefix row v' k.
Proof.
  intros H; unfold dotPrefix.
  assert (G : forall l acc, (forall j, In j l -> j < k) ->
            fold_left (fun acc j => add acc (mul (toNum (arr_get row j)) (toNum (arr_get v j))))
                      l acc
            = fold_left (fun acc j => add acc (mul (toNum (arr_get row j)) (toNum (arr_get v' j))))
                        l acc).
  { induction l as [|j l IH]; intros acc Hl; simpl; [reflexivity|].
    rewrite (H j) by (apply Hl; left; reflexivity).
    apply IH; intros j' Hj'; apply Hl; right; exact Hj'. }
  apply G; intros j Hj; apply in_seq in Hj; lia.
Qed.

Lemma entry_numbers (B : list (list num)) (w r c : nat) :
  Forall (fun row => length row = w) B -> r < length B -> c < w ->
  entry (map (map VNum) B) r c = Ret (VNum (nth c (nth r B []) NaN)).
Proof.
  intros HF Hr Hc; rewrite entry_nth by (rewrite length_map; exact Hr).
  change (@nil val) with (map (@VNum N) []); rewrite map_nth.
  unfold arr_get; change VUndef with (VUndef : val).
  assert (Hl : length (nth r B []) = w).
  { rewrite Forall_forall in HF; apply HF, nth_In; exact Hr. }
  rewrite (nth_indep _ VUndef (VNum NaN)) by (rewrite length_map; lia).
  rewrite map_nth; reflexivity.
Qed.

Lemma nth_column (B : list (list num)) (i j : nat) :
  j < length B -> nth j (column B i) NaN = nth i (nth j B []) NaN.
Proof.
  intros H; unfold column.
  rewrite (nth_indep _ NaN ((fun row : list num => nth i row NaN) []))
    by (rewrite length_map; exact H).
  rewrite (map_nth (fun row : list num => nth i row NaN)); reflexivity.
Qed.

(** X4.  When the left factor is square, of the height of the right factor,
    [multiplication] returns the matrix product: the entry [i], [j] is
    the sum over [l] of [A[i][l] * B[l][j]]. *)
Theorem multiplication_square_left (A B : list (list num)) (k w : nat) :
  0 < k ->
  length A = k -> Forall (fun row => length row = k) A ->
  length B = k -> Forall (fun row => length row = w) B ->
  exists C,
    multiplication (map (map VNum) A) (map (map VNum) B) = Ret C /\
    shape k w C /\
    forall i j, i < k -> j < w ->
      entry C i j = Ret (VNum (sumProducts (nth i A []) (column B j) k)).
Proof.
  intros Hk HLA HFA HLB HFB.
  set (A' := map (map VNum) A); set (B' := map (map VNum) B).
  assert (HnB : n B' = Ret w).
  { unfold B'; destruct B as [|b B]; [simpl in HLB; lia|].
    unfold n; simpl; rewrite length_map.
    inversion HFB as [|? ? Hb _]; rewrite Hb; reflexivity. }
  assert (HwA : width A' = k).
  { unfold A'; destruct A as [|a A]; [simpl in HLA; lia|].
    unfold width; simpl; rewrite length_map.
    inversion HFA as [|? ? Ha _]; exact Ha. }
  assert (HLA' : length A' = k) by (unfold A'; rewrite length_map; exact HLA).
  unfold multiplication; rewrite HnB; cbn [bind]; cbv zeta.
  unfold Matrix, array in *; rewrite HLA'.
  destruct (forM_seq_invariant
              (fun i res => shape k w res /\
                 forall r c, r < k -> c < i ->
                   entry res r c = Ret (VNum (sumProducts (nth r A []) (column B c) k)))
              (fun result i =>
                 let vector := repeat VUndef w in
                 vector <- forM (fun vector j =>
                                   e <- entry B' j i ;; Ret (arr_set vector j e))
                                (seq 0 k) vector ;;
                 vector <- transformVector A' vector ;;
                 forM (fun result j => entry_set result j i (arr_get vector j))
                      (seq 0 k) result)
              w 0 (fromSize w k (lit 0))) as (C & E & HS & HE).
  - split; [apply fromSize_shape | intros; lia].
  - intros i res Hi [HSres HEres]; cbv zeta.
    (* the column is copied into [vector] *)
    destruct (forM_seq_invariant
                (fun j vec => j <= length vec /\
                   forall j', j' < j -> arr_get vec j' = VNum (nth j' (column B i) NaN))
                (fun vector j => e <- entry B' j i ;; Ret (arr_set vector j e))
                k 0 (repeat VUndef w)) as (vector & Ev & HLv & Hv).
    { split; [lia | intros; lia]. }
    { intros j vec Hj [HLvec Hvec].
      unfold B'; rewrite (entry_numbers B w j i HFB) by lia; cbn [bind].
      eexists; split; [reflexivity|]; split.
      - rewrite arr_set_length_max; lia.
      - intros j' Hj'. destruct (Nat.eq_dec j' j) as [->|Hne].
        + rewrite arr_get_set_same, nth_column by lia; reflexivity.
        + rewrite arr_get_set_other by congruence; apply Hvec; lia. }
    unfold array in *; rewrite Ev; cbn [bind].
    rewrite transformVector_general; cbn [bind].
    rewrite HwA, Nat.min_r by (simpl in HLv; lia).
    (* the products are written into column [i] of the result *)
    destruct (forM_seq_invariant
                (fun j res' => shape k w res' /\
                   (forall r c, r < k -> c < i ->
                      entry res' r c = Ret (VNum (sumProducts (nth r A []) (column B c) k))) /\
                   (forall r, r < j ->
                      entry res' r i = Ret (VNum (sumProducts (nth r A []) (column B i) k))))
                (fun result j =>
                   entry_set result j i
                     (arr_get (map (fun row => VNum (dotPrefix row vector k)) A') j))
                k 0 res) as (res' & Er & HSr & HEr1 & HEr2).
    { split; [exact HSres|]; split; [exact HEres | intros; lia]. }
    { intros j res0 Hj [[HL0 HF0] [HE1 HE2]].
      destruct (entry_set_ok res0 j i
                  (arr_get (map (fun row => VNum (dotPrefix row vector k)) A') j)
                  ltac:(lia)) as (res1 & E1 & L1 & F1).
      exists res1; split; [exact E1|]; split;
        [split; [lia | apply F1; [lia | exact HF0]]|].
      split.
      - intros r c Hr Hc; rewrite (entry_entry_set _ _ _ _ r c _ E1).
        destruct (Nat.eqb_spec c i); [lia|]; rewrite andb_false_r; apply HE1; auto.
      - intros r Hr; rewrite (entry_entry_set _ _ _ _ r i _ E1), Nat.eqb_refl, andb_true_r.
        destruct (Nat.eqb_spec r j) as [->|Hne]; [| apply HE2; lia].
        f_equal. unfold arr_get, A'.
        rewrite (nth_indep _ VUndef (VNum (dotPrefix (map VNum []) vector k)))
          by (rewrite !length_map; lia).
        rewrite map_map.
        rewrite (map_nth (fun row => VNum (dotPrefix (map VNum row) vector k)) A [] j).
        f_equal.
        rewrite (dotPrefix_ext _ vector (map VNum (column B i))).
        + apply dotPrefix_numbers.
        + intros l Hl; rewrite (Hv l) by lia.
          unfold arr_get.
          rewrite (nth_indep _ VUndef (VNum NaN))
            by (rewrite length_map; unfold column; rewrite length_map; lia).
          rewrite (map_nth VNum); reflexivity. }
    exists res'; split; [exact Er|]; split; [exact HSr|].
    intros r c Hr Hc. destruct (Nat.eq_dec c i) as [->|Hne].
    + apply HEr2; lia.
    + apply HEr1; lia.
  - exists C; split; [exact E|]; split; [exact HS|].
    intros i j Hi Hj; apply HE; lia.
Qed.

End MultiplicationFacts.

(** ** [multiplication] with a left factor higher than the right one *)

Section MultiplicationThrows.

Context {N : JSNum}.

Lemma entry_missing_row (M : Matrix) (i j : nat) :
  length M <= i -> entry M i j = TypeError.
Proof.
  intros H; unfold entry, row_get.
  destruct (nth_error M i) eqn:E; [| reflexivity].
  assert (i < length M) by (apply nth_error_Some; congruence); lia.
Qed.

(** Copying a column of [B] past its last row throws. *)
Lemma column_copy_throws (B : Matrix) (i k : nat) :
  forall (a : nat) (vec : array),
    a <= length B < a + k ->
    forM (fun vector j => e <- entry B j i ;; Ret (arr_set vector j e)) (seq a k) vec
    = TypeError.
Proof.
  induction k as [|k IH]; intros a vec H; [lia|]; simpl.
  destruct (Nat.eq_dec a (length B)) as [->|Hne].
  - rewrite entry_missing_row by lia; reflexivity.
  - destruct (entry_ok B a i ltac:(lia)) as (e & E); rewrite E; cbn [bind].
    apply IH; lia.
Qed.

(** X5.  When the left factor has more rows than the right factor, and the
    right factor has a column, [multiplication] throws: the copy of the
    first column reads a row that the right factor does not have. *)
Theorem multiplication_higher_left_throws (A B : Matrix) (w : nat) :
  n B = Ret w -> 0 < w -> length B < length A ->
  multiplication A B = TypeError.
Proof.
  intros Hn Hw Hlen; unfold multiplication; rewrite Hn; cbn [bind]; cbv zeta.
  destruct w as [|w]; [lia|]; cbn [seq forM].
  rewrite column_copy_throws by lia; reflexivity.
Qed.

End MultiplicationThrows.

(** ** The matrix without rows *)

Section EmptyMatrix.

Context {N : JSNum}.

Lemma forM_unchanged {A S : Type} (body : S -> A -> exn S) (l : list A) (s : S) :
  (forall a, body s a = Ret s) -> forM body l s = Ret s.
Proof.
  intros H; induction l as [|a l IH]; simpl; [reflexivity|].
  rewrite H; exact IH.
Qed.

(** X6.  The matrix without rows: the width, the transpose and the inverse
    throw, and so does a product with it on the right; as a left factor
    it gives the matrix without rows, and it maps every vector to the
    empty vector. *)
Theorem empty_matrix_behaviour (A : Matrix) (v : array) :
  n [] = TypeError /\
  transpose [] = TypeError /\
  inverse [] = TypeError /\
  multiplication A [] = TypeError /\
  transformVector [] v = Ret [] /\
  identity 0 = Ret [] /\
  (forall B w, n B = Ret w -> multiplication [] B = Ret []).
Proof.
  repeat split; try reflexivity.
  intros B w Hn; unfold multiplication; rewrite Hn; cbn [bind length seq forM].
  apply forM_unchanged; intros i; reflexivity.
Qed.

End EmptyMatrix.

(** ** [swap] *)

Section SwapFacts.

Context {N : JSNum}.







End SwapFacts.

(** ** The identity matrix is neutral *)

Section IdentityNeutral.

Import Exact.
Local Open Scope R_scope.

Lemma arr_get_map_xn (v : list R) (j : nat) :
  (j < length v)%nat -> arr_get (map xn v) j = xn (nth j v 0).
Proof.
  unfold arr_get; revert j; induction v as [|x v IH]; intros [|j] H; simpl in *;
    try lia; auto.
  apply IH; lia.
Qed.

Lemma nth_map_default {A B : Type} (f : A -> B) (l : list A) (i : nat) (d : A) (e : B) :
  (i < length l)%nat -> nth i (map f l) e = f (nth i l d).
Proof.
  intros H; rewrite (nth_indep _ e (f d)) by (rewrite length_map; exact H).
  apply map_nth.
Qed.

(** The product of a row of the identity matrix with a vector of reals
    is the component of the vector at the index of the row. *)
Lemma dotPrefix_unit_row (row : array) (v : list R) (i k : nat) :
  (forall j, (j < k)%nat ->
     arr_get row j = VNum (if (i =? j)%nat then lit 1 else lit 0)) ->
  (k <= length v)%nat ->
  dotPrefix (N := exact) row (map xn v) k
  = Fin (if (i <? k)%nat then nth i v 0 else 0).
Proof.
  unfold dotPrefix; induction k as [|k IH]; intros Hrow Hk; [reflexivity|].
  rewrite seq_S, fold_left_app; cbn [fold_left Nat.add].
  rewrite IH by (try (intros j Hj; apply Hrow); lia).
  rewrite (Hrow k) by lia; rewrite arr_get_map_xn by lia.
  destruct (Nat.ltb_spec i k), (Nat.eqb_spec i k), (Nat.ltb_spec i (S k));
    try lia; subst; cbn; f_equal; ring.
Qed.

(** X3.  In exact arithmetic, [Matrix.identity(k)] maps every vector of [k]
    reals to itself. *)
Theorem identity_neutral (v : list R) :
  exists I,
    identity (N := exact) (length v) = Ret I /\
    transformVector I (map xn v) = Ret (map xn v).
Proof.
  destruct (identity_loop (N := exact) (length v)) as (I & E & [HL HF] & HE).
  exists I; split; [exact E|].
  rewrite transformVector_general; f_equal.
  assert (Hw : width I = length v).
  { unfold width; destruct I as [|r I]; [exact HL|]; inversion HF; assumption. }
  rewrite Hw, length_map, Nat.min_id.
  apply nth_ext with (d := VUndef) (d' := VUndef); [rewrite !length_map; exact HL|].
  rewrite length_map; intros i Hi.
  rewrite (nth_map_default _ I i []) by exact Hi.
  rewrite (nth_map_default xn v i 0) by lia.
  rewrite (dotPrefix_unit_row _ v i (length v)); [| | lia].
  - destruct (Nat.ltb_spec i (length v)); [reflexivity | lia].
  - intros j Hj.
    pose proof (HE i j ltac:(lia) Hj) as Hij.
    replace (i <? 0 + length v)%nat with true in Hij
      by (symmetry; apply Nat.ltb_lt; lia).
    rewrite andb_true_r, entry_nth in Hij by lia; injection Hij as Hij; exact Hij.
Qed.

End IdentityNeutral.

(** ** [inverse] on two-by-two matrices *)

Section InverseTwoByTwo.

Import Exact.
Local Open Scope R_scope.

Lemma inverse_2x2_regular (a b c d : R) :
  a <> 0 -> a * d - b * c <> 0 ->
  exists e00 e01 e10 e11,
    inverse [[xn a; xn b]; [xn c; xn d]]
    = Ret (Some [[xn e00; xn e01]; [xn e10; xn e11]]) /\
    e00 = d / (a * d - b * c) /\ e01 = - b / (a * d - b * c) /\
    e10 = - c / (a * d - b * c) /\ e11 = a / (a * d - b * c).
Proof.
  intros Ha Hdet.
  assert (Hp : b * (1 / a) * - c + d <> 0).
  { intros E; apply Hdet.
    replace (a * d - b * c) with ((b * (1 / a) * - c + d) * a) by (field; exact Ha).
    rewrite E; ring. }
  unfold xn; cbn.
  repeat (scase ltac:(fun H => first [ contradiction | lra ]); cbn).
  do 4 eexists; split; [reflexivity|].
  repeat split; field; (split; [exact Hdet | exact Ha]).
Qed.

Lemma inverse_2x2_swapped (b c d : R) :
  d <> 0 -> b <> 0 -> c <> 0 ->
  exists e00 e01 e10 e11,
    inverse [[xn 0; xn b]; [xn c; xn d]]
    = Ret (Some [[xn e00; xn e01]; [xn e10; xn e11]]) /\
    e00 = d / (0 * d - b * c) /\ e01 = - b / (0 * d - b * c) /\
    e10 = - c / (0 * d - b * c) /\ e11 = 0 / (0 * d - b * c).
Proof.
  intros Hd Hb Hc.
  unfold xn; cbn.
  repeat (scase ltac:(fun H => first [ contradiction | lra | nra ]); cbn).
  do 4 eexists; split; [reflexivity|].
  repeat split; field; auto.
Qed.

(** X8.  In exact arithmetic, on a two-by-two matrix of reals with a nonzero
    determinant and a nonzero diagonal entry, [inverse] returns the
    inverse matrix: the adjugate divided by the determinant. *)
Theorem inverse_2x2 (a b c d : R) :
  a * d - b * c <> 0 -> a <> 0 \/ d <> 0 ->
  inverse [[xn a; xn b]; [xn c; xn d]]
  = Ret (Some [[xn (d / (a * d - b * c)); xn (- b / (a * d - b * c))];
               [xn (- c / (a * d - b * c)); xn (a / (a * d - b * c))]]).
Proof.
  intros Hdet Hdiag.
  destruct (Req_dec_T a 0) as [Ea|Ha].
  - subst a; destruct Hdiag as [F|Hd]; [congruence|].
    destruct (inverse_2x2_swapped b c d Hd) as (e00 & e01 & e10 & e11 & E & -> & -> & -> & ->);
      [intros ->; apply Hdet; ring | intros ->; apply Hdet; ring | exact E].
  - destruct (inverse_2x2_regular a b c d Ha Hdet)
      as (e00 & e01 & e10 & e11 & E & -> & -> & -> & ->); exact E.
Qed.

Lemma inverse_2x2_witness :
  inverse [[xn 2; xn 1]; [xn 1; xn 1]]
  = Ret (Some [[xn (1 / (2 * 1 - 1 * 1)); xn (- 1 / (2 * 1 - 1 * 1))];
               [xn (- 1 / (2 * 1 - 1 * 1)); xn (2 / (2 * 1 - 1 * 1))]]).
Proof.
  apply (inverse_2x2 2 1 1 1); [lra | left; lra].
Defined.

End InverseTwoByTwo.

(** ** [inverse] on the rotation matrices *)

Section RotationInverse.

Import Exact.
Local Open Scope R_scope.

(** X9.  In exact arithmetic, for an angle whose cosine is not zero, the
    [inverse] getter returns, on the matrix of [rotation3D], the
    transpose of the matrix.  (With a zero cosine the pivot search fails
    and every entry is NaN: [inverse_quarter_turn].) *)
Theorem rotation3D_inverse_transpose (axis : nat) (theta : R) :
  (axis < 3)%nat -> cos theta <> 0 ->
  exists M Mt : Matrix,
    rotation3D (N := exact) axis (Fin theta) = Ret M /\
    transpose M = Ret Mt /\
    inverse M = Ret (Some Mt).
Proof.
  intros Hax Hc; pose proof (sin_cos_square theta) as E.
  assert (Hp : 1 / cos theta <> 0).
  { unfold Rdiv; rewrite Rmult_1_l; apply Rinv_neq_0_compat; exact Hc. }
  assert (Hsc : sin theta * - - sin theta + cos theta * cos theta <> 0) by lra.
  assert (Es : sin theta ^ 2 = 1 - cos theta ^ 2) by (simpl; lra).
  destruct axis as [|[|[|axis]]]; [| | | lia];
    (eexists; eexists; split; [reflexivity|]; split; [reflexivity|]);
    cbn.
  all: repeat (scase ltac:(fun H =>
                 first [ contradiction | lra
                       | match type of H with
                         | ?l = 0 =>
                             apply Hp;
                             replace (1 / cos theta) with l
                               by (field_simplify_eq; [nra | auto]);
                             exact H
                         end ]); cbn).
  all: repeat match goal with
         | |- @eq R _ _ =>
             first [ field_simplify_eq;
                     [ reduce_sine (sin theta) (cos theta) Es; ring
                     | repeat split; first [assumption | intro; nra] ]
                   | fail 2 ]
         | |- _ => reflexivity
         | |- _ => progress f_equal
         end.
Qed.

(** At the angle pi / 3, whose sine is not zero and whose cosine is
    1 / 2. *)
Lemma rotation3D_inverse_transpose_witness :
  0 < sin (PI / 3) /\
  exists M Mt : Matrix,
    rotation3D (N := exact) 1 (Fin (PI / 3)) = Ret M /\
    transpose M = Ret Mt /\
    inverse M = Ret (Some Mt).
Proof.
  split.
  - apply sin_gt_0; pose proof PI_RGT_0; lra.
  - apply (rotation3D_inverse_transpose 1 (PI / 3)); [lia | rewrite cos_PI3; lra].
Defined.

End RotationInverse.

(** ** The [Vector] methods *)

Section VectorFacts.

Context {N : JSNum}.

Lemma fold_left_snoc_map {A B : Type} (f : A -> B) (l : list A) (acc : list B) :
  fold_left (fun result i => result ++ [f i]) l acc = acc ++ map f l.
Proof.
  revert acc; induction l as [|a l IH]; intros acc; simpl.
  - rewrite app_nil_r; reflexivity.
  - rewrite IH, <- app_assoc; reflexivity.
Qed.

(** The loop of [Vector.addition] as a map over the indices. *)
Lemma addition_map (vector1 vector2 : array) :
  addition vector1 vector2
  = map (fun i =>
           VNum (add (toNum (if isNaN (arr_get vector1 i) then VNum (lit 0)
                             else arr_get vector1 i))
                     (toNum (if isNaN (arr_get vector2 i) then VNum (lit 0)
                             else arr_get vector2 i))))
        (seq 0 (Nat.max (length vector1) (length vector2))).
Proof. unfold addition; cbv zeta; apply (fold_left_snoc_map _ _ []). Qed.

Lemma subtraction_map (vector1 vector2 : array) :
  subtraction vector1 vector2
  = map (fun i =>
           VNum (sub (toNum (if isNaN (arr_get vector1 i) then VNum (lit 0)
                             else arr_get vector1 i))
                     (toNum (if isNaN (arr_get vector2 i) then VNum (lit 0)
                             else arr_get vector2 i))))
        (seq 0 (Nat.max (length vector1) (length vector2))).
Proof. unfold subtraction; cbv zeta; apply (fold_left_snoc_map _ _ []). Qed.

End VectorFacts.

Section ExactVectorFacts.

Import Exact.
Local Open Scope R_scope.

Lemma term_orZero (a : list (option R)) (i : nat) :
  toNum (if isNaN (arr_get (map xo a) i) then VNum (lit 0) else arr_get (map xo a) i)
  = Fin (orZero (nth i a None)).
Proof.
  unfold arr_get; revert i; induction a as [|[r|] a IH]; intros [|i]; simpl; auto; exact (IH i).
Qed.

Lemma addition_exact (a b : list (option R)) :
  addition (map xo a) (map xo b)
  = map (fun i => xn (orZero (nth i a None) + orZero (nth i b None)))
        (seq 0 (Nat.max (length a) (length b))).
Proof.
  rewrite addition_map, !length_map.
  apply map_ext; intros i; rewrite !term_orZero; reflexivity.
Qed.

Lemma subtraction_exact (a b : list (option R)) :
  subtraction (map xo a) (map xo b)
  = map (fun i => xn (orZero (nth i a None) - orZero (nth i b None)))
        (seq 0 (Nat.max (length a) (length b))).
Proof.
  rewrite subtraction_map, !length_map.
  apply map_ext; intros i; rewrite !term_orZero; reflexivity.
Qed.

(** X10.  In exact arithmetic, on vectors whose elements are reals or
    NaN, [Vector.addition] and [Vector.subtraction] return a vector of
    reals as long as the longer argument: the element at an index is the
    sum, or the difference, of the two elements at the index, where NaN
    and an element past the end of the shorter vector count as 0. *)
Theorem addition_subtraction_zero_padding (a b : list (option R)) :
  addition (map xo a) (map xo b)
  = map (fun i => xn (orZero (nth i a None) + orZero (nth i b None)))
        (seq 0 (Nat.max (length a) (length b))) /\
  subtraction (map xo a) (map xo b)
  = map (fun i => xn (orZero (nth i a None) - orZero (nth i b None)))
        (seq 0 (Nat.max (length a) (length b))).
Proof.
  split; [apply addition_exact | apply subtraction_exact].
Qed.

Lemma map_xn_xo (v : list R) : map xn v = map xo (map Some v).
Proof. rewrite map_map; reflexivity. Qed.

Lemma nth_map_Some (v : list R) (i : nat) :
  orZero (nth i (map Some v) None) = nth i v 0.
Proof.
  revert i; induction v as [|x v IH]; intros [|i]; simpl; auto.
Qed.

(** X11.  In exact arithmetic, adding back what was subtracted returns the
    vector: for vectors of reals [a] and [b], [b] not longer than [a],
    [addition (subtraction a b) b] is [a]. *)
Theorem addition_subtraction_round_trip (a b : list R) :
  (length b <= length a)%nat ->
  addition (subtraction (map xn a) (map xn b)) (map xn b) = map xn a.
Proof.
  intros Hlen.
  rewrite !map_xn_xo.
  rewrite (subtraction_exact (map Some a) (map Some b)).
  rewrite !length_map, Nat.max_l by exact Hlen.
  rewrite <- (map_map (fun i => Some (orZero (nth i (map Some a) None)
                                      - orZero (nth i (map Some b) None))) xo).
  rewrite (addition_exact
              (map (fun i => Some (orZero (nth i (map Some a) None)
                                   - orZero (nth i (map Some b) None)))
                   (seq 0 (length a)))
              (map Some b)).
  rewrite !length_map, length_seq, Nat.max_l by exact Hlen.
  rewrite <- map_xn_xo.
  rewrite <- (map_nth_seq (map xn a) VUndef).
  rewrite length_map; apply map_ext_in; intros i Hi; apply in_seq in Hi.
  rewrite (nth_map_default xn a i 0) by lia.
  rewrite (nth_map_default _ (seq 0 (length a)) i 0%nat) by (rewrite length_seq; lia).
  rewrite seq_nth by lia; cbn [orZero Nat.add].
  rewrite !nth_map_Some; unfold xn; do 2 f_equal; ring.
Qed.

Lemma addition_subtraction_round_trip_witness :
  addition (subtraction (map xn [1; 2; 3]) (map xn [4; 5])) (map xn [4; 5])
  = map xn [1; 2; 3].
Proof.
  apply (addition_subtraction_round_trip [1; 2; 3] [4; 5]); simpl; lia.
Defined.

End ExactVectorFacts.

Section ExactNormalize.

Import Exact.
Local Open Scope R_scope.

Lemma sumSquares_nonneg (v : list R) : 0 <= sumSquares v.
Proof. induction v as [|x v IH]; simpl; nra. Qed.

Lemma fold_squares_Fin (l : list R) (acc : R) :
  fold_left xadd (map (fun x => xsq (toNum x)) (map xn l)) (Fin acc)
  = Fin (acc + sumSquares l).
Proof.
  revert acc; induction l as [|x l IH]; intros acc; simpl.
  - f_equal; ring.
  - rewrite IH; f_equal; ring.
Qed.

Lemma sumSquares_scaled (v : list R) (c : R) :
  sumSquares (map (fun x => x * c) v) = c * c * sumSquares v.
Proof. induction v as [|x v IH]; simpl; [ring | rewrite IH; ring]. Qed.

Lemma normalize_scaled (v : list R) :
  sumSquares v <> 0 ->
  normalize (map xn v)
  = Ret (map xn (map (fun x => x * (1 / sqrt (sumSquares v))) v)).
Proof.
  intros Hq; pose proof (sumSquares_nonneg v) as Hpos.
  assert (Hs : sqrt (sumSquares v) <> 0).
  { intros E; apply sqrt_eq_0 in E; auto. }
  destruct v as [|x v]; [simpl in Hq; lra|].
  unfold normalize, reduceSum.
  cbn [map toNum xn Math_sq exact add bind].
  change (xsq (Fin x)) with (Fin (x * x)); rewrite fold_squares_Fin.
  change (x * x + sumSquares v) with (sumSquares (x :: v)).
  cbn [Math_sqrt div lit exact xsqrt xdiv].
  destruct (Rlt_dec (sumSquares (x :: v)) 0) as [F|_]; [lra|].
  cbn [xdiv]; destruct (Req_dec_T (sqrt (sumSquares (x :: v))) 0) as [F|_]; [contradiction|].
  f_equal; rewrite ?map_map; cbn [map]; f_equal; apply map_ext; intros y; reflexivity.
Qed.

Lemma sumSquares_normalized (v : list R) :
  sumSquares v <> 0 ->
  sumSquares (map (fun x => x * (1 / sqrt (sumSquares v))) v) = 1.
Proof.
  intros Hq; pose proof (sumSquares_nonneg v) as Hpos.
  assert (Hs : sqrt (sumSquares v) <> 0).
  { intros E; apply sqrt_eq_0 in E; auto. }
  rewrite sumSquares_scaled.
  rewrite <- (sqrt_sqrt (sumSquares v)) at 3 by exact Hpos.
  field; exact Hs.
Qed.

(** X12.  In exact arithmetic, [Vector.normalize] divides a vector of
    reals that is not zero by its Euclidean length; the squares of the
    result add up to 1. *)
Theorem normalize_unit (v : list R) :
  sumSquares v <> 0 ->
  normalize (map xn v)
  = Ret (map xn (map (fun x => x * (1 / sqrt (sumSquares v))) v)) /\
  sumSquares (map (fun x => x * (1 / sqrt (sumSquares v))) v) = 1.
Proof.
  intros Hq; split; [apply normalize_scaled | apply sumSquares_normalized]; exact Hq.
Qed.

Lemma normalize_unit_witness :
  normalize (map xn [3; 4])
  = Ret (map xn (map (fun x => x * (1 / sqrt (sumSquares [3; 4]))) [3; 4])) /\
  sumSquares (map (fun x => x * (1 / sqrt (sumSquares [3; 4]))) [3; 4]) = 1.
Proof.
  apply (normalize_unit [3; 4]); simpl; lra.
Defined.

(** X13.  [Vector.normalize] throws on the empty vector, and in exact
    arithmetic it turns every component of a zero vector into NaN: the
    factor is [1 / 0], an infinity, and [0] times an infinity is NaN. *)
Theorem normalize_degenerate (k : nat) :
  normalize (N := exact) [] = TypeError /\
  normalize (map xn (repeat 0 (S k))) = Ret (repeat (VNum (XNaN : @num exact)) (S k)).
Proof.
  split; [reflexivity|].
  assert (Hz : sumSquares (repeat 0 k) = 0).
  { induction k as [|k IH]; simpl; [reflexivity | rewrite IH; ring]. }
  unfold normalize, reduceSum.
  cbn [repeat map toNum xn Math_sq exact add bind].
  change (xsq (Fin 0)) with (Fin (0 * 0)); rewrite fold_squares_Fin, Hz.
  replace (0 * 0 + 0) with 0 by ring.
  cbn [Math_sqrt div lit exact xsqrt xdiv].
  destruct (Rlt_dec 0 0) as [F|_]; [lra|].
  rewrite sqrt_0; cbn [xdiv].
  destruct (Req_dec_T 0 0) as [_|F]; [| contradiction].
  unfold infOfSign.
  destruct (Req_dec_T 1 0) as [F|_]; [lra|].
  destruct (Rlt_dec 0 1) as [_|F]; [| lra].
  f_equal.
  change (VNum (xmul (Fin 0) PInf) :: map (fun x => VNum (mul (toNum x) PInf)) (map xn (repeat 0 k))
          = VNum XNaN :: repeat (VNum XNaN) k).
  assert (E0 : xmul (Fin 0) PInf = XNaN).
  { cbn; unfold infOfSign; destruct (Req_dec_T 0 0); [reflexivity | contradiction]. }
  rewrite E0; f_equal.
  clear Hz; induction k as [|k IH]; [reflexivity|].
  cbn [repeat map]; rewrite IH; f_equal.
  change (VNum (xmul (Fin 0) PInf) = VNum XNaN :> @val exact); rewrite E0; reflexivity.
Qed.

(** X14.  In exact arithmetic, [Vector.crossProduct] of two triples of reals
    is orthogonal to both, its squared length is
    [|a|^2 |b|^2 - (a . b)^2], and [a], [b] and the product are
    right-handed: their determinant is the squared length of the
    product. *)
Theorem crossProduct_orthogonal (a0 a1 a2 b0 b1 b2 : R) :
  exists c0 c1 c2,
    crossProduct [xn a0; xn a1; xn a2] [xn b0; xn b1; xn b2] = [xn c0; xn c1; xn c2] /\
    dot3 a0 a1 a2 c0 c1 c2 = 0 /\
    dot3 b0 b1 b2 c0 c1 c2 = 0 /\
    dot3 c0 c1 c2 c0 c1 c2
    = dot3 a0 a1 a2 a0 a1 a2 * dot3 b0 b1 b2 b0 b1 b2
      - dot3 a0 a1 a2 b0 b1 b2 * dot3 a0 a1 a2 b0 b1 b2 /\
    a0 * (b1 * c2 - b2 * c1) - a1 * (b0 * c2 - b2 * c0) + a2 * (b0 * c1 - b1 * c0)
    = dot3 c0 c1 c2 c0 c1 c2.
Proof.
  do 3 eexists; split; [reflexivity|].
  unfold dot3; repeat split; ring.
Qed.

End ExactNormalize.

(** * Properties of the script *)

(** ** Picking: [distanceToPoint] and [closestPoint] *)

Section ExactPicking.

Import Exact.
Local Open Scope R_scope.

Lemma fold_left_map_index {A B S : Type} (f : S -> B -> S) (g : A -> B) (l : list A) (s : S) :
  fold_left f (map g l) s = fold_left (fun s x => f s (g x)) l s.
Proof. revert s; induction l as [|a l IH]; intros s; simpl; auto. Qed.

Lemma fold_nan_absorbs (g : nat -> xreal) (l : list nat) :
  fold_left (fun total i => xadd total (g i)) l XNaN = XNaN.
Proof. induction l as [|i l IH]; simpl; auto. Qed.

Lemma distance_fold (p q : list R) (acc : R) :
  fold_left (fun total i =>
               xadd total (xsq (xsub (toNum (arr_get (map xn p) i))
                                     (toNum (arr_get (map xn q) i)))))
            (seq 0 (length p)) (Fin acc)
  = if (length p <=? length q)%nat
    then Fin (acc + sumSquares (map (fun '(x, y) => x - y) (combine p q)))
    else XNaN.
Proof.
  revert q acc; induction p as [|x p IH]; intros q acc.
  - simpl; f_equal; ring.
  - cbn [length seq fold_left]; rewrite <- seq_shift, fold_left_map_index.
    destruct q as [|y q].
    + cbn; apply fold_nan_absorbs.
    + cbn [map arr_get nth toNum xn length Nat.leb combine sumSquares fold_right].
      change (xadd (Fin acc) (xsq (xsub (Fin x) (Fin y))))
        with (Fin (acc + (x + - y) * (x + - y))).
      rewrite (IH q); destruct (length p <=? length q)%nat; [| reflexivity].
      apply f_equal; unfold sumSquares; ring.
Qed.

Lemma distanceToPoint_fold (p q : list R) :
  distanceToPoint (map xn p) (map xn q)
  = xsqrt (if (length p <=? length q)%nat
           then Fin (0 + sumSquares (map (fun '(x, y) => x - y) (combine p q)))
           else XNaN).
Proof.
  rewrite <- (distance_fold p q 0); unfold distanceToPoint; rewrite length_map.
  reflexivity.
Qed.

(** The distance of a point of reals from a point that is not shorter is
    a real. *)
Lemma distanceToPoint_finite (p q : list R) :
  (length p <=? length q)%nat = true ->
  exists d, distanceToPoint (map xn p) (map xn q) = Fin d.
Proof.
  intros H; rewrite distanceToPoint_fold, H; cbn [xsqrt].
  destruct (Rlt_dec _ 0); [| eexists; reflexivity].
  pose proof (sumSquares_nonneg (map (fun '(x, y) => x - y) (combine p q))); lra.
Qed.

(** X15.  In exact arithmetic, on two points with real coordinates,
    [distanceToPoint] is the Euclidean distance of the first point from
    the second one cut to the length of the first; when the first point
    is the longer one the result is NaN (the loop runs over the length
    of the first point and reads [undefined] in the second). *)
Theorem distanceToPoint_exact (p q : list R) :
  distanceToPoint (map xn p) (map xn q)
  = if (length p <=? length q)%nat
    then Fin (sqrt (sumSquares (map (fun '(x, y) => x - y) (combine p q))))
    else XNaN.
Proof.
  rewrite distanceToPoint_fold.
  destruct (length p <=? length q)%nat; [| reflexivity].
  cbn [xsqrt]; rewrite Rplus_0_l.
  destruct (Rlt_dec (sumSquares (map (fun '(x, y) => x - y) (combine p q))) 0) as [F|_];
    [| reflexivity].
  pose proof (sumSquares_nonneg (map (fun '(x, y) => x - y) (combine p q))); lra.
Qed.

(** The first minimum of a list under [prev.key > curr.key ? curr : prev]. *)
Lemma first_minimum {A : Type} (key : A -> xreal) (rs : list A) :
  forall r : A,
    Forall (fun x => exists d, key x = Fin d) (r :: rs) ->
    exists l1 p l2,
      fold_left (fun prev curr => if xlt (key curr) (key prev) then curr else prev) rs r = p /\
      r :: rs = l1 ++ p :: l2 /\
      (forall x, In x l1 -> realOf (key p) < realOf (key x)) /\
      (forall x, In x l2 -> realOf (key p) <= realOf (key x)).
Proof.
  induction rs as [|x rs IH] using rev_ind; intros r HF.
  - exists [], r, []; simpl; repeat split; intros ? [].
  - rewrite app_comm_cons in HF; apply Forall_app in HF; destruct HF as [HF Hx].
    destruct (IH r HF) as (l1 & p & l2 & E & Es & H1 & H2).
    rewrite fold_left_app; cbn [fold_left]; rewrite E.
    apply Forall_inv in Hx; destruct Hx as [dx Ex].
    assert (Hp : exists dp, key p = Fin dp).
    { rewrite Forall_forall in HF; apply HF; rewrite Es; apply in_elt. }
    destruct Hp as [dp Ep]; rewrite Ex, Ep; cbn [xlt].
    rewrite Ep in H1, H2; cbn [realOf] in H1, H2.
    destruct (Rlt_dec dx dp) as [Hlt|Hge].
    + exists (r :: rs), x, []; split; [reflexivity|]; split; [reflexivity|].
      rewrite Ex; cbn [realOf]; split; [| intros ? []].
      intros y Hy; rewrite Es in Hy; apply in_app_or in Hy.
      destruct Hy as [Hy|[<-|Hy]].
      * specialize (H1 y Hy); lra.
      * rewrite Ep; cbn [realOf]; exact Hlt.
      * specialize (H2 y Hy); lra.
    + exists l1, p, (l2 ++ [x]); split; [reflexivity|]; split.
      * rewrite app_comm_cons, Es, <- app_assoc; reflexivity.
      * rewrite Ep; cbn [realOf]; split; [exact H1|].
        intros y Hy; apply in_app_or in Hy; destruct Hy as [Hy|[<-|[]]].
        -- apply H2; exact Hy.
        -- rewrite Ex; cbn [realOf]; lra.
Qed.

(** X16.  In exact arithmetic, when every distance is a real, [closestPoint]
    returns a member of the list at the least distance from the point,
    and of several such members the first one. *)
Theorem closestPoint_first_minimum (pt : array) (points : list array) :
  points <> [] ->
  Forall (fun x => exists d, distanceToPoint x pt = Fin d) points ->
  exists l1 p l2,
    closestPoint pt points = Ret p /\
    points = l1 ++ p :: l2 /\
    (forall x, In x l1 ->
       realOf (distanceToPoint p pt) < realOf (distanceToPoint x pt)) /\
    (forall x, In x l2 ->
       realOf (distanceToPoint p pt) <= realOf (distanceToPoint x pt)).
Proof.
  intros Hne HF; destruct points as [|x0 points]; [congruence|].
  unfold closestPoint; cbn [map].
  destruct (first_minimum (@dist exact) (map (fun x => mkRanked x (distanceToPoint x pt)) points)
              (mkRanked x0 (distanceToPoint x0 pt))) as (l1 & p & l2 & E & Es & H1 & H2).
  { change (Forall (fun r => exists d, dist r = Fin d)
              (map (fun x => mkRanked x (distanceToPoint x pt)) (x0 :: points))).
    rewrite Forall_map; exact HF. }
  cbn [lt exact]; rewrite E.
  change (map (fun x => mkRanked x (distanceToPoint x pt)) (x0 :: points) = l1 ++ p :: l2) in Es.
  apply map_eq_app in Es; destruct Es as (k1 & k2 & Ek & E1 & E2).
  apply map_eq_cons in E2; destruct E2 as (q & k3 & -> & Eq & E3).
  assert (Hd : forall k l, map (fun x => mkRanked x (distanceToPoint x pt)) k = l ->
                 forall x, In x k -> In (mkRanked x (distanceToPoint x pt)) l).
  { intros k l <- x Hx.
    exact (in_map (fun x => mkRanked x (distanceToPoint x pt)) k x Hx). }
  rewrite <- Eq in H1, H2; rewrite <- Eq; cbn [point].
  exists k1, q, k3; split; [reflexivity|]; split; [exact Ek|].
  cbn [dist] in H1, H2; split.
  - intros x Hx; exact (H1 _ (Hd _ _ E1 x Hx)).
  - intros x Hx; exact (H2 _ (Hd _ _ E3 x Hx)).
Qed.

Lemma closestPoint_first_minimum_witness :
  exists l1 p l2,
    closestPoint [xn 0; xn 0] [[xn 3; xn 4]; [xn 0; xn 1]; [xn 1; xn 0]] = Ret p /\
    [[xn 3; xn 4]; [xn 0; xn 1]; [xn 1; xn 0]] = l1 ++ p :: l2 /\
    (forall x, In x l1 ->
       realOf (distanceToPoint p [xn 0; xn 0]) < realOf (distanceToPoint x [xn 0; xn 0])) /\
    (forall x, In x l2 ->
       realOf (distanceToPoint p [xn 0; xn 0]) <= realOf (distanceToPoint x [xn 0; xn 0])).
Proof.
  apply (closestPoint_first_minimum [xn 0; xn 0] [[xn 3; xn 4]; [xn 0; xn 1]; [xn 1; xn 0]]).
  - discriminate.
  - repeat constructor.
    + exact (distanceToPoint_finite [3; 4] [0; 0] eq_refl).
    + exact (distanceToPoint_finite [0; 1] [0; 0] eq_refl).
    + exact (distanceToPoint_finite [1; 0] [0; 0] eq_refl).
Defined.

End ExactPicking.

(** ** The selection of [getEulerRotation] *)

Section ExactSelection.

Import Exact.
Local Open Scope R_scope.

(** The last minimum of a list under [prev.key < curr.key ? prev : curr]. *)
Lemma last_minimum {A : Type} (key : A -> xreal) (rs : list A) :
  forall r : A,
    Forall (fun x => exists d, key x = Fin d) (r :: rs) ->
    exists l1 p l2,
      fold_left (fun prev curr => if xlt (key prev) (key curr) then prev else curr) rs r = p /\
      r :: rs = l1 ++ p :: l2 /\
      (forall x, In x l1 -> realOf (key p) <= realOf (key x)) /\
      (forall x, In x l2 -> realOf (key p) < realOf (key x)).
Proof.
  induction rs as [|x rs IH] using rev_ind; intros r HF.
  - exists [], r, []; simpl; repeat split; intros ? [].
  - rewrite app_comm_cons in HF; apply Forall_app in HF; destruct HF as [HF Hx].
    destruct (IH r HF) as (l1 & p & l2 & E & Es & H1 & H2).
    rewrite fold_left_app; cbn [fold_left]; rewrite E.
    apply Forall_inv in Hx; destruct Hx as [dx Ex].
    assert (Hp : exists dp, key p = Fin dp).
    { rewrite Forall_forall in HF; apply HF; rewrite Es; apply in_elt. }
    destruct Hp as [dp Ep]; rewrite Ex, Ep; cbn [xlt].
    rewrite Ep in H1, H2; cbn [realOf] in H1, H2.
    destruct (Rlt_dec dp dx) as [Hlt|Hge].
    + exists l1, p, (l2 ++ [x]); split; [reflexivity|]; split.
      * rewrite app_comm_cons, Es, <- app_assoc; reflexivity.
      * rewrite Ep; cbn [realOf]; split; [exact H1|].
        intros y Hy; apply in_app_or in Hy; destruct Hy as [Hy|[<-|[]]].
        -- apply H2; exact Hy.
        -- rewrite Ex; cbn [realOf]; lra.
    + exists (r :: rs), x, []; split; [reflexivity|]; split; [reflexivity|].
      rewrite Ex; cbn [realOf]; split; [| intros ? []].
      intros y Hy; rewrite Es in Hy; apply in_app_or in Hy.
      destruct Hy as [Hy|[<-|Hy]].
      * specialize (H1 y Hy); lra.
      * rewrite Ep; cbn [realOf]; lra.
      * specialize (H2 y Hy); lra.
Qed.

(** X17.  In exact arithmetic, when every error is a real, the selection of
    [getEulerRotation] returns a candidate of least error, and of
    several such candidates the last one. *)
Theorem reduceBest_last_minimum (cands : list Candidate) :
  cands <> [] ->
  Forall (fun c => exists d, error c = Fin d) cands ->
  exists l1 c l2,
    reduceBest cands = Ret c /\
    cands = l1 ++ c :: l2 /\
    (forall x, In x l1 -> realOf (error c) <= realOf (error x)) /\
    (forall x, In x l2 -> realOf (error c) < realOf (error x)).
Proof.
  intros Hne HF; destruct cands as [|c0 cands]; [congruence|].
  destruct (last_minimum (@error exact) cands c0 HF) as (l1 & p & l2 & E & Es & H1 & H2).
  exists l1, p, l2; unfold reduceBest; cbn [lt exact]; rewrite E; auto.
Qed.

Lemma reduceBest_last_minimum_witness :
  exists l1 c l2,
    reduceBest [mkCandidate [xn 1] (Fin 2); mkCandidate [xn 2] (Fin 1);
                mkCandidate [xn 3] (Fin 1)] = Ret c /\
    [mkCandidate [xn 1] (Fin 2); mkCandidate [xn 2] (Fin 1); mkCandidate [xn 3] (Fin 1)]
    = l1 ++ c :: l2 /\
    (forall x, In x l1 -> realOf (error c) <= realOf (error x)) /\
    (forall x, In x l2 -> realOf (error c) < realOf (error x)).
Proof.
  apply (reduceBest_last_minimum
           [mkCandidate [xn 1] (Fin 2); mkCandidate [xn 2] (Fin 1);
            mkCandidate [xn 3] (Fin 1)]).
  - discriminate.
  - repeat constructor; eexists; reflexivity.
Defined.

(** X18.  In exact arithmetic the selection of [getEulerRotation] returns the
    last candidate whenever the error of the last candidate is NaN:
    [prev.error < NaN] is false. *)
Theorem reduceBest_nan_last (cands : list Candidate) (c : Candidate) :
  error c = XNaN -> reduceBest (cands ++ [c]) = Ret c.
Proof.
  intros Ec; unfold reduceBest.
  destruct cands as [|c0 cands]; [reflexivity|].
  cbn [app]; rewrite fold_left_app; cbn [fold_left lt exact]; rewrite Ec.
  destruct (error (fold_left _ cands c0)); reflexivity.
Qed.

Lemma reduceBest_nan_last_witness :
  reduceBest ([mkCandidate [xn 1] (Fin 0)] ++ [mkCandidate [xn 2] XNaN])
  = Ret (mkCandidate [xn 2] XNaN).
Proof.
  apply (reduceBest_nan_last [mkCandidate [xn 1] (Fin 0)] (mkCandidate [xn 2] XNaN)).
  reflexivity.
Defined.

End ExactSelection.

(** ** The viewport: image size and coordinate conversions *)

Section ExactCanvas.

Import Exact.
Local Open Scope R_scope.

(** X19.  In exact arithmetic, for positive image and canvas sizes and a
    positive zoom ratio, [imgCanvasSize] scales the image to fit the
    canvas enlarged by the zoom ratio: the aspect ratio of the image is
    kept, neither side is larger than the side of the canvas times the
    zoom ratio, and one of them is equal to it. *)
Theorem imgCanvasSize_fits (nw nh cw ch z ox oy : R) :
  0 < nw -> 0 < nh -> 0 < cw -> 0 < ch -> 0 < z ->
  exists W H,
    imgCanvasSize (realView nw nh cw ch z ox oy) = [xn W; xn H] /\
    0 < W /\ 0 < H /\
    W / H = nw / nh /\
    W <= cw * z /\ H <= ch * z /\
    (W = cw * z \/ H = ch * z).
Proof.
  intros Hnw Hnh Hcw Hch Hz.
  assert (Hm : 0 < Rmax (nw / cw) (nh / ch)).
  { apply Rlt_le_trans with (nw / cw); [apply Rdiv_lt_0_compat; assumption | apply Rmax_l]. }
  assert (Hk : 0 < Rmax (nw / cw) (nh / ch) / z) by (apply Rdiv_lt_0_compat; assumption).
  exists (nw / (Rmax (nw / cw) (nh / ch) / z)), (nh / (Rmax (nw / cw) (nh / ch) / z)).
  split.
  { unfold imgCanvasSize, realView, xn; cbn.
    destruct (Req_dec_T cw 0) as [F|_]; [lra|].
    destruct (Req_dec_T ch 0) as [F|_]; [lra|]; cbn.
    destruct (Req_dec_T z 0) as [F|_]; [lra|]; cbn.
    destruct (Req_dec_T (Rmax (nw / cw) (nh / ch) / z) 0) as [F|_]; [lra|].
    reflexivity. }
  split; [apply Rdiv_lt_0_compat; assumption|].
  split; [apply Rdiv_lt_0_compat; assumption|].
  split; [field; repeat split; lra|].
  assert (Hq : 0 < nw / cw) by (apply Rdiv_lt_0_compat; assumption).
  assert (Hq' : 0 < nh / ch) by (apply Rdiv_lt_0_compat; assumption).
  assert (Ecross : forall a b, 0 < b -> a / b * b = a) by (intros; field; lra).
  destruct (Rle_dec (nw / cw) (nh / ch)) as [Hle|Hgt].
  - rewrite Rmax_right by exact Hle.
    assert (Hx : nw * ch <= nh * cw).
    { apply (Rmult_le_compat_r (cw * ch)) in Hle; [| nra].
      replace (nw / cw * (cw * ch)) with (nw * ch) in Hle by (field; lra).
      replace (nh / ch * (cw * ch)) with (nh * cw) in Hle by (field; lra).
      exact Hle. }
    replace (nh / (nh / ch / z)) with (ch * z) by (field; repeat split; lra).
    replace (nw / (nh / ch / z)) with (nw * ch * z / nh) by (field; repeat split; lra).
    split; [| split; [lra | right; reflexivity]].
    apply (Rmult_le_reg_r nh); [exact Hnh|].
    replace (nw * ch * z / nh * nh) with (nw * ch * z) by (field; lra).
    nra.
  - assert (Hge : nh / ch <= nw / cw) by lra.
    rewrite Rmax_left by exact Hge.
    assert (Hx : nh * cw <= nw * ch).
    { apply (Rmult_le_compat_r (cw * ch)) in Hge; [| nra].
      replace (nw / cw * (cw * ch)) with (nw * ch) in Hge by (field; lra).
      replace (nh / ch * (cw * ch)) with (nh * cw) in Hge by (field; lra).
      exact Hge. }
    replace (nw / (nw / cw / z)) with (cw * z) by (field; repeat split; lra).
    replace (nh / (nw / cw / z)) with (nh * cw * z / nw) by (field; repeat split; lra).
    split; [lra | split; [| left; reflexivity]].
    apply (Rmult_le_reg_r nw); [exact Hnw|].
    replace (nh * cw * z / nw * nw) with (nh * cw * z) by (field; lra).
    nra.
Qed.

Lemma imgCanvasSize_fits_witness :
  exists W H,
    imgCanvasSize (realView 4 3 800 600 1 0 0) = [xn W; xn H] /\
    0 < W /\ 0 < H /\
    W / H = 4 / 3 /\
    W <= 800 * 1 /\ H <= 600 * 1 /\
    (W = 800 * 1 \/ H = 600 * 1).
Proof.
  apply (imgCanvasSize_fits 4 3 800 600 1 0 0); lra.
Defined.

End ExactCanvas.

Section ExactViewport.

Import Exact.
Local Open Scope R_scope.

(** For positive sizes and zoom ratio the longer side of the image on
    the canvas is a positive real. *)
Lemma maxImgCanvasSize_positive (nw nh cw ch z ox oy : R) :
  0 < nw -> 0 < nh -> 0 < cw -> 0 < ch -> 0 < z ->
  exists M, maxImgCanvasSize (realView nw nh cw ch z ox oy) = Fin M /\ 0 < M.
Proof.
  intros Hnw Hnh Hcw Hch Hz.
  assert (Hk : 0 < Rmax (nw / cw) (nh / ch) / z).
  { apply Rdiv_lt_0_compat; [| exact Hz].
    apply Rlt_le_trans with (nw / cw); [apply Rdiv_lt_0_compat; assumption | apply Rmax_l]. }
  exists (Rmax (nw / (Rmax (nw / cw) (nh / ch) / z)) (nh / (Rmax (nw / cw) (nh / ch) / z))).
  split.
  - unfold maxImgCanvasSize, imgCanvasSize, realView; cbn.
    destruct (Req_dec_T cw 0) as [F|_]; [lra|].
    destruct (Req_dec_T ch 0) as [F|_]; [lra|]; cbn.
    destruct (Req_dec_T z 0) as [F|_]; [lra|]; cbn.
    destruct (Req_dec_T (Rmax (nw / cw) (nh / ch) / z) 0) as [F|_]; [lra|].
    reflexivity.
  - apply Rlt_le_trans with (nw / (Rmax (nw / cw) (nh / ch) / z));
      [apply Rdiv_lt_0_compat; assumption | apply Rmax_l].
Qed.

(** X20.  In exact arithmetic, for positive image and canvas sizes and a
    positive zoom ratio, the conversions between UV coordinates and
    canvas pixels are inverse to each other, in both directions. *)
Theorem uv_pixels_round_trip (nw nh cw ch z ox oy u v x y : R) :
  0 < nw -> 0 < nh -> 0 < cw -> 0 < ch -> 0 < z ->
  (exists px py,
     UVToPixelsAbsolute (realView nw nh cw ch z ox oy) (Fin u) (Fin v) = [xn px; xn py] /\
     pixelsToUVAbsolute (realView nw nh cw ch z ox oy) (Fin px) (Fin py) = [xn u; xn v]) /\
  (exists pu pv,
     pixelsToUVAbsolute (realView nw nh cw ch z ox oy) (Fin x) (Fin y) = [xn pu; xn pv] /\
     UVToPixelsAbsolute (realView nw nh cw ch z ox oy) (Fin pu) (Fin pv) = [xn x; xn y]).
Proof.
  intros Hnw Hnh Hcw Hch Hz.
  destruct (maxImgCanvasSize_positive nw nh cw ch z ox oy Hnw Hnh Hcw Hch Hz) as (M & HM & HMpos).
  unfold UVToPixelsAbsolute, UVToPixelsRelative, pixelsToUVAbsolute, pixelsToUVRelative.
  rewrite HM; unfold realView, xn; cbn.
  destruct (Req_dec_T 2 0) as [F|_]; [lra|].
  destruct (Req_dec_T M 0) as [F|_]; [lra|]; cbn.
  split; (do 2 eexists; split; [reflexivity|]); repeat f_equal; field; lra.
Qed.

End ExactViewport.

Section ExactPointer.

Import Exact.
Local Open Scope R_scope.

Lemma uv_pixels_round_trip_witness :
  (exists px py,
     UVToPixelsAbsolute (realView 4 3 800 600 1 0 0) (Fin 1) (Fin 0) = [xn px; xn py] /\
     pixelsToUVAbsolute (realView 4 3 800 600 1 0 0) (Fin px) (Fin py) = [xn 1; xn 0]) /\
  (exists pu pv,
     pixelsToUVAbsolute (realView 4 3 800 600 1 0 0) (Fin 400) (Fin 300) = [xn pu; xn pv] /\
     UVToPixelsAbsolute (realView 4 3 800 600 1 0 0) (Fin pu) (Fin pv) = [xn 400; xn 300]).
Proof.
  apply (uv_pixels_round_trip 4 3 800 600 1 0 0 1 0 400 300); lra.
Defined.

(** X21.  In exact arithmetic, after [moveImage] the point grabbed at the
    start of the drag is the point under the pointer: the conversion of
    the pointer position in the moved view returns [start]. *)
Theorem moveImage_keeps_grabbed_point (nw nh cw ch z ox oy su sv x y : R) :
  0 < nw -> 0 < nh -> 0 < cw -> 0 < ch -> 0 < z ->
  pixelsToUVAbsolute
    (moveImage (realView nw nh cw ch z ox oy) [xn su; xn sv] (Fin x) (Fin y))
    (Fin x) (Fin y)
  = [xn su; xn sv].
Proof.
  intros Hnw Hnh Hcw Hch Hz.
  destruct (maxImgCanvasSize_positive nw nh cw ch z ox oy Hnw Hnh Hcw Hch Hz) as (M & HM & HMpos).
  assert (HM' : forall off,
            maxImgCanvasSize (mkView (Fin nw) (Fin nh) (Fin cw) (Fin ch) (Fin z) off) = Fin M).
  { intros off; rewrite <- HM; reflexivity. }
  unfold moveImage, pixelsToUVAbsolute, pixelsToUVRelative.
  rewrite HM; unfold realView; cbn [naturalWidth naturalHeight canvasWidth canvasHeight
                                    zoomRatio imageOffset].
  rewrite HM'; unfold xn; cbn.
  destruct (Req_dec_T 2 0) as [F|_]; [lra|].
  destruct (Req_dec_T M 0) as [F|_]; [lra|]; cbn.
  repeat f_equal; field; lra.
Qed.

Lemma moveImage_keeps_grabbed_point_witness :
  pixelsToUVAbsolute
    (moveImage (realView 4 3 800 600 1 0 0) [xn 0; xn 0] (Fin 500) (Fin 300))
    (Fin 500) (Fin 300)
  = [xn 0; xn 0].
Proof.
  apply (moveImage_keeps_grabbed_point 4 3 800 600 1 0 0 0 0 500 300); lra.
Defined.

(** X22.  In exact arithmetic, for a focal length, a sensor length and a
    distance that are not zero, [projectPointLocal] returns the UV point
    that [projectPointLocalInverse] was given. *)
Theorem projectPointLocal_inverse (f s d u v : R) :
  f <> 0 -> s <> 0 -> d <> 0 ->
  projectPointLocal (Fin f) (Fin s)
    (projectPointLocalInverse (Fin f) (Fin s) [xn u; xn v] (Fin d))
  = [xn u; xn v].
Proof.
  intros Hf Hs Hd.
  unfold projectPointLocal, projectPointLocalInverse, xn; cbn.
  destruct (Req_dec_T f 0) as [F|_]; [contradiction|].
  destruct (Req_dec_T s 0) as [F|_]; [contradiction|]; cbn.
  destruct (Req_dec_T 2 0) as [F|_]; [lra|]; cbn.
  destruct (Req_dec_T (- d) 0) as [F|_]; [lra|]; cbn.
  repeat f_equal; field; auto.
Qed.

Lemma projectPointLocal_inverse_witness :
  projectPointLocal (Fin 18) (Fin 36)
    (projectPointLocalInverse (Fin 18) (Fin 36) [xn 1; xn 2] (Fin 10))
  = [xn 1; xn 2].
Proof.
  apply (projectPointLocal_inverse 18 36 10 1 2); lra.
Defined.

End ExactPointer.

(** ** [updateSensorSize] *)

Section ExactSensor.

Import Exact.
Local Open Scope R_scope.

Lemma calculate_returns (inp : Inputs) (calcResults : CalcResults) :
  exists r, calculate (N := exact) inp calcResults = Ret r.
Proof.
  destruct (calculate_run inp calcResults) as (vps & f & _ & _ & H).
  cbv zeta in H; destruct (poseGate f (axis1 inp) (axis2 inp)).
  - destruct H as (wt & loc & eul & H); eauto.
  - eauto.
Qed.

(** X27.  In exact arithmetic, for an image of positive size and positive
    sensor dimensions, [updateSensorSize()] without an argument gives
    the sensor the aspect ratio of the image and keeps its longer
    dimension: the new width and height are reals [w], [h] with
    [w / h = naturalWidth / naturalHeight] and
    [max w h = max sensorWidth sensorHeight]; the other inputs are
    unchanged and [calculate] runs on the new form. *)
Theorem updateSensorSize_default (vw : View) (inp : Inputs) (calcResults : CalcResults)
    (nw nh sw sh : R) :
  naturalWidth vw = Fin nw -> naturalHeight vw = Fin nh ->
  sensorWidth inp = Fin sw -> sensorHeight inp = Fin sh ->
  0 < nw -> 0 < nh -> 0 < sw -> 0 < sh ->
  exists w h r,
    updateSensorSize None vw inp calcResults
    = Ret (mkInputs (corners inp) (origin inp) (axis1 inp) (axis2 inp)
                    (Fin w) (Fin h) (distanceToOrigin inp), r) /\
    calculate (mkInputs (corners inp) (origin inp) (axis1 inp) (axis2 inp)
                        (Fin w) (Fin h) (distanceToOrigin inp)) calcResults = Ret r /\
    w / h = nw / nh /\
    Rmax w h = Rmax sw sh /\
    0 < w /\ 0 < h.
Proof.
  intros Enw Enh Esw Esh Hnw Hnh Hsw Hsh.
  assert (HL : 0 < Rmax sh sw) by (apply Rlt_le_trans with sh; [exact Hsh | apply Rmax_l]).
  assert (Ha : 0 < nw / nh) by (apply Rdiv_lt_0_compat; assumption).
  unfold updateSensorSize; rewrite Enw, Enh, Esw, Esh.
  cbn [div lit lt Math_max mul exact xdiv xmax xlt xmul].
  destruct (Req_dec_T nh 0) as [F|_]; [lra|].
  cbn [xlt]; destruct (Rlt_dec 1 (nw / nh)) as [Hwide|Htall]; cbn [Nat.eqb xdiv xmul].
  - destruct (Req_dec_T (nw / nh) 0) as [F|_]; [lra|].
    destruct (calculate_returns
                (mkInputs (corners inp) (origin inp) (axis1 inp) (axis2 inp)
                          (Fin (Rmax sh sw)) (Fin (Rmax sh sw / (nw / nh)))
                          (distanceToOrigin inp)) calcResults) as [r Er].
    exists (Rmax sh sw), (Rmax sh sw / (nw / nh)), r.
    rewrite Er; cbn [bind]; split; [reflexivity|]; split; [reflexivity|].
    assert (Hh : 0 < Rmax sh sw / (nw / nh)) by (apply Rdiv_lt_0_compat; assumption).
    split; [field; lra|]; split; [| split; assumption].
    rewrite (Rmax_comm sw sh); apply Rmax_left.
    apply Rlt_le, (Rmult_lt_reg_r (nw / nh)); [exact Ha|].
    replace (Rmax sh sw / (nw / nh) * (nw / nh)) with (Rmax sh sw) by (field; lra).
    nra.
  - destruct (calculate_returns
                (mkInputs (corners inp) (origin inp) (axis1 inp) (axis2 inp)
                          (Fin (Rmax sh sw * (nw / nh))) (Fin (Rmax sh sw))
                          (distanceToOrigin inp)) calcResults) as [r Er].
    exists (Rmax sh sw * (nw / nh)), (Rmax sh sw), r.
    rewrite Er; cbn [bind]; split; [reflexivity|]; split; [reflexivity|].
    split; [field; lra|]; split; [| split; [nra | assumption]].
    rewrite (Rmax_comm sw sh); apply Rmax_right; nra.
Qed.

End ExactSensor.

(** ** The matrix of [getBlender4x4Matrix] *)

Section BlenderMatrix.

Context {N : JSNum}.

(** X28.  The matrix written out for Blender has the rows of the inverse of
    the world transform, each followed by the component of the location
    at the index of the row, and the last row [0, 0, 0, 1]. *)
Theorem blenderMatrix_layout (worldTransform : Matrix) (location : array) (k : nat) :
  0 < k -> shape k k worldTransform ->
  exists inv,
    inverseObj worldTransform = Ret inv /\
    shape k k inv /\
    blenderMatrix worldTransform location
    = Ret (map (fun y => nth y inv [] ++ [arr_get location y]) (seq 0 k)
           ++ [[VNum (lit 0); VNum (lit 0); VNum (lit 0); VNum (lit 1)]]).
Proof.
  intros Hk HS.
  destruct (inverseObj_ok worldTransform k Hk HS) as (inv & Einv & HSinv).
  exists inv; split; [exact Einv|]; split; [exact HSinv|].
  unfold blenderMatrix; rewrite Einv; cbn [bind].
  destruct (transpose_ok inv k (shape_n inv k k Hk HSinv)) as (m & Em & HSm).
  rewrite (proj1 HSinv) in HSm.
  pose proof (transpose_twice inv m k k HSinv Hk Hk Em) as Eback.
  rewrite Em; cbn [bind].
  assert (Hn : n (m ++ [location]) = Ret k).
  { destruct HSm as [HL HF]; destruct m as [|r m]; simpl in *; [lia|].
    inversion HF as [|? ? Hr _]; unfold n; simpl; rewrite Hr; reflexivity. }
  rewrite (transpose_columns _ k Hn); cbn [bind]; do 2 f_equal.
  rewrite (transpose_columns m k (shape_n m k k Hk HSm)) in Eback.
  injection Eback as Eback.
  destruct HSm as [HLm HFm]; unfold Matrix, array in *.
  rewrite length_app, HLm; cbn [length].
  rewrite HLm in Eback.
  apply map_ext_in; intros y Hy; apply in_seq in Hy.
  rewrite seq_app, map_app; cbn [seq map Nat.add].
  rewrite <- Eback at 1.
  pose proof (@nth_map_seq array
                (fun y0 => map (fun x0 => arr_get (nth x0 m []) y0) (seq 0 k))
                k y [] ltac:(lia)) as E1.
  unfold array in E1; rewrite E1; f_equal.
  - apply map_ext_in; intros x Hx; apply in_seq in Hx.
    rewrite app_nth1 by (rewrite HLm; lia); reflexivity.
  - rewrite <- HLm, nth_middle; reflexivity.
Qed.

End BlenderMatrix.

(** ** [getVanishingPoints] on regular systems *)

Section VanishingPointsExact.

Import Exact.
Local Open Scope R_scope.

(** X24.  In exact arithmetic, when in both edge families the two directions
    are not parallel and the system matrix has a nonzero diagonal entry
    (the first component of the first direction or the second component
    of the second one), each point that [getVanishingPoints] returns is
    on both lines of its family: the lines through the anchor and the
    point of the family, of the first and of the second corner. *)
Theorem getVanishingPoints_intersections
    (o1x o1y a1x a1y b1x b1y o2x o2y a2x a2y b2x b2y : R) :
  (o1x - a1x) * (o2y - a2y) - (o1y - a1y) * (o2x - a2x) <> 0 ->
  o1x - a1x <> 0 \/ o2y - a2y <> 0 ->
  (o1x - b1x) * (o2y - b2y) - (o1y - b1y) * (o2x - b2x) <> 0 ->
  o1x - b1x <> 0 \/ o2y - b2y <> 0 ->
  exists t0 s0 t1 s1,
    getVanishingPoints
      (mkCorner [xn o1x; xn o1y] [xn a1x; xn a1y] [xn b1x; xn b1y],
       mkCorner [xn o2x; xn o2y] [xn a2x; xn a2y] [xn b2x; xn b2y])
    = Ret [[xn (o1x + (o1x - a1x) * t0); xn (o1y + (o1y - a1y) * t0)];
           [xn (o1x + (o1x - b1x) * t1); xn (o1y + (o1y - b1y) * t1)]] /\
    o1x + (o1x - a1x) * t0 = o2x + (o2x - a2x) * s0 /\
    o1y + (o1y - a1y) * t0 = o2y + (o2y - a2y) * s0 /\
    o1x + (o1x - b1x) * t1 = o2x + (o2x - b2x) * s1 /\
    o1y + (o1y - b1y) * t1 = o2y + (o2y - b2y) * s1.
Proof.
  intros Hda Hpa Hdb Hpb.
  destruct (vanishingPoint_nonsingular
              (mkCorner [xn o1x; xn o1y] [xn a1x; xn a1y] [xn b1x; xn b1y])
              (mkCorner [xn o2x; xn o2y] [xn a2x; xn a2y] [xn b2x; xn b2y])
              0 o1x o1y a1x a1y o2x o2y a2x a2y
              eq_refl eq_refl eq_refl eq_refl Hda Hpa)
    as (t0 & s0 & E0 & Hx0 & Hy0 & _).
  destruct (vanishingPoint_nonsingular
              (mkCorner [xn o1x; xn o1y] [xn a1x; xn a1y] [xn b1x; xn b1y])
              (mkCorner [xn o2x; xn o2y] [xn a2x; xn a2y] [xn b2x; xn b2y])
              1 o1x o1y b1x b1y o2x o2y b2x b2y
              eq_refl eq_refl eq_refl eq_refl Hdb Hpb)
    as (t1 & s1 & E1 & Hx1 & Hy1 & _).
  exists t0, s0, t1, s1.
  unfold getVanishingPoints; cbn [seq forM].
  rewrite E0; cbn [bind]; rewrite E1; cbn [bind app].
  auto.
Qed.

Lemma getVanishingPoints_intersections_witness :
  exists t0 s0 t1 s1,
    getVanishingPoints
      (mkCorner [xn 0; xn 0] [xn 1; xn 0] [xn 1; xn 1],
       mkCorner [xn 2; xn 1] [xn 2; xn 0] [xn 3; xn 1])
    = Ret [[xn (0 + (0 - 1) * t0); xn (0 + (0 - 0) * t0)];
           [xn (0 + (0 - 1) * t1); xn (0 + (0 - 1) * t1)]] /\
    0 + (0 - 1) * t0 = 2 + (2 - 2) * s0 /\
    0 + (0 - 0) * t0 = 1 + (1 - 0) * s0 /\
    0 + (0 - 1) * t1 = 2 + (2 - 3) * s1 /\
    0 + (0 - 1) * t1 = 1 + (1 - 1) * s1.
Proof.
  apply (getVanishingPoints_intersections 0 0 1 0 1 1 2 1 2 0 3 1);
    [lra | left; lra | lra | left; lra].
Defined.

End VanishingPointsExact.

(** ** [getFocalLength] on projected directions *)

Section FocalLengthRoundTrip.

Import Exact.
Import RNsatz.
Local Open Scope R_scope.

(** X23.  In exact arithmetic, [getFocalLength] recovers the focal length from
    the images of two orthogonal directions: for two directions with a
    zero scalar product, neither parallel to the image plane, projected
    by [projectPointLocal] with the focal length [f0] and a positive
    sensor length, the estimate is the absolute value of [f0]. *)
Theorem getFocalLength_of_projections (f0 s a0 a1 a2 b0 b1 b2 : R) :
  0 < s -> a2 <> 0 -> b2 <> 0 ->
  a0 * b0 + a1 * b1 + a2 * b2 = 0 ->
  getFocalLength
    [projectPointLocal (Fin f0) (Fin s) [xn a0; xn a1; xn a2];
     projectPointLocal (Fin f0) (Fin s) [xn b0; xn b1; xn b2]]
    (Fin s)
  = Ret (Fin (Rabs f0)).
Proof.
  intros Hs Ha Hb Hab.
  unfold projectPointLocal, xn; cbn.
  destruct (Req_dec_T s 0) as [F|_]; [lra|]; cbn.
  destruct (Req_dec_T a2 0) as [F|_]; [contradiction|].
  destruct (Req_dec_T b2 0) as [F|_]; [contradiction|]; cbn.
  assert (E : - (a0 * (- f0 / s * 2 / a2)) * (b0 * (- f0 / s * 2 / b2)) +
              - (a1 * (- f0 / s * 2 / a2) * (b1 * (- f0 / s * 2 / b2)))
              = Rsqr (2 * f0 / s)).
  { unfold Rsqr; field_simplify_eq; [nsatz | repeat split; lra]. }
  rewrite E.
  destruct (Rlt_dec (Rsqr (2 * f0 / s)) 0) as [F|_];
    [pose proof (Rle_0_sqr (2 * f0 / s)); lra|].
  rewrite sqrt_Rsqr_abs; cbn.
  destruct (Req_dec_T 2 0) as [F|_]; [lra|]; cbn.
  apply f_equal, f_equal.
  unfold Rdiv at 2; rewrite !Rabs_mult, Rabs_inv.
  rewrite (Rabs_right 2), (Rabs_right s) by lra.
  field; lra.
Qed.

Lemma getFocalLength_of_projections_witness :
  getFocalLength
    [projectPointLocal (Fin 18) (Fin 36) [xn 1; xn 0; xn 1];
     projectPointLocal (Fin 18) (Fin 36) [xn (-1); xn 0; xn 1]]
    (Fin 36)
  = Ret (Fin (Rabs 18)).
Proof.
  apply (getFocalLength_of_projections 18 36 1 0 1 (-1) 0 1); lra.
Defined.

End FocalLengthRoundTrip.

(** ** The world transform is a rotation *)

Section FrameAlgebra.

Import Exact.
Import RNsatz.
Local Open Scope R_scope.

Lemma matrix3_eq (a00 a01 a02 a10 a11 a12 a20 a21 a22
                  b00 b01 b02 b10 b11 b12 b20 b21 b22 : R) :
  a00 = b00 -> a01 = b01 -> a02 = b02 ->
  a10 = b10 -> a11 = b11 -> a12 = b12 ->
  a20 = b20 -> a21 = b21 -> a22 = b22 ->
  Ret (cons (cons (xn a00) (cons (xn a01) (cons (xn a02) nil)))
      (cons (cons (xn a10) (cons (xn a11) (cons (xn a12) nil)))
      (cons (cons (xn a20) (cons (xn a21) (cons (xn a22) nil))) nil)))
  = Ret (cons (cons (xn b00) (cons (xn b01) (cons (xn b02) nil)))
        (cons (cons (xn b10) (cons (xn b11) (cons (xn b12) nil)))
        (cons (cons (xn b20) (cons (xn b21) (cons (xn b22) nil))) nil))).
Proof. intros; subst; reflexivity. Qed.

(** The tail of [getWorldTransform] on two orthogonal unit vectors. *)
Lemma frame_rotation (l1 l2 : Letter) (s1 s2 u0 u1 u2 w0 w1 w2 : R) :
  letterDiffers (mkAxis Plus l1) (mkAxis Plus l2) = true ->
  s1 * s1 = 1 -> s2 * s2 = 1 ->
  u0 * u0 + u1 * u1 + u2 * u2 = 1 ->
  w0 * w0 + w1 * w1 + w2 * w2 = 1 ->
  u0 * w0 + u1 * w1 + u2 * w2 = 0 ->
  exists wt wtT : Matrix,
    (let vector1 := scalarMultiplication (cons (xn u0) (cons (xn u1) (cons (xn u2) nil))) (Fin s1) in
     let vector2 := scalarMultiplication (cons (xn w0) (cons (xn w1) (cons (xn w2) nil))) (Fin s2) in
     let vectors := row_set (cons nil (cons nil (cons nil nil))) (axes (mkAxis Plus l1)) vector1 in
     let vectors := row_set vectors (axes (mkAxis Plus l2)) vector2 in
     vectors <- completeAxes (seq 0 3) vectors ;;
     transpose vectors) = Ret wt /\
    transpose wt = Ret wtT /\
    multiplication wt wtT = identity 3 /\
    multiplication wtT wt = identity 3 /\
    det3 wt = Fin 1.
Proof.
  intros Hl Hs1 Hs2 Hu Hw Huw.
  destruct l1, l2; try discriminate Hl;
    (eexists; eexists; split; [reflexivity|]; split; [reflexivity|]);
    cbv -[IZR Rplus Rmult Rminus Ropp Rdiv Rinv];
    (split; [apply matrix3_eq; nsatz|]);
    (split; [apply matrix3_eq; nsatz|]);
    apply f_equal; nsatz.
Qed.

End FrameAlgebra.

Section WorldTransformRotation.

Import Exact.
Local Open Scope R_scope.

Lemma normalize_triple (a b c : R) :
  a * a + b * b + c * c <> 0 ->
  exists u0 u1 u2,
    normalize [xn a; xn b; xn c] = Ret [xn u0; xn u1; xn u2] /\
    u0 * u0 + u1 * u1 + u2 * u2 = 1 /\
    u0 = a * (1 / sqrt (a * a + b * b + c * c)) /\
    u1 = b * (1 / sqrt (a * a + b * b + c * c)) /\
    u2 = c * (1 / sqrt (a * a + b * b + c * c)).
Proof.
  intros Hq.
  assert (Es : sumSquares [a; b; c] = a * a + b * b + c * c) by (simpl; ring).
  pose proof (normalize_scaled [a; b; c] ltac:(rewrite Es; exact Hq)) as E1.
  pose proof (sumSquares_normalized [a; b; c] ltac:(rewrite Es; exact Hq)) as E2.
  rewrite Es in E1, E2.
  do 3 eexists; split; [exact E1|]; split; [| auto].
  etransitivity; [| exact E2]; simpl; ring.
Qed.

Lemma worldTransform_rotation_explicit (a1 a2 : AxisLabel) (x0 y0 x1 y1 sl : R) :
  letterDiffers a1 a2 = true ->
  0 < - (x0 * x1 + y0 * y1) ->
  sl <> 0 ->
  exists wt wtT : Matrix,
    getFocalLength [[xn x0; xn y0]; [xn x1; xn y1]] (Fin sl)
    = Ret (Fin (sqrt (- (x0 * x1 + y0 * y1)) / 2 * sl)) /\
    getWorldTransform a1 a2 (Fin (sqrt (- (x0 * x1 + y0 * y1)) / 2 * sl)) (Fin sl)
      [[xn x0; xn y0]; [xn x1; xn y1]] = Ret wt /\
    transpose wt = Ret wtT /\
    multiplication wt wtT = identity 3 /\
    multiplication wtT wt = identity 3 /\
    det3 wt = Fin 1.
Proof.
  intros Hl Hr Hsl.
  set (r := - (x0 * x1 + y0 * y1)) in *.
  assert (Ef : getFocalLength [[xn x0; xn y0]; [xn x1; xn y1]] (Fin sl)
               = Ret (Fin (sqrt (Rmax 0 r) / 2 * sl))).
  { unfold xn; rewrite getFocalLength_exact; fold r.
    destruct (Rlt_dec r 0) as [F|_]; [lra | reflexivity]. }
  rewrite Rmax_right in * by lra.
  set (d := sqrt r / 2 * sl / sl * 2).
  assert (Ed : d = sqrt r) by (unfold d; field; exact Hsl).
  assert (Hd2 : d * d = r) by (rewrite Ed; apply sqrt_sqrt; lra).
  assert (Edist : mul (div (Fin (sqrt r / 2 * sl)) (Fin sl)) (lit 2) = Fin d).
  { cbn; destruct (Req_dec_T sl 0) as [F|_]; [contradiction | reflexivity]. }
  destruct (normalize_triple x0 y0 (- d)) as (u0 & u1 & u2 & En1 & Hu & Eu0 & Eu1 & Eu2);
    [nra|].
  destruct (normalize_triple x1 y1 (- d)) as (w0 & w1 & w2 & En2 & Hw & Ew0 & Ew1 & Ew2);
    [nra|].
  assert (Huw : u0 * w0 + u1 * w1 + u2 * w2 = 0).
  { rewrite Eu0, Eu1, Eu2, Ew0, Ew1, Ew2.
    replace (x0 * (1 / sqrt (x0 * x0 + y0 * y0 + - d * - d)) *
             (x1 * (1 / sqrt (x1 * x1 + y1 * y1 + - d * - d))) +
             y0 * (1 / sqrt (x0 * x0 + y0 * y0 + - d * - d)) *
             (y1 * (1 / sqrt (x1 * x1 + y1 * y1 + - d * - d))) +
             - d * (1 / sqrt (x0 * x0 + y0 * y0 + - d * - d)) *
             (- d * (1 / sqrt (x1 * x1 + y1 * y1 + - d * - d))))
      with ((x0 * x1 + y0 * y1 + d * d)
            * (1 / sqrt (x0 * x0 + y0 * y0 + - d * - d))
            * (1 / sqrt (x1 * x1 + y1 * y1 + - d * - d))) by ring.
    rewrite Hd2; unfold r; ring. }
  assert (Hs : forall a : AxisLabel, exists s, signNumber a = Fin s /\ s * s = 1).
  { intros [[|] l]; cbn; eexists; (split; [reflexivity | ring]). }
  destruct (Hs a1) as (s1 & Es1 & Hs1), (Hs a2) as (s2 & Es2 & Hs2).
  destruct (frame_rotation (axLetter a1) (axLetter a2) s1 s2 u0 u1 u2 w0 w1 w2)
    as (wt & wtT & Ewt & Rest); auto.
  exists wt, wtT; split; [exact Ef|]; split; [| exact Rest].
  unfold getWorldTransform; fold r.
  rewrite Edist.
  unfold xn in *.
  cbn [row_get nth_error bind arr_get nth neg exact xneg].
  rewrite En1; cbn [bind]; rewrite En2; cbn [bind].
  rewrite Es1, Es2; exact Ewt.
Qed.

(** X25.  In exact arithmetic, for two vanishing points with a negative scalar
    product, a sensor length that is not zero and two axis labels with
    different letters, the world transform that [getWorldTransform]
    builds from the focal length of [getFocalLength] is a rotation
    matrix: its products with its transpose, on either side, are the
    identity, and its determinant is 1. *)
Theorem getWorldTransform_rotation (a1 a2 : AxisLabel) (x0 y0 x1 y1 sl : R) :
  letterDiffers a1 a2 = true ->
  0 < - (x0 * x1 + y0 * y1) ->
  sl <> 0 ->
  exists (f : R) (wt wtT : Matrix),
    getFocalLength [[xn x0; xn y0]; [xn x1; xn y1]] (Fin sl) = Ret (Fin f) /\
    getWorldTransform a1 a2 (Fin f) (Fin sl) [[xn x0; xn y0]; [xn x1; xn y1]] = Ret wt /\
    transpose wt = Ret wtT /\
    multiplication wt wtT = identity 3 /\
    multiplication wtT wt = identity 3 /\
    det3 wt = Fin 1.
Proof.
  intros Hl Hr Hsl.
  destruct (worldTransform_rotation_explicit a1 a2 x0 y0 x1 y1 sl Hl Hr Hsl)
    as (wt & wtT & H).
  exists (sqrt (- (x0 * x1 + y0 * y1)) / 2 * sl), wt, wtT; exact H.
Qed.

Lemma getWorldTransform_rotation_witness :
  exists (f : R) (wt wtT : Matrix),
    getFocalLength [[xn 1; xn 1]; [xn (-1); xn 0]] (Fin 36) = Ret (Fin f) /\
    getWorldTransform (mkAxis Plus LX) (mkAxis Minus LZ) (Fin f) (Fin 36)
      [[xn 1; xn 1]; [xn (-1); xn 0]] = Ret wt /\
    transpose wt = Ret wtT /\
    multiplication wt wtT = identity 3 /\
    multiplication wtT wt = identity 3 /\
    det3 wt = Fin 1.
Proof.
  apply (getWorldTransform_rotation (mkAxis Plus LX) (mkAxis Minus LZ) 1 1 (-1) 0 36);
    [reflexivity | lra | lra].
Defined.


(** X26.  In exact arithmetic, when the two vanishing points are real with a
    negative scalar product, the sensor dimensions are positive and the
    two axis labels have different letters, [calculate] shows the panel
    and the world transform it stores is a rotation matrix. *)
Theorem calculate_stores_rotation (inp : Inputs) (calcResults : CalcResults)
    (x0 y0 x1 y1 sw sh : R) :
  getVanishingPoints (corners inp) = Ret [[xn x0; xn y0]; [xn x1; xn y1]] ->
  sensorWidth inp = Fin sw -> sensorHeight inp = Fin sh ->
  0 < sw -> 0 < sh ->
  0 < - (x0 * x1 + y0 * y1) ->
  letterDiffers (axis1 inp) (axis2 inp) = true ->
  exists (st' : CalcResults) (wt wtT : Matrix),
    calculate inp calcResults = Ret (st', false) /\
    worldTransform st' = Some wt /\
    transpose wt = Ret wtT /\
    multiplication wt wtT = identity 3 /\
    multiplication wtT wt = identity 3 /\
    det3 wt = Fin 1.
Proof.
  intros Ev Esw Esh Hsw Hsh Hr Hl.
  assert (Hsl : 0 < Rmax sw sh) by (apply Rlt_le_trans with sw; [exact Hsw | apply Rmax_l]).
  destruct (worldTransform_rotation_explicit (axis1 inp) (axis2 inp) x0 y0 x1 y1 (Rmax sw sh)
              Hl Hr ltac:(lra)) as (wt & wtT & Ef & Ewt & Rest).
  assert (Hf : 0 < sqrt (- (x0 * x1 + y0 * y1)) / 2 * Rmax sw sh).
  { pose proof (sqrt_lt_R0 _ Hr); nra. }
  destruct (calculate_returns inp calcResults) as [[st' hidden] Ec].
  pose proof Ec as Ec'.
  unfold calculate in Ec'; rewrite Ev, Esw, Esh in Ec'; cbn [bind Math_max exact xmax] in Ec'.
  rewrite Ef in Ec'; cbn [bind] in Ec'.
  assert (Hg : poseGate (Fin (sqrt (- (x0 * x1 + y0 * y1)) / 2 * Rmax sw sh))
                 (axis1 inp) (axis2 inp) = true).
  { unfold poseGate; rewrite Hl; cbn.
    destruct (Req_dec_T _ 0) as [F|_]; [lra | reflexivity]. }
  rewrite Hg, Ewt in Ec'; cbn [bind] in Ec'.
  destruct (getLocation _ _ _ _ wt) as [loc|]; cbn [bind] in Ec'; [| discriminate].
  destruct (getEulerRotation wt) as [eul|]; cbn [bind] in Ec'; [| discriminate].
  injection Ec' as Est Eh; subst st' hidden.
  eexists; exists wt, wtT; split; [exact Ec|]; split; [reflexivity | exact Rest].
Qed.

Lemma calculate_stores_rotation_witness :
  exists (st' : CalcResults) (wt wtT : Matrix),
    calculate unitInput emptyResults = Ret (st', false) /\
    worldTransform st' = Some wt /\
    transpose wt = Ret wtT /\
    multiplication wt wtT = identity 3 /\
    multiplication wtT wt = identity 3 /\
    det3 wt = Fin 1.
Proof.
  apply (calculate_stores_rotation unitInput emptyResults (-1) 0 1 0 36 24);
    [exact unit_vanishingPoints | reflexivity | reflexivity | lra | lra | lra | reflexivity].
Defined.

End WorldTransformRotation.

(** ** Instances of the statements above *)

Section KernelWitnesses.

Import Float64.
Local Open Scope float_scope.

Lemma transpose_involutive_witness :
  shape 3 2 (map (map VNum) ([[1; 4]; [2; 5]; [3; 6]] : list (list (@num float64)))) /\
  transpose (map (map VNum) ([[1; 4]; [2; 5]; [3; 6]] : list (list (@num float64))))
  = Ret (map (map VNum) ([[1; 2; 3]; [4; 5; 6]] : list (list (@num float64)))).
Proof.
  apply (transpose_involutive (N := float64)
           (map (map VNum) ([[1; 2; 3]; [4; 5; 6]] : list (list (@num float64))))
           (map (map VNum) ([[1; 4]; [2; 5]; [3; 6]] : list (list (@num float64)))) 2 3).
  - split; [reflexivity | repeat constructor].
  - lia.
  - lia.
  - reflexivity.
Defined.

Lemma multiplication_square_left_witness :
  exists C,
    multiplication (N := float64)
      (map (map VNum) ([[1; 2]; [3; 4]] : list (list (@num float64))))
      (map (map VNum) ([[5; 6; 7]; [8; 9; 10]] : list (list (@num float64))))
    = Ret C /\
    shape 2 3 C /\
    forall i j, (i < 2)%nat -> (j < 3)%nat ->
      entry C i j
      = Ret (VNum (sumProducts (N := float64)
                     (nth i ([[1; 2]; [3; 4]] : list (list (@num float64))) [])
                     (column ([[5; 6; 7]; [8; 9; 10]] : list (list (@num float64))) j) 2)).
Proof.
  apply (multiplication_square_left (N := float64)
           ([[1; 2]; [3; 4]] : list (list (@num float64)))
           ([[5; 6; 7]; [8; 9; 10]] : list (list (@num float64))) 2 3).
  - lia.
  - reflexivity.
  - repeat constructor.
  - reflexivity.
  - repeat constructor.
Defined.

Lemma multiplication_higher_left_throws_witness :
  multiplication (N := float64) (map (map VNum) ([[1]; [2]] : list (list (@num float64)))) (map (map VNum) ([[3; 4]] : list (list (@num float64)))) = TypeError.
Proof.
  apply (multiplication_higher_left_throws (N := float64)
           (map (map VNum) ([[1]; [2]] : list (list (@num float64)))) (map (map VNum) ([[3; 4]] : list (list (@num float64)))) 2).
  - reflexivity.
  - lia.
  - simpl; lia.
Defined.


Lemma blenderMatrix_layout_witness :
  exists inv,
    inverseObj (N := float64) (map (map VNum) ([[2; 0]; [0; 4]] : list (list (@num float64)))) = Ret inv /\
    shape 2 2 inv /\
    blenderMatrix (N := float64) (map (map VNum) ([[2; 0]; [0; 4]] : list (list (@num float64)))) (map VNum ([7; 8] : list (@num float64)))
    = Ret (map (fun y => nth y inv [] ++ [arr_get (map VNum ([7; 8] : list (@num float64))) y]) (seq 0 2)
           ++ [[VNum (lit 0); VNum (lit 0); VNum (lit 0); VNum (lit 1)]]).
Proof.
  apply (blenderMatrix_layout (N := float64)
           (map (map VNum) ([[2; 0]; [0; 4]] : list (list (@num float64))))
           (map VNum ([7; 8] : list (@num float64))) 2).
  - lia.
  - split; [reflexivity | repeat constructor].
Defined.

End KernelWitnesses.

Section SensorWitness.

Import Exact.
Local Open Scope R_scope.

Lemma updateSensorSize_default_witness :
  exists w h r,
    updateSensorSize None (realView 4 3 800 600 1 0 0) unitInput emptyResults
    = Ret (mkInputs (corners unitInput) (origin unitInput) (axis1 unitInput) (axis2 unitInput)
                    (Fin w) (Fin h) (distanceToOrigin unitInput), r) /\
    calculate (mkInputs (corners unitInput) (origin unitInput) (axis1 unitInput)
                        (axis2 unitInput) (Fin w) (Fin h) (distanceToOrigin unitInput))
              emptyResults = Ret r /\
    w / h = 4 / 3 /\
    Rmax w h = Rmax 36 24 /\
    0 < w /\ 0 < h.
Proof.
  apply (updateSensorSize_default (realView 4 3 800 600 1 0 0) unitInput emptyResults
           4 3 36 24); try reflexivity; lra.
Defined.

End SensorWitness.
